(** * mobx-state-tree: the node core (core/node.ts)

    A shallow embedding of [ImmutableNode] and [Node]: the heap of node
    objects with their parent back-references, the path and resolution
    functions, the lifecycle operations (setParent, detach, die) and the
    patch and snapshot plumbing, followed by the properties of the
    natural-language specification that concern them, and by further
    properties of the code: of the path queries, of attaching, creating and
    detaching, of the writes that the node core makes and what they keep.

    Conventions.
    - A node object is a heap cell, addressed by its identity ([nid]); a field
      of the class is a field of the record [node] and keeps its name.
    - A method is a computation in the monad [M]: it reads and writes the
      heap, appends to the trace the calls it makes into user code (hooks,
      disposers, subscribers) and into the type descriptor, and ends in a
      value, in a thrown error, or stuck (a dangling reference or exhausted
      fuel; neither arises on a well-formed heap with enough fuel).
    - Loops over the parent chain (root, path, isRunningAction, emitPatch)
      and over the children (walk) take fuel. *)

From Stdlib Require Import Ascii String ZArith Lia.
From stdpp Require Import gmap strings list.

Open Scope string_scope.
Open Scope list_scope.
Open Scope Z_scope.
Open Scope nat_scope.

(** ** JavaScript values and array helpers *)

(** Values as far as the node core inspects them: primitives are compared
    by value, an object by its identity [ref]; [json] is the serialised
    content of the object, which identity comparison never looks at. *)
Inductive jsval :=
| VUndefined
| VNull
| VBool (b : bool)
| VNum (z : Z)
| VStr (s : string)
| VObj (ref : positive) (json : string).

(** [a === b] *)
Definition strict_eq (a b : jsval) : bool :=
  match a, b with
  | VUndefined, VUndefined => true
  | VNull, VNull => true
  | VBool x, VBool y => Bool.eqb x y
  | VNum x, VNum y => Z.eqb x y
  | VStr x, VStr y => String.eqb x y
  | VObj r1 _, VObj r2 _ => Pos.eqb r1 r2
  | _, _ => false
  end.

(** Equality of content: what the two values serialise to. *)
Definition value_eq (a b : jsval) : bool :=
  match a, b with
  | VUndefined, VUndefined => true
  | VNull, VNull => true
  | VBool x, VBool y => Bool.eqb x y
  | VNum x, VNum y => Z.eqb x y
  | VStr x, VStr y => String.eqb x y
  | VObj _ j1, VObj _ j2 => String.eqb j1 j2
  | _, _ => false
  end.

(** [!!v] *)
Definition truthy (v : jsval) : bool :=
  match v with
  | VUndefined | VNull => false
  | VBool b => b
  | VNum z => negb (Z.eqb z 0)
  | VStr s => negb (String.eqb s "")
  | VObj _ _ => true
  end.

(** [arr.slice(start, end)], negative indices counting from the end. *)
Definition slice {A} (start stop : Z) (l : list A) : list A :=
  let len := Z.of_nat (length l) in
  let clamp (k : Z) := if (k <? 0)%Z then Z.max (len + k) 0 else Z.min k len in
  let from := clamp start in
  let to := clamp stop in
  take (Z.to_nat (to - from)) (drop (Z.to_nat from) l).

(** [arr.slice(start)] *)
Definition slice_from {A} (start : nat) (l : list A) : list A := drop start l.

(** [str.substr(start)] *)
Fixpoint substr (start : nat) (s : string) : string :=
  match start, s with
  | O, _ => s
  | S k, String _ rest => substr k rest
  | S _, EmptyString => EmptyString
  end.

(** [str.split(sep)] for a one-character separator. *)
Fixpoint split_on (sep : ascii) (s : string) : list string :=
  match s with
  | EmptyString => [EmptyString]
  | String c rest =>
      if Ascii.eqb c sep then EmptyString :: split_on sep rest
      else match split_on sep rest with
           | [] => [String c EmptyString]
           | hd :: tl => String c hd :: tl
           end
  end.

(** [arr.join(sep)] *)
Fixpoint join (sep : string) (l : list string) : string :=
  match l with
  | [] => ""
  | [x] => x
  | x :: rest => x +:+ sep +:+ join sep rest
  end.

(** ** The path codec (core/json-patch.ts) *)

Module JsonPatch.

(** Modelled from the spec: [escapeJsonPath] of core/json-patch.ts, which is
    not part of the sources at hand.  Spec 4.1: segments are
    JSON-Pointer-escaped, "/" becomes "~1" and "~" becomes "~0". *)
Fixpoint escapeJsonPath (s : string) : string :=
  match s with
  | EmptyString => EmptyString
  | String c rest =>
      if Ascii.eqb c "/" then String "~" (String "1" (escapeJsonPath rest))
      else if Ascii.eqb c "~" then String "~" (String "0" (escapeJsonPath rest))
      else String c (escapeJsonPath rest)
  end.

(** Modelled from the spec: [unescapeJsonPath] of core/json-patch.ts, the
    inverse reading of the two escapes. *)
Fixpoint unescapeJsonPath (s : string) : string :=
  match s with
  | EmptyString => EmptyString
  | String c rest =>
      match rest with
      | String d rest' =>
          if Ascii.eqb c "~" && Ascii.eqb d "1" then String "/" (unescapeJsonPath rest')
          else if Ascii.eqb c "~" && Ascii.eqb d "0" then String "~" (unescapeJsonPath rest')
          else String c (unescapeJsonPath rest)
      | EmptyString => String c EmptyString
      end
  end.

(** Modelled from the spec: [joinJsonPath] of core/json-patch.ts.  Spec 4.1:
    the root has path "", and the escaped segments are joined with "/", each
    one after a slash (a node's path is its parent's path, "/", and its
    escaped subpath). *)
Definition joinJsonPath (path : list string) : string :=
  match path with
  | [] => ""
  | _ => "/" +:+ join "/" (map escapeJsonPath path)
  end.

(** Modelled from the spec: [splitJsonPath] of core/json-patch.ts.  Spec 4.1
    and 6: a path is split at "/" into unescaped segments; the path "/a/b"
    has the segments a and b (the empty piece before the leading slash is not
    a segment), a relative path "../b" has the segments ".." and b.  This is
    the reading of the comment in [resolvePath] (in json pointer the empty
    path is the current node and "/a" its attribute a), and what
    [applyPatches] relies on when it resolves the path of a patch from the
    node itself. *)
Definition splitJsonPath (path : string) : list string :=
  let parts := map unescapeJsonPath (split_on "/" path) in
  match parts with
  | "" :: tl => tl
  | _ => parts
  end.

End JsonPatch.
Import JsonPatch.


(** Modelled from the spec: the patch records and [splitPatch] of
    core/json-patch.ts.  Spec 3 and 6: a patch is [{op, path, value?}] with
    op one of replace, add, remove, and carries what undoes it; spec 2:
    [splitPatch] splits one reversible patch into the forward and the reverse
    patch, both at the same path. *)
Inductive patch_op := OpReplace | OpAdd | OpRemove.

Record IJsonPatch := mkPatch {
  p_op : patch_op;
  p_path : string;
  p_value : option jsval
}.

Record IReversibleJsonPatch := mkRevPatch {
  rp_op : patch_op;
  rp_path : string;
  rp_value : option jsval;
  rp_oldValue : option jsval
}.

Definition stripPatch (p : IReversibleJsonPatch) : IJsonPatch :=
  match rp_op p with
  | OpAdd => mkPatch OpAdd (rp_path p) (rp_value p)
  | OpRemove => mkPatch OpRemove (rp_path p) None
  | OpReplace => mkPatch OpReplace (rp_path p) (rp_value p)
  end.

Definition invertPatch (p : IReversibleJsonPatch) : IJsonPatch :=
  match rp_op p with
  | OpAdd => mkPatch OpRemove (rp_path p) None
  | OpRemove => mkPatch OpAdd (rp_path p) (rp_oldValue p)
  | OpReplace => mkPatch OpReplace (rp_path p) (rp_oldValue p)
  end.

Definition splitPatch (p : IReversibleJsonPatch) : IJsonPatch * IJsonPatch :=
  (stripPatch p, invertPatch p).

(** [extend({}, basePatch, {path})] *)
Definition with_path (path : string) (p : IReversibleJsonPatch) : IReversibleJsonPatch :=
  mkRevPatch (rp_op p) path (rp_value p) (rp_oldValue p).

(** ** Node objects *)

(** The identity of a node object. *)
Definition nid := positive.

(** A function handed in by user code (a disposer, a subscriber, a
    middleware): only its identity matters here, its body is user code. *)
Definition handler := nat.

(** Modelled from the spec: the [IdentifierCache] of core/identifier-cache.ts.
    Spec 3: it maps (type name, identifier value) to the nodes registered
    under it; here the registrations in order. *)
Definition IdentifierCache := list ((string * string) * nid).

Inductive node_class := ImmutableNodeC | NodeC.

(** One node object.  The fields up to [disposers] are the fields of the two
    classes.  The remaining ones are what the node core reads off its stored
    value and off its type descriptor:
    - [treenode]: the hidden back-reference [storedValue.$treenode];
    - [hooks]: the names of the function-valued properties of an object
      stored value, which [fireHook] probes;
    - [identifier]: what the [identifier] getter reads,
      [storedValue[identifierAttribute]] when an identifier attribute is
      declared and null otherwise;
    - [children]: the child nodes the type descriptor finds in the stored
      value, by subpath and in order ([getChildNode], [getChildren]);
    - [typeValue], [typeSnapshot]: what [type.getValue] and
      [type.getSnapshot] produce for the node;
    - [frozenSnapshot]: the read-only own property that [finalizeDeath] puts
      in place of the computed [snapshot];
    - [poisoned]: the throwing [$mobx] getter that [finalizeDeath] installs on
      the stored value, with the type name and the former path it reports.
    Left out: [nodeId], which nothing reads.  [_autoUnbox] with [unbox],
    which only decide whether a child is handed out as node or as value, are
    kept apart from the record, in [AutoUnbox] below. *)
Record node := MkNode {
  cls : node_class;
  typeName : string;
  _parent : option nid;
  subpath : string;
  _isRunningAction : bool;
  identifierCache : option IdentifierCache;
  isProtectionEnabled : bool;
  identifier : option string;
  _environment : jsval;
  _isAlive : bool;
  _isDetaching : bool;
  middlewares : list handler;
  snapshotSubscribers : list handler;
  patchSubscribers : list handler;
  disposers : list handler;
  treenode : option nid;
  hooks : list string;
  children : list (string * nid);
  typeValue : jsval;
  typeSnapshot : jsval;
  frozenSnapshot : option jsval;
  poisoned : option (string * string)
}.

(** Field assignments. *)
Definition set_parent (v : option nid) (n : node) : node :=
  let '(MkNode a b _ d e f g h i j k l m o p q r s t u w x) := n in
  MkNode a b v d e f g h i j k l m o p q r s t u w x.
Definition set_subpath (v : string) (n : node) : node :=
  let '(MkNode a b c _ e f g h i j k l m o p q r s t u w x) := n in
  MkNode a b c v e f g h i j k l m o p q r s t u w x.
Definition set_isRunningAction (v : bool) (n : node) : node :=
  let '(MkNode a b c d _ f g h i j k l m o p q r s t u w x) := n in
  MkNode a b c d v f g h i j k l m o p q r s t u w x.
Definition set_identifierCache (v : option IdentifierCache) (n : node) : node :=
  let '(MkNode a b c d e _ g h i j k l m o p q r s t u w x) := n in
  MkNode a b c d e v g h i j k l m o p q r s t u w x.
Definition set_environment (v : jsval) (n : node) : node :=
  let '(MkNode a b c d e f g h _ j k l m o p q r s t u w x) := n in
  MkNode a b c d e f g h v j k l m o p q r s t u w x.
Definition set_isAlive (v : bool) (n : node) : node :=
  let '(MkNode a b c d e f g h i _ k l m o p q r s t u w x) := n in
  MkNode a b c d e f g h i v k l m o p q r s t u w x.
Definition set_isDetaching (v : bool) (n : node) : node :=
  let '(MkNode a b c d e f g h i j _ l m o p q r s t u w x) := n in
  MkNode a b c d e f g h i j v l m o p q r s t u w x.
Definition set_middlewares (v : list handler) (n : node) : node :=
  let '(MkNode a b c d e f g h i j k _ m o p q r s t u w x) := n in
  MkNode a b c d e f g h i j k v m o p q r s t u w x.
Definition set_snapshotSubscribers (v : list handler) (n : node) : node :=
  let '(MkNode a b c d e f g h i j k l _ o p q r s t u w x) := n in
  MkNode a b c d e f g h i j k l v o p q r s t u w x.
Definition set_patchSubscribers (v : list handler) (n : node) : node :=
  let '(MkNode a b c d e f g h i j k l m _ p q r s t u w x) := n in
  MkNode a b c d e f g h i j k l m v p q r s t u w x.
Definition set_disposers (v : list handler) (n : node) : node :=
  let '(MkNode a b c d e f g h i j k l m o _ q r s t u w x) := n in
  MkNode a b c d e f g h i j k l m o v q r s t u w x.
Definition set_children (v : list (string * nid)) (n : node) : node :=
  let '(MkNode a b c d e f g h i j k l m o p q r _ t u w x) := n in
  MkNode a b c d e f g h i j k l m o p q r v t u w x.
Definition set_frozenSnapshot (v : option jsval) (n : node) : node :=
  let '(MkNode a b c d e f g h i j k l m o p q r s t u _ x) := n in
  MkNode a b c d e f g h i j k l m o p q r s t u v x.
Definition set_poisoned (v : option (string * string)) (n : node) : node :=
  let '(MkNode a b c d e f g h i j k l m o p q r s t u w _) := n in
  MkNode a b c d e f g h i j k l m o p q r s t u w v.

(** ** Errors, the trace and the monad *)

(** What [fail] is called with, one constructor per call site of node.ts
    (the text is left out, the data it names is kept); the last ones are
    raised by the collaborators and by the runtime. *)
Inductive error :=
| NodeExistsTwice                 (* "A node cannot exists twice in the state tree." *)
| TreeContainsItself              (* "A state tree is not allowed to contain itself." *)
| EnvironmentsDiffer              (* "... as long as their environments are different." *)
| NotSameTree                     (* "Cannot calculate relative path: ..." *)
| CouldNotResolve (part inPath : string)   (* "Could not resolve 'part' in 'inPath'" *)
| NodeDied                        (* "... cannot be used anymore as it has died" *)
| ProtectedNotWritable            (* "Cannot modify ..., the object is protected" *)
| NotSupported (operation : string)  (* "ImmutableNode does not support the ... operation" *)
| DetachNotAlive                  (* "Error while detaching, node is not alive." *)
| ObjectDied (ofType usedToLiveAt : string)
                                  (* "This object has died and is no longer part of a state tree. ..." *)
| AlreadyPartOfTree               (* createNode: "Cannot add an object to a state tree if ..." *)
| NoMstNode                       (* getStateTreeNode: "Value ... is no MST Node" *)
| NoSuchChild (sub : string)      (* the type descriptor finds no child at the subpath *)
| DuplicateIdentifier (key : string * string)  (* the identifier cache *)
| TypeError (what : string).      (* a property read off null or undefined *)

(** Calls that leave the node core. *)
Inductive event :=
| HookCalled (n : nid) (name : string)
| DisposerCalled (n : nid) (d : handler)
| PatchSubscriberCalled (n : nid) (h : handler) (patch reversePatch : IJsonPatch)
| SnapshotSubscriberCalled (n : nid) (h : handler) (snapshot : jsval)
| TypeApplySnapshot (n : nid) (snapshot : jsval) (inAction : bool)
| TypeApplyPatchLocally (n : nid) (sub : option string) (patch : IJsonPatch) (inAction : bool).

Record state := MkState {
  heap : gmap nid node;
  trace : list event
}.

Inductive outcome (A : Type) :=
| Ok (a : A)
| Throw (e : error)
| Stuck.
Arguments Ok {A} a.
Arguments Throw {A} e.
Arguments Stuck {A}.

Definition M (A : Type) : Type := state -> outcome A * state.

Definition ret {A} (a : A) : M A := fun s => (Ok a, s).

Definition bind {A B} (c : M A) (k : A -> M B) : M B :=
  fun s =>
    match c s with
    | (Ok a, s') => k a s'
    | (Throw e, s') => (Throw e, s')
    | (Stuck, s') => (Stuck, s')
    end.

Notation "'do' x <- c1 ; c2" := (bind c1 (fun x => c2))
  (at level 10, x name, c1 at level 100, c2 at level 200).
Notation "'run' c1 ; c2" := (bind c1 (fun _ => c2))
  (at level 10, c1 at level 100, c2 at level 200).

Definition throw {A} (e : error) : M A := fun s => (Throw e, s).
Definition stuck {A} : M A := fun s => (Stuck, s).

(** [try { c } finally { fin }] *)
Definition try_finally {A} (c : M A) (fin : M unit) : M A :=
  fun s =>
    match c s with
    | (Stuck, s') => (Stuck, s')
    | (r, s') =>
        match fin s' with
        | (Ok _, s'') => (r, s'')
        | (Throw e, s'') => (Throw e, s'')
        | (Stuck, s'') => (Stuck, s'')
        end
    end.

Definition lift_option {A} (o : option A) : M A :=
  match o with
  | Some a => ret a
  | None => stuck
  end.

(** Reading a node object. *)
Definition get_node (n : nid) : M node := fun s => lift_option (heap s !! n) s.

(** Assigning to fields of a node object. *)
Definition upd_node (n : nid) (f : node -> node) : M unit :=
  fun s =>
    match heap s !! n with
    | Some nd => (Ok tt, MkState (<[n := f nd]> (heap s)) (trace s))
    | None => (Stuck, s)
    end.

Definition emit (e : event) : M unit :=
  fun s => (Ok tt, MkState (heap s) (trace s ++ [e])).

(** [arr.forEach(f)] *)
Fixpoint forEach {A} (l : list A) (f : A -> M unit) : M unit :=
  match l with
  | [] => ret tt
  | x :: rest => run f x; forEach rest f
  end.

(** ** Identifier cache operations (core/identifier-cache.ts) *)

Module IdCache.

(** Modelled from the spec: [addNodeToCache].  Spec 4.4: a node with a
    declared identifier is registered under (type family, identifier); a
    second registration under the same key is reported, not kept. *)
Definition addNodeToCache (cache : IdentifierCache) (n : nid) (nd : node)
  : outcome IdentifierCache :=
  match identifier nd with
  | None => Ok cache
  | Some i =>
      let key := (typeName nd, i) in
      if existsb (fun e => bool_decide (e.1 = key)) cache
      then Throw (DuplicateIdentifier key)
      else Ok (cache ++ [(key, n)])
  end.

(** Modelled from the spec: [notifyDied].  Spec 4.2 and 4.4: the dying node
    is removed from the cache. *)
Definition notifyDied (cache : IdentifierCache) (n : nid) : IdentifierCache :=
  filter (fun e => e.2 <> n) cache.

(** Modelled from the spec: [mergeCache].  Spec 3: the cache of the tree
    absorbs the registrations of the cache of the subtree being attached. *)
Fixpoint mergeCache (cache : IdentifierCache) (incoming : IdentifierCache)
  : outcome IdentifierCache :=
  match incoming with
  | [] => Ok cache
  | (key, n) :: rest =>
      if existsb (fun e => bool_decide (e.1 = key)) cache
      then Throw (DuplicateIdentifier key)
      else mergeCache (cache ++ [(key, n)]) rest
  end.

(** [n] is [top] or lies below it, following parent references. *)
Fixpoint is_within (fuel : nat) (h : gmap nid node) (top n : nid) : bool :=
  if bool_decide (n = top) then true
  else match fuel with
       | O => false
       | S f =>
           match h !! n with
           | Some nd =>
               match _parent nd with
               | Some p => is_within f h top p
               | None => false
               end
           | None => false
           end
       end.

(** Modelled from the spec: [splitCache].  Spec 3: the registrations of the
    subtree being detached are extracted into a fresh cache; the pair is the
    fresh cache and what stays behind. *)
Definition splitCache (fuel : nat) (h : gmap nid node) (cache : IdentifierCache)
  (top : nid) : IdentifierCache * IdentifierCache :=
  (filter (fun e => is_within fuel h top e.2 = true) cache,
   filter (fun e => is_within fuel h top e.2 <> true) cache).

End IdCache.

(** ** The methods of ImmutableNode and Node *)

(** [get parent] *)
Definition parent (n : nid) : M (option nid) :=
  do nd <- get_node n; ret (_parent nd).

(** [get isRoot] *)
Definition isRoot (n : nid) : M bool :=
  do nd <- get_node n; ret (bool_decide (_parent nd = None)).

(** [get root]: [while ((p = r.parent)) r = p]. *)
Fixpoint root_of (fuel : nat) (h : gmap nid node) (n : nid) : option nid :=
  match fuel with
  | O => None
  | S f =>
      match h !! n with
      | Some nd =>
          match _parent nd with
          | Some p => root_of f h p
          | None => Some n
          end
      | None => None
      end
  end.

Definition root (fuel : nat) (n : nid) : M nid :=
  fun s => lift_option (root_of fuel (heap s) n) s.

(** [get path]: "" at a root, else the parent's path, "/" and the escaped
    subpath. *)
Fixpoint path_of (fuel : nat) (h : gmap nid node) (n : nid) : option string :=
  match fuel with
  | O => None
  | S f =>
      match h !! n with
      | Some nd =>
          match _parent nd with
          | Some p =>
              match path_of f h p with
              | Some pp => Some (pp +:+ "/" +:+ escapeJsonPath (subpath nd))
              | None => None
              end
          | None => Some ""
          end
      | None => None
      end
  end.

Definition path (fuel : nat) (n : nid) : M string :=
  fun s => lift_option (path_of fuel (heap s) n) s.

(** [isRunningAction()] *)
Fixpoint isRunningAction_of (fuel : nat) (h : gmap nid node) (n : nid) : option bool :=
  match fuel with
  | O => None
  | S f =>
      match h !! n with
      | Some nd =>
          if _isRunningAction nd then Some true
          else match _parent nd with
               | None => Some false
               | Some p => isRunningAction_of f h p
               end
      | None => None
      end
  end.

Definition isRunningAction (fuel : nat) (n : nid) : M bool :=
  fun s => lift_option (isRunningAction_of fuel (heap s) n) s.

(** [get isProtected] *)
Definition isProtected (fuel : nat) (n : nid) : M bool :=
  do r <- root fuel n;
  do rd <- get_node r;
  ret (isProtectionEnabled rd).

(** [get isAlive] *)
Definition isAlive (n : nid) : M bool :=
  do nd <- get_node n; ret (_isAlive nd).

(** [assertAlive()] *)
Definition assertAlive (n : nid) : M unit :=
  do nd <- get_node n;
  if _isAlive nd then ret tt else throw NodeDied.

(** [assertWritable()] *)
Definition assertWritable (fuel : nat) (n : nid) : M unit :=
  run assertAlive n;
  do running <- isRunningAction fuel n;
  if running then ret tt
  else
    do protected <- isProtected fuel n;
    if protected then throw ProtectedNotWritable else ret tt.

(** [fireHook(name)] *)
Definition fireHook (n : nid) (name : string) : M unit :=
  do nd <- get_node n;
  if bool_decide (name ∈ hooks nd) then emit (HookCalled n name) else ret tt.

(** [get value] *)
Definition value (n : nid) : M jsval :=
  do nd <- get_node n;
  if negb (_isAlive nd) then ret VUndefined else ret (typeValue nd).

(** [get snapshot]; after [finalizeDeath] the own read-only property. *)
Definition snapshot_of (nd : node) : jsval :=
  match frozenSnapshot nd with
  | Some v => v
  | None => if negb (_isAlive nd) then VUndefined else typeSnapshot nd
  end.

Definition snapshot (n : nid) : M jsval :=
  do nd <- get_node n; ret (snapshot_of nd).

Fixpoint lookup_child (sub : string) (l : list (string * nid)) : option nid :=
  match l with
  | [] => None
  | (k, c) :: rest => if bool_decide (k = sub) then Some c else lookup_child sub rest
  end.

(** Modelled from the spec: [type.getChildNode], [type.getChildren] and
    [type.removeChild] of the type descriptor, which is an external
    collaborator (spec 6).  They are read off the child table of the stored
    value; a subpath without a child is an error of the type descriptor. *)
Definition type_getChildNode (nd : node) (sub : string) : M nid :=
  match lookup_child sub (children nd) with
  | Some c => ret c
  | None => throw (NoSuchChild sub)
  end.

Definition type_getChildren (nd : node) : list nid := map snd (children nd).

Definition type_removeChild (n : nid) (sub : string) : M unit :=
  upd_node n (fun nd => set_children (filter (fun e => e.1 <> sub) (children nd)) nd).

(** [getChildNode(subpath)] *)
Definition getChildNode (n : nid) (sub : string) : M nid :=
  run assertAlive n;
  do nd <- get_node n;
  type_getChildNode nd sub.

(** [getChildren()] *)
Definition getChildren (n : nid) : M (list nid) :=
  run assertAlive n;
  do nd <- get_node n;
  ret (type_getChildren nd).

(** [removeChild(subpath)] *)
Definition removeChild (n : nid) (sub : string) : M unit :=
  type_removeChild n sub.

(** [isStateTreeNode(holder.storedValue)] and
    [getStateTreeNode(holder.storedValue)]: a stored value is named by a node
    that holds it. *)
Definition isStateTreeNode (holder : nid) : M bool :=
  do hd <- get_node holder; ret (bool_decide (treenode hd <> None)).

Definition getStateTreeNode (holder : nid) : M nid :=
  do hd <- get_node holder;
  match treenode hd with
  | Some n => ret n
  | None => throw NoMstNode
  end.

(** *** Death *)

(** [Node.aboutToDie()] *)
Definition Node_aboutToDie (n : nid) : M unit :=
  do nd <- get_node n;
  run upd_node n (set_disposers []);
  run forEach (disposers nd) (fun f => emit (DisposerCalled n f));
  fireHook n "beforeDestroy".

Definition aboutToDie (n : nid) : M unit :=
  do nd <- get_node n;
  match cls nd with
  | ImmutableNodeC => throw (NotSupported "aboutToDie")
  | NodeC => Node_aboutToDie n
  end.

(** [Node.finalizeDeath()] *)
Definition Node_finalizeDeath (fuel : nat) (n : nid) : M unit :=
  do r <- root fuel n;
  do rd <- get_node r;
  match identifierCache rd with
  | None => throw (TypeError "identifierCache")
  | Some cache =>
      run upd_node r (set_identifierCache (Some (IdCache.notifyDied cache n)));
      do oldPath <- path fuel n;
      do last <- snapshot n;
      run upd_node n (set_frozenSnapshot (Some last));
      run upd_node n (set_patchSubscribers []);
      run upd_node n (set_snapshotSubscribers []);
      run upd_node n (set_patchSubscribers []);
      run upd_node n (set_isAlive false);
      run upd_node n (set_parent None);
      run upd_node n (set_subpath "");
      upd_node n (fun nd => set_poisoned (Some (typeName nd, oldPath)) nd)
  end.

Definition finalizeDeath (fuel : nat) (n : nid) : M unit :=
  do nd <- get_node n;
  match cls nd with
  | ImmutableNodeC => throw (NotSupported "finalizeDeath")
  | NodeC => Node_finalizeDeath fuel n
  end.

(** Modelled from the spec: [walk] of core/mst-operations.ts.  Spec 2 and
    4.2: the tree-attached descendants of the value are visited depth-first,
    the children of a node before the node itself, and the processor is
    applied to each; a child whose stored value is not tree-attached is
    passed over. *)
Fixpoint walk (fuel : nat) (processor : nid -> M unit) (holder : nid) : M unit :=
  match fuel with
  | O => stuck
  | S f =>
      do n <- getStateTreeNode holder;
      do kids <- getChildren n;
      run forEach kids (fun child =>
            do attached <- isStateTreeNode child;
            if attached then walk f processor child else ret tt);
      processor n
  end.

(** [Node.die()] *)
Definition Node_die (fuel : nat) (n : nid) : M unit :=
  do nd <- get_node n;
  if _isDetaching nd then ret tt
  else
    do attached <- isStateTreeNode n;
    if attached then
      run walk fuel (fun child => do c <- getStateTreeNode child; aboutToDie c) n;
      walk fuel (fun child => do c <- getStateTreeNode child; finalizeDeath fuel c) n
    else ret tt.

(** [ImmutableNode.die()]: "ImmutableNode never dies! (just detaches)" *)
Definition ImmutableNode_die (n : nid) : M unit := ret tt.

Definition die (fuel : nat) (n : nid) : M unit :=
  do nd <- get_node n;
  match cls nd with
  | ImmutableNodeC => ImmutableNode_die n
  | NodeC => Node_die fuel n
  end.

(** *** Attaching *)

(** [setParent(newParent, subpath = null)] *)
Definition setParent (fuel : nat) (this : nid) (newParent : option nid)
  (sub : option string) : M unit :=
  do nd <- get_node this;
  if bool_decide (_parent nd = newParent) && bool_decide (Some (subpath nd) = sub)
  then ret tt
  else
    run (match newParent with
         | Some np =>
             run (match _parent nd with
                  | Some p => if bool_decide (np <> p) then throw NodeExistsTwice else ret tt
                  | None => ret tt
                  end);
             run (match _parent nd with
                  | None =>
                      do r <- root fuel np;
                      if bool_decide (r = this) then throw TreeContainsItself else ret tt
                  | Some _ => ret tt
                  end);
             match _parent nd with
             | None =>
                 do r <- root fuel this;
                 do rd <- get_node r;
                 if truthy (_environment rd) then
                   do nr <- root fuel np;
                   do nrd <- get_node nr;
                   if negb (strict_eq (_environment rd) (_environment nrd))
                   then throw EnvironmentsDiffer else ret tt
                 else ret tt
             | Some _ => ret tt
             end
         | None => ret tt
         end);
    match _parent nd, newParent with
    | Some _, None => die fuel this
    | _, _ =>
        run upd_node this (set_subpath (default "" sub));
        match newParent with
        | Some np =>
            if bool_decide (Some np <> _parent nd) then
              do r <- root fuel np;
              do rd <- get_node r;
              do me <- get_node this;
              match identifierCache rd, identifierCache me with
              | Some cache, Some mine =>
                  match IdCache.mergeCache cache mine with
                  | Ok merged =>
                      run upd_node r (set_identifierCache (Some merged));
                      run upd_node this (set_parent (Some np));
                      fireHook this "afterAttach"
                  | Throw e => throw e
                  | Stuck => stuck
                  end
              | _, _ => throw (TypeError "identifierCache")
              end
            else ret tt
        | None => ret tt
        end
    end.

(** *** Paths *)

(** The loop of [getRelativePathTo]:
    [for (; common < baseParts.length; common++)
       if (baseParts[common] !== targetParts[common]) break]. *)
Fixpoint common_parts (baseParts targetParts : list string) : nat :=
  match baseParts, targetParts with
  | b :: bs, t :: ts => if bool_decide (b = t) then S (common_parts bs ts) else 0
  | _, _ => 0
  end.

(** [getRelativePathTo(target)] *)
Definition getRelativePathTo (fuel : nat) (this target : nid) : M string :=
  do r1 <- root fuel this;
  do r2 <- root fuel target;
  if bool_decide (r1 <> r2) then throw NotSameTree
  else
    do basePath <- path fuel this;
    do targetPath <- path fuel target;
    let baseParts := splitJsonPath basePath in
    let targetParts := splitJsonPath targetPath in
    let common := common_parts baseParts targetParts in
    ret (join "/" (map (fun _ => "..") (slice_from common baseParts))
         +:+ joinJsonPath (slice_from common targetParts)).

(** The loop of [resolvePath]; [rest] is [pathParts] from index [i] on, and
    [current] is null as [None]. *)
Fixpoint resolvePath_loop (fuel : nat) (pathParts : list string) (i : nat)
  (rest : list string) (current : option nid) (failIfResolveFails : bool)
  : M (option nid) :=
  match rest with
  | [] => ret current
  | part :: rest' =>
      let check (current' : option nid) : M (option nid) :=
        match current' with
        | None =>
            if failIfResolveFails
            then throw (CouldNotResolve part
                          (joinJsonPath (slice 0 (Z.of_nat i - 1) pathParts)))
            else ret None
        | Some _ => resolvePath_loop fuel pathParts (S i) rest' current' failIfResolveFails
        end in
      if bool_decide (part = "") then
        match current with
        | Some c => do r <- root fuel c; check (Some r)
        | None => throw (TypeError "root")
        end
      else if bool_decide (part = "..") then
        match current with
        | Some c => do p <- parent c; check p
        | None => throw (TypeError "parent")
        end
      else if bool_decide (part = ".") || bool_decide (part = "") then
        resolvePath_loop fuel pathParts (S i) rest' current failIfResolveFails
      else
        match current with
        | Some c =>
            do child <- getChildNode c part;
            resolvePath_loop fuel pathParts (S i) rest' (Some child) failIfResolveFails
        | None => check None
        end
  end.

(** [resolvePath(pathParts, failIfResolveFails = true)] *)
Definition resolvePath (fuel : nat) (this : nid) (pathParts : list string)
  (failIfResolveFails : bool) : M (option nid) :=
  resolvePath_loop fuel pathParts 0 pathParts (Some this) failIfResolveFails.

(** [resolve(path, failIfResolveFails = true)] *)
Definition resolve (fuel : nat) (this : nid) (p : string)
  (failIfResolveFails : bool) : M (option nid) :=
  resolvePath fuel this (splitJsonPath p) failIfResolveFails.

(** *** Detaching *)

(** [detach()] *)
Definition detach (fuel : nat) (this : nid) : M unit :=
  do nd <- get_node this;
  run (if negb (_isAlive nd) then throw DetachNotAlive else ret tt);
  do isroot <- isRoot this;
  if isroot then ret tt
  else
    run fireHook this "beforeDetach";
    do r <- root fuel this;
    do rd <- get_node r;
    run upd_node this (set_environment (_environment rd));
    run upd_node this (set_isDetaching true);
    do r' <- root fuel this;
    do rd' <- get_node r';
    match identifierCache rd' with
    | None => throw (TypeError "identifierCache")
    | Some cache =>
        do h <- (fun s => (Ok (heap s), s));
        let '(mine, others) := IdCache.splitCache fuel h cache this in
        run upd_node r' (set_identifierCache (Some others));
        run upd_node this (set_identifierCache (Some mine));
        do me <- get_node this;
        match _parent me with
        | None => throw (TypeError "removeChild")
        | Some p =>
            run removeChild p (subpath me);
            run upd_node this (set_parent None);
            run upd_node this (set_subpath "");
            upd_node this (set_isDetaching false)
        end
    end.

(** *** Patches, snapshots and subscriptions *)

(** [Node.emitPatch(basePatch, source)]; [ImmutableNode.emitPatch] throws.
    [up] bounds the calls up the parent chain, [fuel] is what the [path]
    getters run on. *)
Fixpoint emitPatch_up (up fuel : nat) (this : nid) (basePatch : IReversibleJsonPatch)
  (source : nid) : M unit :=
  match up with
  | O => stuck
  | S up' =>
      do nd <- get_node this;
      match cls nd with
      | ImmutableNodeC => throw (NotSupported "emitPatch")
      | NodeC =>
          run (match patchSubscribers nd with
               | [] => ret tt
               | subscribers =>
                   do sourcePath <- path fuel source;
                   do thisPath <- path fuel this;
                   let localizedPatch :=
                     with_path (substr (String.length thisPath) sourcePath
                                +:+ "/" +:+ rp_path basePatch) basePatch in
                   let '(patch, reversePatch) := splitPatch localizedPatch in
                   forEach subscribers
                     (fun h => emit (PatchSubscriberCalled this h patch reversePatch))
               end);
          match _parent nd with
          | Some p => emitPatch_up up' fuel p basePatch source
          | None => ret tt
          end
      end
  end.

Definition emitPatch (fuel : nat) (this : nid) (basePatch : IReversibleJsonPatch)
  (source : nid) : M unit :=
  emitPatch_up fuel fuel this basePatch source.

(** The three handler lists of a [Node]. *)
Inductive handler_list := Middlewares | SnapshotSubscribers | PatchSubscribers.

(** Modelled from the spec: the disposer that [registerEventHandler] of
    utils.ts returns (spec 6: [onPatch(handler) -> disposer]), named by the
    list and the handler it takes out again. *)
Inductive IDisposer := Unregister (l : handler_list) (n : nid) (h : handler).

Definition handlers_of (l : handler_list) (nd : node) : list handler :=
  match l with
  | Middlewares => middlewares nd
  | SnapshotSubscribers => snapshotSubscribers nd
  | PatchSubscribers => patchSubscribers nd
  end.

Definition set_handlers (l : handler_list) (v : list handler) (nd : node) : node :=
  match l with
  | Middlewares => set_middlewares v nd
  | SnapshotSubscribers => set_snapshotSubscribers v nd
  | PatchSubscribers => set_patchSubscribers v nd
  end.

(** Modelled from the spec: [registerEventHandler] of utils.ts; the handler
    is added after the ones registered before it (spec 4.3: subscribers are
    notified in registration order). *)
Definition registerEventHandler (l : handler_list) (n : nid) (h : handler) : M IDisposer :=
  run upd_node n (fun nd => set_handlers l (handlers_of l nd ++ [h]) nd);
  ret (Unregister l n h).

Fixpoint remove_first (h : handler) (l : list handler) : list handler :=
  match l with
  | [] => []
  | x :: rest => if bool_decide (x = h) then rest else x :: remove_first h rest
  end.

Definition call_IDisposer (d : IDisposer) : M unit :=
  let '(Unregister l n h) := d in
  upd_node n (fun nd => set_handlers l (remove_first h (handlers_of l nd)) nd).

Definition unsupported {A} (n : nid) (operation : string) (k : M A) : M A :=
  do nd <- get_node n;
  match cls nd with
  | ImmutableNodeC => throw (NotSupported operation)
  | NodeC => k
  end.

(** [onSnapshot(onChange)] *)
Definition onSnapshot (n : nid) (onChange : handler) : M IDisposer :=
  unsupported n "onSnapshot" (registerEventHandler SnapshotSubscribers n onChange).

(** [onPatch(handler)] *)
Definition onPatch (n : nid) (h : handler) : M IDisposer :=
  unsupported n "onPatch" (registerEventHandler PatchSubscribers n h).

(** [addMiddleWare(handler)] *)
Definition addMiddleWare (n : nid) (h : handler) : M IDisposer :=
  unsupported n "addMiddleWare" (registerEventHandler Middlewares n h).

(** [addDisposer(disposer)]: [this.disposers.unshift(disposer)] *)
Definition addDisposer (n : nid) (disposer : handler) : M unit :=
  unsupported n "addDisposer" (upd_node n (fun nd => set_disposers (disposer :: disposers nd) nd)).

(** [Node.emitSnapshot(snapshot)]; an [ImmutableNode] has no such method. *)
Definition emitSnapshot (n : nid) (snap : jsval) : M unit :=
  do nd <- get_node n;
  match cls nd with
  | ImmutableNodeC => throw (TypeError "emitSnapshot")
  | NodeC =>
      forEach (snapshotSubscribers nd) (fun f => emit (SnapshotSubscriberCalled n f snap))
  end.

(** [applyPatchLocally(subpath, patch)]; the subpath is undefined as [None]. *)
Definition applyPatchLocally (fuel : nat) (n : nid) (sub : option string)
  (patch : IJsonPatch) : M unit :=
  unsupported n "applyPatchLocally"
    (run assertWritable fuel n;
     do running <- isRunningAction fuel n;
     emit (TypeApplyPatchLocally n sub patch running)).

(** Modelled from the spec: [createActionInvoker] of core/action.ts.  Spec 6:
    the wrapped function executes as a single action and is recognised by
    [isRunningAction]: the flag of the node is raised while the function runs
    and put back afterwards. *)
Definition createActionInvoker {A} (n : nid) (fn : M A) : M A :=
  do nd <- get_node n;
  run upd_node n (set_isRunningAction true);
  try_finally fn (upd_node n (set_isRunningAction (_isRunningAction nd))).

(** [applyPatches(patches)], as [preboot] defines it. *)
Definition applyPatches (fuel : nat) (n : nid) (patches : list IJsonPatch) : M unit :=
  unsupported n "applyPatches"
    (createActionInvoker n
       (forEach patches (fun patch =>
          let parts := splitJsonPath (p_path patch) in
          do target <- resolvePath fuel n (slice 0 (-1) parts) true;
          match target with
          | Some m => applyPatchLocally fuel m (last parts) patch
          | None => throw (TypeError "applyPatchLocally")
          end))).

(** [applySnapshot(snapshot)], as [preboot] defines it. *)
Definition applySnapshot (fuel : nat) (n : nid) (snap : jsval) : M unit :=
  unsupported n "applySnapshot"
    (createActionInvoker n
       (do current <- snapshot n;
        if strict_eq snap current then ret tt
        else
          do running <- isRunningAction fuel n;
          emit (TypeApplySnapshot n snap running))).

(** *** Creation *)

(** What the type and the two injected strategies of [createNode] settle for
    a fresh node: whether the stored value that [createNewInstance] returns
    can carry a node ([canAttachNode]), the back-reference it carries already
    when it cannot, what the type descriptor will read off it, and whether
    [finalizeNewInstance] returns or throws. *)
Record instance := MkInstance {
  i_typeName : string;
  i_canAttach : bool;
  i_treenode : option nid;
  i_hooks : list string;
  i_identifier : option string;
  i_children : list (string * nid);
  i_value : jsval;
  i_snapshot : jsval;
  i_finalize : option error
}.

(** The initial value handed to [createNode]: a value that is tree-attached
    already, with the node its back-reference names, or any other value. *)
Inductive initialValue :=
| AttachedValue (targetNode : nid)
| FreshValue (i : instance).

(** The disposer of the snapshot reaction that the [Node] constructor
    registers. *)
Definition snapshotDisposer : handler := 0.

(** [try { c } finally { if (sawException) cleanup }] *)
Definition on_exception {A} (c : M A) (cleanup : M unit) : M A :=
  fun s =>
    match c s with
    | (Throw e, s') =>
        match cleanup s' with
        | (Ok _, s'') => (Throw e, s'')
        | (Throw e', s'') => (Throw e', s'')
        | (Stuck, s'') => (Stuck, s'')
        end
    | r => r
    end.

(** [new]: a fresh node object, whose fields may mention its own identity. *)
Definition alloc (fields : nid -> node) : M nid :=
  fun s =>
    let this := fresh (dom (heap s)) in
    (Ok this, MkState (<[this := fields this]> (heap s)) (trace s)).

(** The fields as the constructor initialises them before its [try] block. *)
Definition new_node (parent : option nid) (sub : string) (environment : jsval)
  (i : instance) (this : nid) : node :=
  MkNode (if i_canAttach i then NodeC else ImmutableNodeC) (i_typeName i)
    parent sub false
    (match parent with None => Some [] | Some _ => None end)
    true (i_identifier i) environment true false [] [] [] []
    (if i_canAttach i then Some this else i_treenode i)
    (i_hooks i) (i_children i) (i_value i) (i_snapshot i) None None.

(** [new Node(...)] and [new ImmutableNode(...)] *)
Definition construct (fuel : nat) (parent : option nid) (sub : string)
  (environment : jsval) (i : instance) : M nid :=
  do this <- alloc (new_node parent sub environment i);
  run on_exception
        (run upd_node this (set_isRunningAction true);
         run (match i_finalize i with Some e => throw e | None => ret tt end);
         run upd_node this (set_isRunningAction false);
         do owner <- (match parent with
                      | Some p => root fuel p
                      | None => ret this
                      end);
         do od <- get_node owner;
         do me <- get_node this;
         run (match identifierCache od with
              | None => throw (TypeError "identifierCache")
              | Some cache =>
                  match IdCache.addNodeToCache cache this me with
                  | Ok cache' => upd_node owner (set_identifierCache (Some cache'))
                  | Throw e => throw e
                  | Stuck => stuck
                  end
              end);
         run fireHook this "afterCreate";
         match parent with
         | Some _ => fireHook this "afterAttach"
         | None => ret tt
         end)
        (upd_node this (set_isAlive false));
  run (if i_canAttach i then addDisposer this snapshotDisposer else ret tt);
  ret this.

(** [createNode(type, parent, subpath, environment, initialValue, ...)] *)
Definition createNode (fuel : nat) (parent : option nid) (sub : string)
  (environment : jsval) (init : initialValue) : M nid :=
  match init with
  | AttachedValue targetNode =>
      do isroot <- isRoot targetNode;
      run (if negb isroot then throw AlreadyPartOfTree else ret tt);
      run setParent fuel targetNode parent (Some sub);
      ret targetNode
  | FreshValue i => construct fuel parent sub environment i
  end.

(** *** The interface as a whole *)

(** One call into the node core. *)
Inductive call :=
| CSetParent (this : nid) (newParent : option nid) (sub : option string)
| CGetRelativePathTo (this target : nid)
| CResolve (this : nid) (p : string) (failIfResolveFails : bool)
| CResolvePath (this : nid) (pathParts : list string) (failIfResolveFails : bool)
| CValue (this : nid)
| CSnapshot (this : nid)
| CAssertAlive (this : nid)
| CAssertWritable (this : nid)
| CGetChildNode (this : nid) (sub : string)
| CGetChildren (this : nid)
| CRemoveChild (this : nid) (sub : string)
| CDetach (this : nid)
| CDie (this : nid)
| CAboutToDie (this : nid)
| CFinalizeDeath (this : nid)
| CEmitPatch (this : nid) (basePatch : IReversibleJsonPatch) (source : nid)
| CEmitSnapshot (this : nid) (snap : jsval)
| CAddMiddleWare (this : nid) (h : handler)
| COnPatch (this : nid) (h : handler)
| COnSnapshot (this : nid) (h : handler)
| CAddDisposer (this : nid) (h : handler)
| CDispose (d : IDisposer)
| CApplyPatchLocally (this : nid) (sub : option string) (patch : IJsonPatch)
| CApplyPatches (this : nid) (patches : list IJsonPatch)
| CApplySnapshot (this : nid) (snap : jsval)
| CCreateNode (parent : option nid) (sub : string) (environment : jsval)
    (init : initialValue).

Definition discard {A} (c : M A) : M unit := do _ <- c; ret tt.

Definition exec (fuel : nat) (c : call) : M unit :=
  match c with
  | CSetParent this newParent sub => setParent fuel this newParent sub
  | CGetRelativePathTo this target => discard (getRelativePathTo fuel this target)
  | CResolve this p f => discard (resolve fuel this p f)
  | CResolvePath this parts f => discard (resolvePath fuel this parts f)
  | CValue this => discard (value this)
  | CSnapshot this => discard (snapshot this)
  | CAssertAlive this => assertAlive this
  | CAssertWritable this => assertWritable fuel this
  | CGetChildNode this sub => discard (getChildNode this sub)
  | CGetChildren this => discard (getChildren this)
  | CRemoveChild this sub => removeChild this sub
  | CDetach this => detach fuel this
  | CDie this => die fuel this
  | CAboutToDie this => aboutToDie this
  | CFinalizeDeath this => finalizeDeath fuel this
  | CEmitPatch this basePatch source => emitPatch fuel this basePatch source
  | CEmitSnapshot this snap => emitSnapshot this snap
  | CAddMiddleWare this h => discard (addMiddleWare this h)
  | COnPatch this h => discard (onPatch this h)
  | COnSnapshot this h => discard (onSnapshot this h)
  | CAddDisposer this h => addDisposer this h
  | CDispose d => call_IDisposer d
  | CApplyPatchLocally this sub patch => applyPatchLocally fuel this sub patch
  | CApplyPatches this patches => applyPatches fuel this patches
  | CApplySnapshot this snap => applySnapshot fuel this snap
  | CCreateNode parent sub environment init =>
      discard (createNode fuel parent sub environment init)
  end.

(** ** Well-formed positions *)

(** [ancestors h n l]: the parent references lead from [n] through the nodes
    [l], nearest first, up to a node without a parent. *)
Inductive ancestors (h : gmap nid node) : nid -> list nid -> Prop :=
| ancestors_root n nd :
    h !! n = Some nd -> _parent nd = None -> ancestors h n []
| ancestors_step n nd p l :
    h !! n = Some nd -> _parent nd = Some p -> ancestors h p l ->
    ancestors h n (p :: l).

(** The [_isRunningAction] flag and the [isProtectionEnabled] flag of a node
    of the heap. *)
Definition running_flag (h : gmap nid node) (n : nid) : bool :=
  match h !! n with
  | Some nd => _isRunningAction nd
  | None => false
  end.

Definition protection_flag (h : gmap nid node) (n : nid) : bool :=
  match h !! n with
  | Some nd => isProtectionEnabled nd
  | None => false
  end.

(** The node the chain ends in: the last of the ancestors, or the node
    itself when it has none. *)
Definition top_of (n : nid) (l : list nid) : nid := List.last l n.

(** A node object that is no longer alive. *)
Definition dead (x : nid) (s : state) : Prop :=
  exists nd, heap s !! x = Some nd /\ _isAlive nd = false.

(** A computation that leaves a dead node dead, whatever it ends in. *)
Definition keeps_dead (x : nid) {A} (c : M A) : Prop :=
  forall s, dead x s -> dead x (snd (c s)).

(** The state after a sequence of calls, each one run to its end. *)
Fixpoint exec_all (fuel : nat) (cs : list call) (s : state) : state :=
  match cs with
  | [] => s
  | c :: rest => exec_all fuel rest (snd (exec fuel c s))
  end.

(** Reading one field of a node of the heap. *)
Definition subpath_of (h : gmap nid node) (n : nid) : string :=
  match h !! n with
  | Some nd => subpath nd
  | None => ""
  end.

Definition subscribers_of (h : gmap nid node) (n : nid) : list handler :=
  match h !! n with
  | Some nd => patchSubscribers nd
  | None => []
  end.

Definition class_of (h : gmap nid node) (n : nid) : option node_class :=
  match h !! n with
  | Some nd => Some (cls nd)
  | None => None
  end.

(** The subpaths from the root down to [n], whose ancestors are [l]. *)
Fixpoint segments (h : gmap nid node) (n : nid) (l : list nid) : list string :=
  match l with
  | [] => []
  | p :: l' => segments h p l' ++ [subpath_of h n]
  end.

(** The forward and the reverse patch for a subscriber that sits [rel]
    above the node the patch comes from. *)
Definition relative_patches (rel : list string) (basePatch : IReversibleJsonPatch)
  : IJsonPatch * IJsonPatch :=
  splitPatch (with_path (joinJsonPath rel +:+ "/" +:+ rp_path basePatch) basePatch).

(** The subscriber calls along [chain], a node and its ancestors, nearest
    first; [belowNodes] are the nodes from the source of the patch up to, and
    not including, the head of [chain]. *)
Fixpoint notifications (h : gmap nid node) (basePatch : IReversibleJsonPatch)
  (belowNodes chain : list nid) : list event :=
  match chain with
  | [] => []
  | x :: rest =>
      map (fun hd =>
             PatchSubscriberCalled x hd
               (fst (relative_patches (rev (map (subpath_of h) belowNodes)) basePatch))
               (snd (relative_patches (rev (map (subpath_of h) belowNodes)) basePatch)))
          (subscribers_of h x)
      ++ notifications h basePatch (belowNodes ++ [x]) rest
  end.

(** The parent reference of a node of the heap. *)
Definition parent_of (h : gmap nid node) (n : nid) : option (option nid) :=
  match h !! n with
  | Some nd => Some (_parent nd)
  | None => None
  end.

(** The [beforeDetach] call that [detach] makes when the stored value
    defines the hook. *)
Definition hook_call (n : nid) (name : string) (nd : node) : list event :=
  if bool_decide (name ∈ hooks nd) then [HookCalled n name] else [].

(** [route h top segs nodes]: from [top] the subpaths [segs] lead down
    through the nodes [nodes], one per subpath: each of them is registered
    under its subpath in the child table of the node above it and refers
    back to that node as its parent. *)
Inductive route (h : gmap nid node) : nid -> list string -> list nid -> Prop :=
| route_here top : route h top [] []
| route_step top td c cd segs nodes :
    h !! top = Some td ->
    lookup_child (subpath cd) (children td) = Some c ->
    h !! c = Some cd ->
    _parent cd = Some top ->
    route h c segs nodes ->
    route h top (subpath cd :: segs) (c :: nodes).

(** The node a route ends in. *)
Definition end_of (top : nid) (nodes : list nid) : nid := List.last nodes top.

(** The ancestors of the end of a route, given those of its start. *)
Fixpoint up_chain (top : nid) (nodes : list nid) (ltop : list nid) : list nid :=
  match nodes with
  | [] => ltop
  | c :: rest => up_chain c rest (top :: ltop)
  end.

Definition alive_in (h : gmap nid node) (n : nid) : Prop :=
  exists nd, h !! n = Some nd /\ _isAlive nd = true.

(** A subpath that [resolvePath] does not read as the name of a child. *)
Definition navigation_segment (seg : string) : Prop :=
  seg = "" \/ seg = "." \/ seg = "..".

(** No "/" in the string. *)
Fixpoint no_slash (s : string) : bool :=
  match s with
  | EmptyString => true
  | String c rest => negb (Ascii.eqb c "/") && no_slash rest
  end.

(** *** The shape of a dying subtree *)

(** A node with the subtrees of its tree-attached children, in the order of
    the child table. *)
#[local] Set Warnings "-register-all".
Inductive tree := TNode (n : nid) (kids : list tree).

Definition tid (t : tree) : nid :=
  match t with TNode n _ => n end.

(** The nodes of a tree, the children before their parent. *)
Fixpoint postorder (t : tree) : list nid :=
  match t with
  | TNode n kids => flat_map postorder kids ++ [n]
  end.

Fixpoint depth (t : tree) : nat :=
  match t with
  | TNode n kids => S (list_max (map depth kids))
  end.

(** [isStateTreeNode(child.storedValue)] as a property of the heap. *)
Definition attached (h : gmap nid node) (c : nid) : bool :=
  match h !! c with
  | Some cd => bool_decide (treenode cd <> None)
  | None => false
  end.

(** [subtree h up t]: in the heap [h] the tree [t] is made of live mutable
    nodes, each the owner of its stored value; the parent reference of a
    node is the head of [up], the nodes above it; the children of a node
    exist, and the tree-attached ones among them are the roots of the
    subtrees [kids], in order. *)
Inductive subtree (h : gmap nid node) : list nid -> tree -> Prop :=
| subtree_node up n nd kids :
    h !! n = Some nd ->
    cls nd = NodeC ->
    _isAlive nd = true ->
    treenode nd = Some n ->
    _parent nd = head up ->
    Forall (fun c => exists cd, h !! c = Some cd) (type_getChildren nd) ->
    filter (fun c => attached h c = true) (type_getChildren nd) = map tid kids ->
    Forall (subtree h (n :: up)) kids ->
    subtree h up (TNode n kids).

Definition disposers_of (h : gmap nid node) (n : nid) : list handler :=
  match h !! n with
  | Some nd => disposers nd
  | None => []
  end.

Definition hooks_of (h : gmap nid node) (n : nid) : list string :=
  match h !! n with
  | Some nd => hooks nd
  | None => []
  end.

(** What [aboutToDie] calls on the node [x] of the heap [h]: its disposers
    in the order of the list, then the [beforeDestroy] hook when the stored
    value defines it. *)
Definition dying_calls (h : gmap nid node) (x : nid) : list event :=
  map (DisposerCalled x) (disposers_of h x)
  ++ (if bool_decide ("beforeDestroy" ∈ hooks_of h x)
      then [HookCalled x "beforeDestroy"] else []).

(** What [walk] reads of a node: the back-reference of its stored value,
    whether it is alive, and its child table. *)
Definition skel_of (h : gmap nid node) (y : nid)
  : option (option nid * bool * list (string * nid)) :=
  match h !! y with
  | Some nd => Some (treenode nd, _isAlive nd, children nd)
  | None => None
  end.

(** A computation that leaves what [walk] reads alone, except at [x]. *)
Definition frame_except (x : nid) {A} (c : M A) : Prop :=
  forall s y, y <> x -> skel_of (heap (snd (c s))) y = skel_of (heap s) y.

(** The processors that [die] hands to [walk]. *)
Definition aboutToDie_processor (child : nid) : M unit :=
  do c <- getStateTreeNode child; aboutToDie c.

Definition finalizeDeath_processor (fuel : nat) (child : nid) : M unit :=
  do c <- getStateTreeNode child; finalizeDeath fuel c.

(** The node owns its stored value: the back-reference names the node. *)
Definition owns (h : gmap nid node) (x : nid) : Prop :=
  exists nd, h !! x = Some nd /\ treenode nd = Some x.

(** A processor that, run on a node that owns its stored value, leaves what
    [walk] reads of the other nodes alone. *)
Definition local_processor (proc : nid -> M unit) : Prop :=
  forall x s y, owns (heap s) x -> y <> x ->
    skel_of (heap (snd (proc x s))) y = skel_of (heap s) y.

(** A node as [finalizeDeath] leaves it: not alive, without parent and
    subpath, without subscribers. *)
Definition finalized_node (nd : node) : Prop :=
  _isAlive nd = false /\ _parent nd = None /\ subpath nd = "" /\
  patchSubscribers nd = [] /\ snapshotSubscribers nd = [].

(** [finalized h0 R D h]: the heap [h] is the heap [h0] after [finalizeDeath]
    has run on the nodes [D] of a tree whose root is [R]: those nodes are
    finalized, the root, as long as it is not among them, differs in its
    identifier cache only, and the other nodes are as they were. *)
Definition finalized (h0 : gmap nid node) (R : nid) (D : list nid)
  (h : gmap nid node) : Prop :=
  (forall y, y ∉ D -> y <> R -> h !! y = h0 !! y) /\
  (R ∉ D ->
   exists rd c, h0 !! R = Some rd /\ h !! R = Some (set_identifierCache (Some c) rd)) /\
  (forall y, y ∈ D -> exists nd', h !! y = Some nd' /\ finalized_node nd').

(** The heap [h1] is the heap [h] with the disposer lists of some nodes
    emptied. *)
Definition disposers_cleared (h h1 : gmap nid node) : Prop :=
  forall y, h1 !! y = h !! y \/
            exists nd, h !! y = Some nd /\ h1 !! y = Some (set_disposers [] nd).

(** ** Notions for the further properties *)

(** *** Queries *)

(** A computation that changes neither the heap nor the trace. *)
Definition read_only {A} (c : M A) : Prop := forall s, snd (c s) = s.

(** One segment of [resolvePath] seen from the node [c]: the node the
    segment leads to, null as [None]. *)
Definition resolve_segment (fuel : nat) (part : string) (c : nid) : M (option nid) :=
  if bool_decide (part = "") then do r <- root fuel c; ret (Some r)
  else if bool_decide (part = "..") then parent c
  else if bool_decide (part = ".") then ret (Some c)
  else do child <- getChildNode c part; ret (Some child).

(** What [resolvePath] without [failIfResolveFails] makes of the outcome of
    [resolvePath] with it: undefined in place of the resolution error. *)
Definition lenient (r : outcome (option nid) * state) : outcome (option nid) * state :=
  match r with
  | (Throw (CouldNotResolve _ _), s') => (Ok None, s')
  | _ => r
  end.

(** *** Creation *)

(** What [afterCreate] and [afterAttach] amount to for a fresh node. *)
Definition creation_hooks (this : nid) (attached : bool) (i : instance) : list event :=
  (if bool_decide ("afterCreate" ∈ i_hooks i) then [HookCalled this "afterCreate"] else [])
  ++ (if attached && bool_decide ("afterAttach" ∈ i_hooks i)
      then [HookCalled this "afterAttach"] else []).

(** What a fresh node registers in the identifier cache of its tree. *)
Definition registration (this : nid) (i : instance) : IdentifierCache :=
  match i_identifier i with
  | Some id => [((i_typeName i, id), this)]
  | None => []
  end.

(** The node object that [createNode] leaves for a fresh value: the fields of
    the constructor, the identifier cache of a root, and for a [Node] the
    disposer of the snapshot reaction. *)
Definition created_node (parent : option nid) (sub : string) (environment : jsval)
  (i : instance) (this : nid) : node :=
  let nd := new_node parent sub environment i this in
  let nd := match parent with
            | None => set_identifierCache (Some (registration this i)) nd
            | Some _ => nd
            end in
  if i_canAttach i then set_disposers [snapshotDisposer] nd else nd.

(** *** The writes of the node core *)

(** [assigns nd nd']: one assignment that node.ts makes to a field of an
    existing node object, with what holds of the object when it is made.
    The parent reference is cleared in two places: in [finalizeDeath], after
    the node has been marked as not alive, and in [detach], after the node
    has been given an identifier cache of its own. *)
Inductive assigns : node -> node -> Prop :=
| assigns_subpath v nd : assigns nd (set_subpath v nd)
| assigns_isRunningAction v nd : assigns nd (set_isRunningAction v nd)
| assigns_identifierCache c nd : assigns nd (set_identifierCache (Some c) nd)
| assigns_environment v nd : assigns nd (set_environment v nd)
| assigns_not_alive nd : assigns nd (set_isAlive false nd)
| assigns_isDetaching v nd : assigns nd (set_isDetaching v nd)
| assigns_handlers l v nd : assigns nd (set_handlers l v nd)
| assigns_disposers v nd : assigns nd (set_disposers v nd)
| assigns_children v nd : assigns nd (set_children v nd)
| assigns_frozenSnapshot nd :
    assigns nd (set_frozenSnapshot (Some (snapshot_of nd)) nd)
| assigns_poisoned v nd : assigns nd (set_poisoned (Some v) nd)
| assigns_no_parent nd :
    _isAlive nd = false \/ identifierCache nd <> None ->
    assigns nd (set_parent None nd).

(** [heap_step strict h h']: one write of the node core to the heap: an
    assignment to an existing node object; the assignment of a parent, which
    [setParent] makes to a node without parent when the new parent lies in
    another tree; or a new node object, which has an identifier cache if it
    has no parent.  With [strict] the parent of a new node object is a node
    object of the heap. *)
Inductive heap_step (strict : bool) (h : gmap nid node) : gmap nid node -> Prop :=
| step_assigns x nd nd' :
    h !! x = Some nd -> assigns nd nd' -> heap_step strict h (<[x := nd']> h)
| step_attaches x nd p l :
    h !! x = Some nd -> _parent nd = None ->
    ancestors h p l -> x ∉ p :: l ->
    heap_step strict h (<[x := set_parent (Some p) nd]> h)
| step_new x nd :
    h !! x = None ->
    (_parent nd = None -> identifierCache nd <> None) ->
    (strict = true -> forall p, _parent nd = Some p -> is_Some (h !! p)) ->
    heap_step strict h (<[x := nd]> h).

(** The calls whose node arguments are node objects of the heap, as far as
    it matters: the parent handed to [createNode] for a fresh value. *)
Definition well_addressed (h : gmap nid node) (c : call) : Prop :=
  match c with
  | CCreateNode (Some p) _ _ (FreshValue _) => is_Some (h !! p)
  | _ => True
  end.

(** The computation [c], run in the state [s], changes the heap by writes
    of the node core only. *)
Definition writes (strict : bool) (s : state) {A} (c : M A) : Prop :=
  rtc (heap_step strict) (heap s) (heap (snd (c s))).

(** Every node object has a parent chain that ends in a root. *)
Definition forest (h : gmap nid node) : Prop :=
  forall n nd, h !! n = Some nd -> exists l, ancestors h n l.

(** Every live root has an identifier cache. *)
Definition live_roots_cached (h : gmap nid node) : Prop :=
  forall n nd, h !! n = Some nd ->
    _isAlive nd = true -> _parent nd = None -> is_Some (identifierCache nd).

(** The calls of a sequence are well addressed, each in the state it is
    made in. *)
Fixpoint well_addressed_all (fuel : nat) (cs : list call) (s : state) : Prop :=
  match cs with
  | [] => True
  | c :: rest =>
      well_addressed (heap s) c /\ well_addressed_all fuel rest (snd (exec fuel c s))
  end.

(** What no write of the node core changes in a node object: its class, its
    type, its identifier, its protection flag; that it is not alive, once it
    is not; and its frozen snapshot, once it has one. *)
Definition evolves (nd nd' : node) : Prop :=
  cls nd' = cls nd /\ typeName nd' = typeName nd /\
  identifier nd' = identifier nd /\
  isProtectionEnabled nd' = isProtectionEnabled nd /\
  (_isAlive nd = false -> _isAlive nd' = false) /\
  (forall v, frozenSnapshot nd = Some v -> frozenSnapshot nd' = Some v).

(** *** Patches *)

(** [lands h n patch m key]: the path of the patch, read from the node [n],
    names the property [key] of the node [m]: either the path is empty, and
    names [n] itself and no property, or its segments but the last lead from
    [n] down to [m], through live nodes and without "", "." or "..". *)
Inductive lands (h : gmap nid node) (n : nid) (patch : IJsonPatch)
  : nid -> option string -> Prop :=
| lands_here : p_path patch = "" -> lands h n patch n None
| lands_below segs nodes key :
    p_path patch = joinJsonPath (segs ++ [key]) ->
    route h n segs nodes ->
    Forall (fun seg => ~ navigation_segment seg) segs ->
    Forall (alive_in h) (removelast (n :: nodes)) ->
    lands h n patch (end_of n nodes) (Some key).

(** *** Detaching *)

(** The heap after [detach] on the node [n], whose parent is [p] and whose
    root [rd], at [r], has the identifier cache [cache]: the assignments of
    [detach], in their order. *)
Definition detached_heap (fuel : nat) (h : gmap nid node) (n p r : nid)
  (nd rd : node) (cache : IdentifierCache) : gmap nid node :=
  let mine := fst (IdCache.splitCache fuel h cache n) in
  let others := snd (IdCache.splitCache fuel h cache n) in
  alter (set_isDetaching false) n
    (alter (set_subpath "") n
       (alter (set_parent None) n
          (alter (fun pd : node =>
                    set_children (filter (fun e : string * nid => e.1 <> subpath nd)
                                    (children pd)) pd) p
             (alter (set_identifierCache (Some mine)) n
                (alter (set_identifierCache (Some others)) r
                   (alter (set_isDetaching true) n
                      (alter (set_environment (_environment rd)) n h))))))).

(** The node object that [detach] leaves of the node object [nd]. *)
Definition detached_node (fuel : nat) (h : gmap nid node) (n : nid)
  (nd rd : node) (cache : IdentifierCache) : node :=
  set_isDetaching false
    (set_subpath ""
       (set_parent None
          (set_identifierCache (Some (fst (IdCache.splitCache fuel h cache n)))
             (set_isDetaching true (set_environment (_environment rd) nd))))).

(** ** More of the node core *)

(** [get identifier]: [storedValue[identifierAttribute]] when the type
    declares an identifier attribute, null otherwise.
    Modelled from the spec: the read of a property of a stored value that
    [finalizeDeath] has poisoned.  Spec 4.2: any further reactive access
    raises the error of the [$mobx] getter, which names the type and the path
    the object used to live at. *)
Definition get_identifier (n : nid) : M (option string) :=
  do nd <- get_node n;
  match identifier nd with
  | None => ret None
  | Some i =>
      match poisoned nd with
      | Some (ofType, usedToLiveAt) => throw (ObjectDied ofType usedToLiveAt)
      | None => ret (Some i)
      end
  end.

(** [toString()]; the identifier is read first. *)
Definition toString (fuel : nat) (n : nid) : M string :=
  do id <- get_identifier n;
  do nd <- get_node n;
  do p <- path fuel n;
  ret (typeName nd +:+ "@" +:+ (if bool_decide (p = "") then "<root>" else p)
       +:+ match id with
           | Some i => if bool_decide (i = "") then "" else "(id: " +:+ i +:+ ")"
           | None => ""
           end
       +:+ (if _isAlive nd then "" else "[dead]")).

(** ** The unboxing switch *)

(** [_autoUnbox] is a field of the node object that [getChildNode] and
    [getChildren] switch off around the call of the type descriptor and that
    [unbox] reads.  It is kept beside the heap: the set of the nodes whose
    switch is off; a new node object has it on. *)
Module AutoUnbox.

Record ustate := MkU {
  base : state;
  switched_off : gset nid
}.

Definition U (A : Type) : Type := ustate -> outcome A * ustate.

Definition uret {A} (a : A) : U A := fun u => (Ok a, u).

Definition ubind {A B} (c : U A) (k : A -> U B) : U B :=
  fun u =>
    match c u with
    | (Ok a, u') => k a u'
    | (Throw e, u') => (Throw e, u')
    | (Stuck, u') => (Stuck, u')
    end.

(** A computation of the node core, which leaves the switches alone. *)
Definition lift {A} (c : M A) : U A :=
  fun u => (fst (c (base u)), MkU (snd (c (base u))) (switched_off u)).

Definition _autoUnbox (n : nid) (u : ustate) : bool :=
  bool_decide (n ∉ switched_off u).

(** [this._autoUnbox = v] *)
Definition set_autoUnbox (n : nid) (v : bool) : U unit :=
  fun u =>
    (Ok tt,
     MkU (base u) (if v then switched_off u ∖ {[n]} else switched_off u ∪ {[n]})).

(** [getChildNode(subpath)], with the switch. *)
Definition getChildNode (n : nid) (sub : string) : U nid :=
  ubind (lift (assertAlive n)) (fun _ =>
  ubind (set_autoUnbox n false) (fun _ =>
  ubind (lift (do nd <- get_node n; type_getChildNode nd sub)) (fun res =>
  ubind (set_autoUnbox n true) (fun _ =>
  uret res)))).

(** [getChildren()], with the switch. *)
Definition getChildren (n : nid) : U (list nid) :=
  ubind (lift (assertAlive n)) (fun _ =>
  ubind (set_autoUnbox n false) (fun _ =>
  ubind (lift (do nd <- get_node n; ret (type_getChildren nd))) (fun res =>
  ubind (set_autoUnbox n true) (fun _ =>
  uret res)))).

(** What [unbox] hands out: the value of the child, or the child as it was
    passed, a node or null. *)
Inductive unboxed :=
| Value (v : jsval)
| Node (childNode : option nid).

(** [unbox(childNode)] *)
Definition unbox (n : nid) (childNode : option nid) : U unboxed :=
  match childNode with
  | Some c =>
      fun u =>
        if _autoUnbox n u then lift (do v <- value c; ret (Value v)) u
        else (Ok (Node (Some c)), u)
  | None => uret (Node None)
  end.

End AutoUnbox.

(** ** Sample trees *)

(** A live node of the given class, position and children, everything else
    as the constructors leave it. *)
Definition sample_node (c : node_class) (name : string) (this : nid)
  (parent : option nid) (sub : string) (kids : list (string * nid)) : node :=
  MkNode c name parent sub false
    (match parent with None => Some [] | Some _ => None end)
    true None VUndefined true false [] [] []
    (match c with NodeC => [snapshotDisposer] | ImmutableNodeC => [] end)
    (match c with NodeC => Some this | ImmutableNodeC => None end)
    (match c with
     | NodeC => ["afterAttach"; "beforeDetach"; "beforeDestroy"]
     | ImmutableNodeC => []
     end)
    kids (VObj this name) (VObj (this + 100) name) None None.

(** The tree [{a: {b: 1}}] of the spec's scenarios: the root 1, the model
    node 2 at /a and the leaf 3 at /a/b holding 1. *)
Definition abTree : state :=
  MkState
    (<[1%positive := sample_node NodeC "Store" 1%positive None "" [("a", 2%positive)]]>
     (<[2%positive := sample_node NodeC "A" 2%positive (Some 1%positive) "a" [("b", 3%positive)]]>
      (<[3%positive :=
           MkNode ImmutableNodeC "number" (Some 2%positive) "b" false None true None
             VUndefined true false [] [] [] [] None [] [] (VNum 1) (VNum 1) None None]>
       ∅)))
    [].

(** A single mutable root whose current snapshot is the object 10. *)
Definition snapTree : state :=
  MkState
    (<[1%positive :=
         MkNode NodeC "Store" None "" false (Some []) true None VUndefined true false
           [] [] [4] [snapshotDisposer] (Some 1%positive) [] []
           (VObj 9 "{x:1}") (VObj 10 "{x:1}") None None]> ∅)
    [].

(** The tree [{a: {b: {}}}] with mutable nodes 1, 2 at /a and 3 at /a/b, a
    patch subscriber 7 at the root and the subscribers 8 and 9 at /a. *)
Definition watchedTree : state :=
  MkState
    (<[1%positive :=
         set_patchSubscribers [7]
           (sample_node NodeC "Store" 1%positive None "" [("a", 2%positive)])]>
     (<[2%positive :=
          set_patchSubscribers [8; 9]
            (sample_node NodeC "A" 2%positive (Some 1%positive) "a" [("b", 3%positive)])]>
      (<[3%positive := sample_node NodeC "B" 3%positive (Some 2%positive) "b" []]> ∅)))
    [].

(** A root 1 with a map 2 at /m that holds the node 3 under the key "..". *)
Definition dotsTree : state :=
  MkState
    (<[1%positive := sample_node NodeC "Store" 1%positive None "" [("m", 2%positive)]]>
     (<[2%positive :=
          sample_node NodeC "Map" 2%positive (Some 1%positive) "m" [("..", 3%positive)]]>
      (<[3%positive := sample_node NodeC "Item" 3%positive (Some 2%positive) ".." []]> ∅)))
    [].

(** A root 1 with the model 2 at /a, which holds the leaf 4 at /a/n and the
    model 3 at /a/b; the user disposers 10 at /a and 11, then 12, at /a/b
    were registered after the snapshot disposers. *)
Definition dyingTree : state :=
  MkState
    (<[1%positive := sample_node NodeC "Store" 1%positive None "" [("a", 2%positive)]]>
     (<[2%positive :=
          set_disposers [10; snapshotDisposer]
            (sample_node NodeC "A" 2%positive (Some 1%positive) "a"
               [("n", 4%positive); ("b", 3%positive)])]>
      (<[3%positive :=
           set_disposers [12; 11; snapshotDisposer]
             (sample_node NodeC "B" 3%positive (Some 2%positive) "b" [])]>
       (<[4%positive :=
            MkNode ImmutableNodeC "number" (Some 2%positive) "n" false None true None
              VUndefined true false [] [] [] [] None [] [] (VNum 1) (VNum 1) None None]>
        ∅))))
    [].

(** The tree [{a: {b: 1}}] after [die] on the node at /a. *)
Definition abTree_after_death : state := snd (die 5 2%positive abTree).

(** An immutable leaf holding a number. *)
Definition sample_leaf (parent : nid) (sub : string) (v : Z) : node :=
  MkNode ImmutableNodeC "number" (Some parent) sub false None true None
    VUndefined true false [] [] [] [] None [] [] (VNum v) (VNum v) None None.

(** The tree [{a: {b: 1, n: 2}}]: the root 1, the model node 2 at /a and the
    leaves 3 at /a/b and 4 at /a/n. *)
Definition leavesTree : state :=
  MkState
    (<[1%positive := sample_node NodeC "Store" 1%positive None "" [("a", 2%positive)]]>
     (<[2%positive :=
          sample_node NodeC "A" 2%positive (Some 1%positive) "a"
            [("b", 3%positive); ("n", 4%positive)]]>
      (<[3%positive := sample_leaf 2%positive "b" 1]>
       (<[4%positive := sample_leaf 2%positive "n" 2]> ∅))))
    [].

(** The tree [{a: {b: 1}}] next to a tree of two mutable nodes: the root 5
    and the node 6 at /k. *)
Definition graftTrees : state :=
  MkState
    (<[5%positive := sample_node NodeC "Item" 5%positive None "" [("k", 6%positive)]]>
     (<[6%positive := sample_node NodeC "Part" 6%positive (Some 5%positive) "k" []]>
      (heap abTree)))
    [].

(** The tree [{a: {b: 1}}] next to a mutable node 5 that is a tree of its
    own, and next to a mutable node 6 that is a tree of its own created with
    the environment 77. *)
Definition twoTrees : state :=
  MkState
    (<[5%positive := sample_node NodeC "Item" 5%positive None "" []]>
     (<[6%positive :=
          set_environment (VObj 77 "env") (sample_node NodeC "Item" 6%positive None "" [])]>
      (heap abTree)))
    [].

(** A model instance with an identifier and both creation hooks, and a
    primitive one. *)
Definition item_instance : instance :=
  MkInstance "Item" true None ["afterCreate"; "afterAttach"] (Some "i1") []
    (VObj 50 "Item") (VObj 51 "{}") None.

Definition number_instance : instance :=
  MkInstance "number" false None [] None [] (VNum 7) (VNum 7) None.

Definition failing_instance : instance :=
  MkInstance "Item" true None ["afterCreate"] (Some "i1") []
    (VObj 50 "Item") (VObj 51 "{}") (Some (TypeError "finalizeNewInstance")).

(** A single mutable root of a type with an identifier attribute, registered
    in its own identifier cache under "i1". *)
Definition idTree : state :=
  MkState
    (<[1%positive :=
         MkNode NodeC "Item" None "" false (Some [(("Item", "i1"), 1%positive)]) true
           (Some "i1") VUndefined true false [] [] [] [snapshotDisposer]
           (Some 1%positive) [] [] (VObj 9 "{id:i1}") (VObj 10 "{id:i1}") None None]> ∅)
    [].

(** The state before any node has been created. *)
Definition initial : state := MkState ∅ [].

(** Calls that make a tree of two nodes, detach the second and attach it
    again under another subpath. *)
Definition sample_calls : list call :=
  [CCreateNode None "" VUndefined (FreshValue item_instance);
   CCreateNode (Some 1%positive) "c" VUndefined (FreshValue number_instance);
   CDetach 2%positive;
   CSetParent 2%positive (Some 1%positive) (Some "d")].

(** ** Properties *)

(** *** The helpers on concrete inputs *)

Example splitJsonPath_absolute : splitJsonPath "/a/b" = ["a"; "b"].
Proof. reflexivity. Qed.

Example splitJsonPath_relative : splitJsonPath "../../b~1c" = [".."; ".."; "b/c"].
Proof. reflexivity. Qed.

Example splitJsonPath_empty : splitJsonPath "" = [].
Proof. reflexivity. Qed.

Example splitJsonPath_inner_empty : splitJsonPath "a//b" = ["a"; ""; "b"].
Proof. reflexivity. Qed.

Example joinJsonPath_escapes : joinJsonPath ["a~b"; "c/d"] = "/a~0b/c~1d".
Proof. reflexivity. Qed.

Example slice_negative_end : slice 0 (-1) [1; 2; 3] = [1; 2].
Proof. reflexivity. Qed.

Example slice_before_index : slice 0 (2 - 1) ["x"; "y"; "z"] = ["x"].
Proof. reflexivity. Qed.

Example resolve_scenario :
  resolve 5 1%positive "/a/b" true abTree = (Ok (Some 3%positive), abTree).
Proof. reflexivity. Qed.

Example die_trace_of_abTree :
  trace (snd (die 5 1%positive abTree)) =
    [DisposerCalled 2%positive snapshotDisposer; HookCalled 2%positive "beforeDestroy";
     DisposerCalled 1%positive snapshotDisposer; HookCalled 1%positive "beforeDestroy"].
Proof. reflexivity. Qed.

(** *** The monad *)

Lemma bind_ok {A B} (c : M A) (k : A -> M B) s a s' :
  c s = (Ok a, s') -> bind c k s = k a s'.
Proof. unfold bind. intros ->. reflexivity. Qed.

Lemma bind_throw {A B} (c : M A) (k : A -> M B) s e s' :
  c s = (Throw e, s') -> bind c k s = (Throw e, s').
Proof. unfold bind. intros ->. reflexivity. Qed.

Lemma bind_stuck {A B} (c : M A) (k : A -> M B) s s' :
  c s = (Stuck, s') -> bind c k s = (Stuck, s').
Proof. unfold bind. intros ->. reflexivity. Qed.

Lemma get_node_ok s n nd : heap s !! n = Some nd -> get_node n s = (Ok nd, s).
Proof. unfold get_node. intros ->. reflexivity. Qed.

Lemma upd_node_ok s n nd f :
  heap s !! n = Some nd ->
  upd_node n f s = (Ok tt, MkState (<[n := f nd]> (heap s)) (trace s)).
Proof. unfold upd_node. intros ->. reflexivity. Qed.

Lemma state_eta s : MkState (heap s) (trace s) = s.
Proof. destruct s. reflexivity. Qed.

Lemma unsupported_immutable {A} s n nd operation (k : M A) :
  heap s !! n = Some nd -> cls nd = ImmutableNodeC ->
  unsupported n operation k s = (Throw (NotSupported operation), s).
Proof.
  intros Hn Hc. unfold unsupported.
  rewrite (bind_ok _ _ _ _ _ (get_node_ok _ _ _ Hn)), Hc. reflexivity.
Qed.

Lemma unsupported_mutable {A} s n nd operation (k : M A) :
  heap s !! n = Some nd -> cls nd = NodeC ->
  unsupported n operation k s = k s.
Proof.
  intros Hn Hc. unfold unsupported.
  rewrite (bind_ok _ _ _ _ _ (get_node_ok _ _ _ Hn)), Hc. reflexivity.
Qed.

(** *** An immutable node *)

(** C7, as the code has it.  On an immutable node applyPatchLocally,
    applyPatches, applySnapshot, onPatch, onSnapshot, addMiddleWare,
    aboutToDie, finalizeDeath and addDisposer raise the unsupported-operation
    error and leave the state alone; [die] does not raise: it returns and
    changes nothing. *)
Theorem immutable_node_operations (fuel : nat) (s : state) (n : nid) (nd : node)
  (Hn : heap s !! n = Some nd) (Hc : cls nd = ImmutableNodeC) :
  (forall sub patch,
     applyPatchLocally fuel n sub patch s = (Throw (NotSupported "applyPatchLocally"), s)) /\
  (forall patches, applyPatches fuel n patches s = (Throw (NotSupported "applyPatches"), s)) /\
  (forall snap, applySnapshot fuel n snap s = (Throw (NotSupported "applySnapshot"), s)) /\
  (forall h, onPatch n h s = (Throw (NotSupported "onPatch"), s)) /\
  (forall h, onSnapshot n h s = (Throw (NotSupported "onSnapshot"), s)) /\
  (forall h, addMiddleWare n h s = (Throw (NotSupported "addMiddleWare"), s)) /\
  aboutToDie n s = (Throw (NotSupported "aboutToDie"), s) /\
  finalizeDeath fuel n s = (Throw (NotSupported "finalizeDeath"), s) /\
  (forall d, addDisposer n d s = (Throw (NotSupported "addDisposer"), s)) /\
  die fuel n s = (Ok tt, s).
Proof.
  assert (Hdie : die fuel n s = (Ok tt, s)).
  { unfold die. rewrite (bind_ok _ _ _ _ _ (get_node_ok _ _ _ Hn)), Hc. reflexivity. }
  assert (Hatd : aboutToDie n s = (Throw (NotSupported "aboutToDie"), s)).
  { unfold aboutToDie. rewrite (bind_ok _ _ _ _ _ (get_node_ok _ _ _ Hn)), Hc. reflexivity. }
  assert (Hfd : finalizeDeath fuel n s = (Throw (NotSupported "finalizeDeath"), s)).
  { unfold finalizeDeath. rewrite (bind_ok _ _ _ _ _ (get_node_ok _ _ _ Hn)), Hc. reflexivity. }
  repeat split; intros; try assumption;
    unfold applyPatchLocally, applyPatches, applySnapshot, onPatch, onSnapshot,
      addMiddleWare, addDisposer;
    eapply unsupported_immutable; eassumption.
Qed.

Lemma immutable_node_operations_witness :
  addDisposer 3%positive 7 abTree = (Throw (NotSupported "addDisposer"), abTree) /\
  die 5 3%positive abTree = (Ok tt, abTree).
Proof.
  destruct (immutable_node_operations 5 abTree 3%positive
              (MkNode ImmutableNodeC "number" (Some 2%positive) "b" false None true None
                 VUndefined true false [] [] [] [] None [] [] (VNum 1) (VNum 1) None None)
              eq_refl eq_refl)
    as (_ & _ & _ & _ & _ & _ & _ & _ & Hd & Hdie).
  split; [apply Hd | apply Hdie].
Defined.

(** The leaf at /a/b is an immutable node, and [die] on it raises nothing. *)
Lemma immutable_die_does_not_raise :
  (exists nd, heap abTree !! 3%positive = Some nd /\ cls nd = ImmutableNodeC) /\
  ~ (exists e, fst (die 5 3%positive abTree) = Throw e).
Proof.
  split.
  - eexists. split; reflexivity.
  - intros [e He]. vm_compute in He. discriminate He.
Qed.

(** *** setParent *)



(** *** Walking up the parent chain *)

Lemma ancestors_lookup h n l : ancestors h n l -> exists nd, h !! n = Some nd.
Proof. destruct 1; eauto. Qed.

Lemma ancestors_functional h n l1 :
  ancestors h n l1 -> forall l2, ancestors h n l2 -> l1 = l2.
Proof.
  induction 1 as [n nd Hn Hp | n nd p l Hn Hp Hanc IH]; intros l2 H2.
  - inversion H2; subst; [reflexivity | congruence].
  - inversion H2 as [? nd' Hn' Hp' | ? nd' p' l' Hn' Hp' Hanc']; subst.
    + congruence.
    + assert (p' = p) by congruence. subst p'. f_equal. apply IH. assumption.
Qed.

Lemma top_of_cons n p l : top_of n (p :: l) = top_of p l.
Proof.
  unfold top_of. revert n p. induction l as [| q l IH]; intros n p; [reflexivity |].
  change (List.last (p :: q :: l) n) with (List.last (q :: l) n).
  rewrite (IH n q), (IH p q). reflexivity.
Qed.

Lemma root_of_ancestors h n l :
  ancestors h n l -> forall fuel, length l < fuel ->
  root_of fuel h n = Some (top_of n l).
Proof.
  induction 1 as [n nd Hn Hp | n nd p l Hn Hp Hanc IH]; intros fuel Hf.
  - destruct fuel as [| f]; [simpl in Hf; lia |]. simpl. rewrite Hn, Hp. reflexivity.
  - destruct fuel as [| f]; [simpl in Hf; lia |]. cbn [root_of]. rewrite Hn, Hp.
    rewrite top_of_cons. apply IH. simpl in Hf. lia.
Qed.

Lemma ancestors_top h n l :
  ancestors h n l -> exists rd, h !! top_of n l = Some rd /\ _parent rd = None.
Proof.
  induction 1 as [n nd Hn Hp | n nd p l Hn Hp Hanc IH].
  - exists nd. split; assumption.
  - rewrite top_of_cons. exact IH.
Qed.

Lemma isRunningAction_of_ancestors h n l :
  ancestors h n l -> forall fuel, length l < fuel ->
  isRunningAction_of fuel h n = Some (existsb (running_flag h) (n :: l)).
Proof.
  induction 1 as [n nd Hn Hp | n nd p l Hn Hp Hanc IH]; intros fuel Hf.
  - destruct fuel as [| f]; [simpl in Hf; lia |]. simpl.
    unfold running_flag. rewrite Hn, Hp. destruct (_isRunningAction nd); reflexivity.
  - destruct fuel as [| f]; [simpl in Hf; lia |].
    cbn [isRunningAction_of]. rewrite Hn, Hp.
    cbn [existsb]. unfold running_flag at 1. rewrite Hn.
    destruct (_isRunningAction nd); [reflexivity |].
    cbn [orb]. apply IH. simpl in Hf. lia.
Qed.

Lemma root_ok fuel s n l :
  ancestors (heap s) n l -> length l < fuel -> root fuel n s = (Ok (top_of n l), s).
Proof.
  intros Hanc Hf. unfold root. rewrite (root_of_ancestors _ _ _ Hanc fuel Hf). reflexivity.
Qed.

(** *** Writability *)

(** C10.  [isRunningAction] is true exactly when the node or one of its
    ancestors up to the root has its flag set; [isProtected] is the
    protection flag of the root; and [assertWritable] on a live node raises
    exactly when none of them runs an action and the root is protected. *)
Theorem writability_inherited (fuel : nat) (s : state) (n : nid) (l : list nid)
  (Hanc : ancestors (heap s) n l) (Hfuel : length l < fuel) :
  let running := existsb (running_flag (heap s)) (n :: l) in
  let protected := protection_flag (heap s) (top_of n l) in
  isRunningAction fuel n s = (Ok running, s) /\
  (running = true <-> exists x, x ∈ n :: l /\ running_flag (heap s) x = true) /\
  isProtected fuel n s = (Ok protected, s) /\
  (forall nd, heap s !! n = Some nd -> _isAlive nd = true ->
     assertWritable fuel n s =
       (if negb running && protected then Throw ProtectedNotWritable else Ok tt, s)).
Proof.
  intros running protected.
  assert (Hrun : isRunningAction fuel n s = (Ok running, s)).
  { unfold isRunningAction. rewrite (isRunningAction_of_ancestors _ _ _ Hanc fuel Hfuel).
    reflexivity. }
  assert (Hprot : isProtected fuel n s = (Ok protected, s)).
  { unfold isProtected. rewrite (bind_ok _ _ _ _ _ (root_ok _ _ _ _ Hanc Hfuel)).
    destruct (ancestors_top _ _ _ Hanc) as (rd & Hrd & _).
    rewrite (bind_ok _ _ _ _ _ (get_node_ok _ _ _ Hrd)).
    unfold protected, protection_flag. rewrite Hrd. reflexivity. }
  split; [exact Hrun |]. split; [| split; [exact Hprot |]].
  - unfold running. rewrite existsb_exists. split.
    + intros (x & Hin & Hx). exists x. split; [apply list_elem_of_In; exact Hin | exact Hx].
    + intros (x & Hin & Hx). exists x. split; [apply list_elem_of_In; exact Hin | exact Hx].
  - intros nd Hn Halive. unfold assertWritable.
    assert (Ha : assertAlive n s = (Ok tt, s)).
    { unfold assertAlive. rewrite (bind_ok _ _ _ _ _ (get_node_ok _ _ _ Hn)), Halive.
      reflexivity. }
    rewrite (bind_ok _ _ _ _ _ Ha), (bind_ok _ _ _ _ _ Hrun).
    destruct running; [reflexivity |].
    rewrite (bind_ok _ _ _ _ _ Hprot). destruct protected; reflexivity.
Qed.

Lemma writability_inherited_witness :
  isRunningAction 5 3%positive abTree = (Ok false, abTree) /\
  isProtected 5 3%positive abTree = (Ok true, abTree) /\
  assertWritable 5 3%positive abTree = (Throw ProtectedNotWritable, abTree).
Proof.
  assert (Hanc : ancestors (heap abTree) 3%positive [2%positive; 1%positive]).
  { eapply ancestors_step; [reflexivity | reflexivity |].
    eapply ancestors_step; [reflexivity | reflexivity |].
    eapply ancestors_root; reflexivity. }
  destruct (writability_inherited 5 abTree 3%positive [2%positive; 1%positive] Hanc
              ltac:(simpl; lia)) as (H1 & _ & H3 & H4).
  split; [exact H1 |]. split; [exact H3 |].
  eapply H4; reflexivity.
Defined.

(** *** applySnapshot *)

Lemma set_isRunningAction_restore nd b :
  set_isRunningAction (_isRunningAction nd) (set_isRunningAction b nd) = nd.
Proof. destruct nd. reflexivity. Qed.

Lemma snapshot_of_set_isRunningAction nd b :
  snapshot_of (set_isRunningAction b nd) = snapshot_of nd.
Proof. destruct nd. reflexivity. Qed.

Lemma restore_heap (h : gmap nid node) n nd b :
  h !! n = Some nd ->
  <[n := set_isRunningAction (_isRunningAction nd) (set_isRunningAction b nd)]>
    (<[n := set_isRunningAction b nd]> h) = h.
Proof.
  intros Hn. rewrite insert_insert_eq, set_isRunningAction_restore.
  apply insert_id. exact Hn.
Qed.



(** *** resolve: the path named by the error *)

(** C3, at the failing input.  From the root of the tree [{a: {b: 1}}] the
    path "../a/b" fails at its first segment, where nothing has been
    traversed; the error names the segment ".." and, as the path so far,
    "/../a": the segments up to the last but one, which were never reached.
    From the node at /a the path "../../x" fails at its second segment,
    after ".." was traversed, and the error names the empty path. *)
Theorem resolve_error_path_off_by_one :
  resolve 5 1%positive "../a/b" true abTree
    = (Throw (CouldNotResolve ".." "/../a"), abTree) /\
  joinJsonPath (take 0 (splitJsonPath "../a/b")) = "" /\
  resolve 5 2%positive "../../x" true abTree
    = (Throw (CouldNotResolve ".." ""), abTree) /\
  joinJsonPath (take 1 (splitJsonPath "../../x")) = "/..".
Proof. repeat split; vm_compute; reflexivity. Qed.

(** *** Death is final *)

Section KeepsDead.
Variable x : nid.

Lemma keeps_ret {A} (a : A) : keeps_dead x (ret a).
Proof. intros s H. exact H. Qed.

Lemma keeps_throw {A} e : keeps_dead x (@throw A e).
Proof. intros s H. exact H. Qed.

Lemma keeps_stuck {A} : keeps_dead x (@stuck A).
Proof. intros s H. exact H. Qed.

Lemma keeps_bind {A B} (c : M A) (k : A -> M B) :
  keeps_dead x c -> (forall a, keeps_dead x (k a)) -> keeps_dead x (bind c k).
Proof.
  intros Hc Hk s H. unfold bind. specialize (Hc s H).
  destruct (c s) as [[a | e |] s']; simpl in *; [apply Hk |..]; assumption.
Qed.

Lemma keeps_read {A} (f : state -> option A) :
  keeps_dead x (fun s => lift_option (f s) s).
Proof. intros s H. destruct (f s); exact H. Qed.

Lemma keeps_get_node n : keeps_dead x (get_node n).
Proof. apply (keeps_read (fun s => heap s !! n)). Qed.

Lemma keeps_root fuel n : keeps_dead x (root fuel n).
Proof. apply (keeps_read (fun s => root_of fuel (heap s) n)). Qed.

Lemma keeps_path fuel n : keeps_dead x (path fuel n).
Proof. apply (keeps_read (fun s => path_of fuel (heap s) n)). Qed.

Lemma keeps_isRunningAction fuel n : keeps_dead x (isRunningAction fuel n).
Proof. apply (keeps_read (fun s => isRunningAction_of fuel (heap s) n)). Qed.

Lemma keeps_heap : keeps_dead x (fun s => (Ok (heap s), s)).
Proof. intros s H. exact H. Qed.

Lemma keeps_emit e : keeps_dead x (emit e).
Proof. intros s H. exact H. Qed.

Lemma keeps_upd_node n f :
  (forall nd, _isAlive nd = false -> _isAlive (f nd) = false) ->
  keeps_dead x (upd_node n f).
Proof.
  intros Hf s (xd & Hx & Hd). unfold upd_node.
  destruct (heap s !! n) as [nd |] eqn:Hn; simpl; [| exists xd; split; assumption].
  destruct (decide (n = x)) as [-> | Hne].
  - exists (f nd). simpl. rewrite lookup_insert_eq. split; [reflexivity |].
    apply Hf. congruence.
  - exists xd. simpl. rewrite lookup_insert_ne by assumption. split; assumption.
Qed.

Lemma keeps_alloc fields : keeps_dead x (alloc fields).
Proof.
  intros s (xd & Hx & Hd). unfold alloc. simpl. exists xd. simpl. split; [| exact Hd].
  rewrite lookup_insert_ne; [exact Hx |].
  intros Heq. pose proof (is_fresh (dom (heap s))) as Hfresh.
  apply Hfresh. rewrite Heq. apply elem_of_dom. eauto.
Qed.

Lemma keeps_forEach {A} (l : list A) (f : A -> M unit) :
  (forall a, keeps_dead x (f a)) -> keeps_dead x (forEach l f).
Proof.
  intros Hf. induction l as [| a l IH]; simpl.
  - apply keeps_ret.
  - apply keeps_bind; [apply Hf | intros _; exact IH].
Qed.

Lemma keeps_try_finally {A} (c : M A) fin :
  keeps_dead x c -> keeps_dead x fin -> keeps_dead x (try_finally c fin).
Proof.
  intros Hc Hfin s H. unfold try_finally. specialize (Hc s H).
  destruct (c s) as [[a | e |] s']; simpl in *; [| | assumption];
    specialize (Hfin s' Hc); destruct (fin s') as [[[] | e' |] s'']; simpl in *; assumption.
Qed.

Lemma keeps_on_exception {A} (c : M A) cleanup :
  keeps_dead x c -> keeps_dead x cleanup -> keeps_dead x (on_exception c cleanup).
Proof.
  intros Hc Hfin s H. unfold on_exception. specialize (Hc s H).
  destruct (c s) as [[a | e |] s']; simpl in *; [assumption | | assumption].
  specialize (Hfin s' Hc). destruct (cleanup s') as [[[] | e' |] s'']; simpl in *; assumption.
Qed.

Lemma keeps_discard {A} (c : M A) : keeps_dead x c -> keeps_dead x (discard c).
Proof. intros Hc. apply keeps_bind; [exact Hc | intros a; apply keeps_ret]. Qed.

End KeepsDead.

(** Discharges a goal [keeps_dead x c] by following the structure of [c]. *)
Ltac keeps_field := intros []; simpl; intros; first [assumption | reflexivity].

Create HintDb keep discriminated.

Ltac keeps :=
  repeat first
    [ solve [auto 1 with keep nocore]
    | apply keeps_ret | apply keeps_throw | apply keeps_stuck | apply keeps_emit
    | apply keeps_get_node | apply keeps_root | apply keeps_path
    | apply keeps_isRunningAction | apply keeps_heap | apply keeps_alloc
    | apply keeps_upd_node; keeps_field
    | apply keeps_forEach; intros ?
    | apply keeps_try_finally
    | apply keeps_on_exception
    | apply keeps_discard
    | apply keeps_bind; [| intros ?]
    | assumption
    | match goal with
      | |- keeps_dead _ (match ?b with _ => _ end) => destruct b
      | |- keeps_dead _ (let '(_, _) := ?b in _) => destruct b
      end ].

Lemma keeps_assertAlive x n : keeps_dead x (assertAlive n).
Proof. unfold assertAlive. keeps. Qed.
#[local] Hint Resolve keeps_assertAlive : keep.

Lemma keeps_fireHook x n name : keeps_dead x (fireHook n name).
Proof. unfold fireHook. keeps. Qed.
#[local] Hint Resolve keeps_fireHook : keep.

Lemma keeps_isProtected x fuel n : keeps_dead x (isProtected fuel n).
Proof. unfold isProtected. keeps. Qed.
#[local] Hint Resolve keeps_isProtected : keep.

Lemma keeps_assertWritable x fuel n : keeps_dead x (assertWritable fuel n).
Proof.
  unfold assertWritable.
  apply keeps_bind; [apply keeps_assertAlive | intros _].
  apply keeps_bind; [apply keeps_isRunningAction | intros []]; [apply keeps_ret |].
  apply keeps_bind; [apply keeps_isProtected | intros []]; keeps.
Qed.
#[local] Hint Resolve keeps_assertWritable : keep.

Lemma keeps_getChildNode x n sub : keeps_dead x (getChildNode n sub).
Proof.
  unfold getChildNode, type_getChildNode.
  apply keeps_bind; [apply keeps_assertAlive | intros _]. keeps.
Qed.
#[local] Hint Resolve keeps_getChildNode : keep.

Lemma keeps_getChildren x n : keeps_dead x (getChildren n).
Proof.
  unfold getChildren. apply keeps_bind; [apply keeps_assertAlive | intros _]. keeps.
Qed.
#[local] Hint Resolve keeps_getChildren : keep.

Lemma keeps_isStateTreeNode x n : keeps_dead x (isStateTreeNode n).
Proof. unfold isStateTreeNode. keeps. Qed.
#[local] Hint Resolve keeps_isStateTreeNode : keep.

Lemma keeps_getStateTreeNode x n : keeps_dead x (getStateTreeNode n).
Proof. unfold getStateTreeNode. keeps. Qed.
#[local] Hint Resolve keeps_getStateTreeNode : keep.

Lemma keeps_aboutToDie x n : keeps_dead x (aboutToDie n).
Proof.
  unfold aboutToDie, Node_aboutToDie.
  apply keeps_bind; [apply keeps_get_node | intros nd].
  destruct (cls nd); [apply keeps_throw |].
  apply keeps_bind; [apply keeps_get_node | intros nd'].
  apply keeps_bind; [apply keeps_upd_node; keeps_field | intros _].
  apply keeps_bind; [apply keeps_forEach; intros; apply keeps_emit | intros _].
  apply keeps_fireHook.
Qed.
#[local] Hint Resolve keeps_aboutToDie : keep.

Lemma keeps_finalizeDeath x fuel n : keeps_dead x (finalizeDeath fuel n).
Proof.
  unfold finalizeDeath, Node_finalizeDeath, snapshot. keeps.
Qed.
#[local] Hint Resolve keeps_finalizeDeath : keep.

Lemma keeps_walk x fuel processor :
  (forall n, keeps_dead x (processor n)) -> forall holder, keeps_dead x (walk fuel processor holder).
Proof.
  intros Hp. induction fuel as [| f IH]; intros holder; simpl.
  - apply keeps_stuck.
  - apply keeps_bind; [apply keeps_getStateTreeNode | intros n].
    apply keeps_bind; [apply keeps_getChildren | intros kids].
    apply keeps_bind; [| intros _; apply Hp].
    apply keeps_forEach. intros child.
    apply keeps_bind; [apply keeps_isStateTreeNode | intros []]; [apply IH | apply keeps_ret].
Qed.

Lemma keeps_die x fuel n : keeps_dead x (die fuel n).
Proof.
  unfold die, ImmutableNode_die, Node_die.
  apply keeps_bind; [apply keeps_get_node | intros nd].
  destruct (cls nd); [apply keeps_ret |].
  apply keeps_bind; [apply keeps_get_node | intros nd'].
  destruct (_isDetaching nd'); [apply keeps_ret |].
  apply keeps_bind; [apply keeps_isStateTreeNode | intros []]; [| apply keeps_ret].
  apply keeps_bind; [| intros _]; apply keeps_walk; intros c;
    (apply keeps_bind; [apply keeps_getStateTreeNode | intros t]).
  - apply keeps_aboutToDie.
  - apply keeps_finalizeDeath.
Qed.
#[local] Hint Resolve keeps_die : keep.

Lemma keeps_setParent x fuel this newParent sub :
  keeps_dead x (setParent fuel this newParent sub).
Proof.
  unfold setParent.
  apply keeps_bind; [apply keeps_get_node | intros nd].
  match goal with |- keeps_dead _ (if ?b then _ else _) => destruct b end;
    [apply keeps_ret |].
  apply keeps_bind; [keeps | intros _].
  destruct (_parent nd), newParent; try apply keeps_die;
    repeat first [ apply keeps_fireHook | progress keeps ].
Qed.
#[local] Hint Resolve keeps_setParent : keep.

Lemma keeps_resolvePath_loop x fuel pathParts failIf rest :
  forall i current,
    keeps_dead x (resolvePath_loop fuel pathParts i rest current failIf).
Proof.
  induction rest as [| part rest IH]; intros i current; cbn [resolvePath_loop].
  - apply keeps_ret.
  - assert (Hcheck : forall c' : option nid,
      keeps_dead x
        (match c' with
         | None =>
             if failIf
             then throw (CouldNotResolve part
                           (joinJsonPath (slice 0 (Z.of_nat i - 1) pathParts)))
             else ret None
         | Some _ => resolvePath_loop fuel pathParts (S i) rest c' failIf
         end)).
    { intros [c |]; [apply IH |]. destruct failIf; keeps. }
    repeat match goal with
           | |- keeps_dead _ (if ?b then _ else _) => destruct b
           end;
      try apply IH;
      destruct current as [c |]; try apply keeps_throw; try apply (Hcheck None).
    + apply keeps_bind; [apply keeps_root | intros r; apply (Hcheck (Some r))].
    + unfold parent. apply keeps_bind; [keeps | intros p; apply Hcheck].
    + apply keeps_bind; [apply keeps_getChildNode | intros ch; apply IH].
Qed.

Lemma keeps_getRelativePathTo x fuel this target :
  keeps_dead x (getRelativePathTo fuel this target).
Proof. unfold getRelativePathTo. keeps. Qed.
#[local] Hint Resolve keeps_getRelativePathTo : keep.

Lemma keeps_detach x fuel this : keeps_dead x (detach fuel this).
Proof.
  unfold detach, isRoot, removeChild, type_removeChild.
  repeat first [ apply keeps_fireHook | progress keeps ].
Qed.
#[local] Hint Resolve keeps_detach : keep.

Lemma keeps_emitPatch_up x up fuel basePatch source :
  forall this, keeps_dead x (emitPatch_up up fuel this basePatch source).
Proof.
  induction up as [| up IH]; intros this; cbn [emitPatch_up].
  - apply keeps_stuck.
  - apply keeps_bind; [apply keeps_get_node | intros nd].
    destruct (cls nd); [apply keeps_throw |].
    apply keeps_bind; [| intros _; destruct (_parent nd); [apply IH | apply keeps_ret]].
    destruct (patchSubscribers nd); keeps.
Qed.

Lemma keeps_registerEventHandler x l n h : keeps_dead x (registerEventHandler l n h).
Proof.
  unfold registerEventHandler.
  apply keeps_bind; [| intros _; apply keeps_ret].
  apply keeps_upd_node. intros [] Hd. destruct l; simpl in *; assumption.
Qed.
#[local] Hint Resolve keeps_registerEventHandler : keep.

Lemma keeps_unsupported x {A} n operation (k : M A) :
  keeps_dead x k -> keeps_dead x (unsupported n operation k).
Proof. intros Hk. unfold unsupported. keeps. Qed.

Lemma keeps_applyPatchLocally x fuel n sub patch :
  keeps_dead x (applyPatchLocally fuel n sub patch).
Proof.
  unfold applyPatchLocally. apply keeps_unsupported.
  apply keeps_bind; [apply keeps_assertWritable | intros _]. keeps.
Qed.
#[local] Hint Resolve keeps_applyPatchLocally : keep.

Lemma keeps_createActionInvoker x {A} n (fn : M A) :
  keeps_dead x fn -> keeps_dead x (createActionInvoker n fn).
Proof. intros Hfn. unfold createActionInvoker. keeps. Qed.

Lemma keeps_exec x fuel c : keeps_dead x (exec fuel c).
Proof.
  destruct c; cbn [exec];
    try apply keeps_discard;
    first
      [ apply keeps_setParent | apply keeps_getRelativePathTo
      | apply keeps_resolvePath_loop | apply keeps_assertAlive
      | apply keeps_assertWritable | apply keeps_getChildNode | apply keeps_getChildren
      | apply keeps_detach | apply keeps_die | apply keeps_aboutToDie
      | apply keeps_finalizeDeath | apply keeps_emitPatch_up
      | apply keeps_applyPatchLocally
      | idtac ].
  - unfold value. keeps.
  - unfold snapshot. keeps.
  - unfold removeChild, type_removeChild. keeps.
  - unfold emitSnapshot. keeps.
  - apply keeps_unsupported, keeps_registerEventHandler.
  - apply keeps_unsupported, keeps_registerEventHandler.
  - apply keeps_unsupported, keeps_registerEventHandler.
  - apply keeps_unsupported. keeps.
  - unfold call_IDisposer. destruct d as [l n h].
    apply keeps_upd_node. intros [] Hd. destruct l; simpl in *; assumption.
  - unfold applyPatches. apply keeps_unsupported, keeps_createActionInvoker.
    apply keeps_forEach. intros patch.
    apply keeps_bind; [apply keeps_resolvePath_loop | intros [m |]];
      [apply keeps_applyPatchLocally | apply keeps_throw].
  - unfold applySnapshot. apply keeps_unsupported, keeps_createActionInvoker.
    unfold snapshot. keeps.
  - unfold createNode. destruct init as [targetNode | i].
    + unfold isRoot. keeps.
    + unfold construct, addDisposer, unsupported. keeps.
Qed.

Lemma keeps_exec_all x fuel cs : forall s, dead x s -> dead x (exec_all fuel cs s).
Proof.
  induction cs as [| c cs IH]; intros s H; simpl; [exact H |].
  apply IH. apply keeps_exec. exact H.
Qed.




(** *** Strings and the path codec *)

Lemma append_cons x (a b : string) : String x a +:+ b = String x (a +:+ b).
Proof. reflexivity. Qed.

Lemma append_empty_l (b : string) : "" +:+ b = b.
Proof. reflexivity. Qed.

Lemma append_assoc (a b c : string) : (a +:+ b) +:+ c = a +:+ (b +:+ c).
Proof.
  induction a as [| x a IH]; [reflexivity |].
  rewrite !append_cons, IH. reflexivity.
Qed.

Lemma append_empty_r (a : string) : a +:+ "" = a.
Proof.
  induction a as [| x a IH]; [reflexivity |].
  rewrite append_cons, IH. reflexivity.
Qed.

Lemma substr_app (a b : string) : substr (String.length a) (a +:+ b) = b.
Proof.
  induction a as [| x a IH]; [destruct b; reflexivity |].
  rewrite append_cons. cbn [String.length substr]. exact IH.
Qed.

(** Every segment after its slash. *)
Lemma joinJsonPath_cons x l :
  joinJsonPath (x :: l) = "/" +:+ escapeJsonPath x +:+ joinJsonPath l.
Proof.
  unfold joinJsonPath. destruct l as [| y l].
  - simpl. rewrite append_empty_r. reflexivity.
  - cbn [map join]. reflexivity.
Qed.

Lemma joinJsonPath_app l1 l2 :
  joinJsonPath (l1 ++ l2) = joinJsonPath l1 +:+ joinJsonPath l2.
Proof.
  induction l1 as [| x l1 IH].
  - reflexivity.
  - change ((x :: l1) ++ l2) with (x :: (l1 ++ l2)).
    rewrite !joinJsonPath_cons, IH.
    rewrite !append_assoc. reflexivity.
Qed.

(** *** The path of a node *)

Lemma path_of_ancestors h n l :
  ancestors h n l -> forall fuel, length l < fuel ->
  path_of fuel h n = Some (joinJsonPath (segments h n l)).
Proof.
  induction 1 as [n nd Hn Hp | n nd p l Hn Hp Hanc IH]; intros fuel Hf.
  - destruct fuel as [| f]; [simpl in Hf; lia |]. simpl. rewrite Hn, Hp. reflexivity.
  - destruct fuel as [| f]; [simpl in Hf; lia |]. cbn [path_of segments].
    rewrite Hn, Hp, (IH f) by (simpl in Hf; lia).
    rewrite joinJsonPath_app, joinJsonPath_cons.
    unfold subpath_of. rewrite Hn. cbn [joinJsonPath]. rewrite append_empty_r.
    reflexivity.
Qed.

Lemma path_ok fuel s n l :
  ancestors (heap s) n l -> length l < fuel ->
  path fuel n s = (Ok (joinJsonPath (segments (heap s) n l)), s).
Proof.
  intros Hanc Hf. unfold path. rewrite (path_of_ancestors _ _ _ Hanc fuel Hf). reflexivity.
Qed.

Lemma segments_split h n pre x lx :
  segments h n (pre ++ x :: lx) = segments h x lx ++ rev (map (subpath_of h) (n :: pre)).
Proof.
  revert n. induction pre as [| q pre IH]; intros n.
  - reflexivity.
  - change ((q :: pre) ++ x :: lx) with (q :: (pre ++ x :: lx)).
    cbn [segments]. rewrite IH.
    change (map (subpath_of h) (n :: q :: pre))
      with (subpath_of h n :: map (subpath_of h) (q :: pre)).
    change (rev (subpath_of h n :: map (subpath_of h) (q :: pre)))
      with (rev (map (subpath_of h) (q :: pre)) ++ [subpath_of h n]).
    rewrite app_assoc. reflexivity.
Qed.

(** The segments of a node below [x] are the segments of [x] followed by the
    subpaths on the way down. *)
Lemma segments_below h source lsrc belowNodes x lx :
  source :: lsrc = belowNodes ++ x :: lx ->
  segments h source lsrc = segments h x lx ++ rev (map (subpath_of h) belowNodes).
Proof.
  intros Heq. destruct belowNodes as [| b pre].
  - simpl in Heq. injection Heq as -> ->. simpl. rewrite app_nil_r. reflexivity.
  - simpl in Heq. injection Heq as -> ->. apply segments_split.
Qed.

(** *** emitPatch *)

Lemma forEach_emit {A} (l : list A) (f : A -> event) h tr :
  forEach l (fun a => emit (f a)) (MkState h tr) = (Ok tt, MkState h (tr ++ map f l)).
Proof.
  revert tr. induction l as [| a l IH]; intros tr; simpl.
  - rewrite app_nil_r. reflexivity.
  - unfold bind at 1. unfold emit at 1. simpl. rewrite IH.
    rewrite <- app_assoc. reflexivity.
Qed.

Lemma ancestors_inv_cons h n p l :
  ancestors h n (p :: l) ->
  exists nd, h !! n = Some nd /\ _parent nd = Some p /\ ancestors h p l.
Proof. inversion 1; subst. eauto. Qed.

Lemma ancestors_inv_nil h n :
  ancestors h n [] -> exists nd, h !! n = Some nd /\ _parent nd = None.
Proof. inversion 1; subst. eauto. Qed.

Lemma emitPatch_up_spec h basePatch source lsrc fuel :
  ancestors h source lsrc -> length lsrc < fuel ->
  forall l this belowNodes up tr,
    ancestors h this l ->
    source :: lsrc = belowNodes ++ this :: l ->
    Forall (fun x => class_of h x = Some NodeC) (this :: l) ->
    length l < up ->
    emitPatch_up up fuel this basePatch source (MkState h tr) =
      (Ok tt, MkState h (tr ++ notifications h basePatch belowNodes (this :: l))).
Proof.
  intros Hsrc Hfuel.
  assert (Hstep : forall l this belowNodes tr nd,
    ancestors h this l ->
    source :: lsrc = belowNodes ++ this :: l ->
    h !! this = Some nd ->
    (match patchSubscribers nd with
     | [] => ret tt
     | subscribers =>
         do sourcePath <- path fuel source;
         do thisPath <- path fuel this;
         let localizedPatch :=
           with_path (substr (String.length thisPath) sourcePath
                      +:+ "/" +:+ rp_path basePatch) basePatch in
         let '(patch, reversePatch) := splitPatch localizedPatch in
         forEach subscribers
           (fun hd => emit (PatchSubscriberCalled this hd patch reversePatch))
     end) (MkState h tr) =
    (Ok tt,
     MkState h
       (tr ++ map (fun hd =>
                     PatchSubscriberCalled this hd
                       (fst (relative_patches (rev (map (subpath_of h) belowNodes)) basePatch))
                       (snd (relative_patches (rev (map (subpath_of h) belowNodes)) basePatch)))
                  (subscribers_of h this)))).
  { intros l this belowNodes tr nd Hanc Hrel Hn.
    unfold subscribers_of. rewrite Hn.
    destruct (patchSubscribers nd) as [| h0 subs] eqn:Hsubs.
    - simpl. rewrite app_nil_r. reflexivity.
    - assert (Hlen : length l < fuel).
      { apply (f_equal (@length nid)) in Hrel. rewrite length_app in Hrel.
        simpl in Hrel. lia. }
      rewrite (bind_ok _ _ _ _ _ (path_ok fuel (MkState h tr) _ _ Hsrc Hfuel)).
      rewrite (bind_ok _ _ _ _ _ (path_ok fuel (MkState h tr) _ _ Hanc Hlen)).
      cbn [heap]. rewrite (segments_below h _ _ _ _ _ Hrel).
      rewrite joinJsonPath_app, substr_app.
      unfold relative_patches, splitPatch.
      apply (forEach_emit (h0 :: subs)). }
  intros l. induction l as [| p l IH]; intros this belowNodes up tr Hanc Hrel Hcls Hup.
  - destruct up as [| up]; [simpl in Hup; lia |]. cbn [emitPatch_up].
    destruct (ancestors_inv_nil _ _ Hanc) as (nd & Hn & Hp).
    rewrite (bind_ok _ _ _ _ _ (get_node_ok (MkState h tr) _ _ Hn)).
    inversion Hcls as [| ? ? Hc _]; subst. unfold class_of in Hc. rewrite Hn in Hc.
    injection Hc as ->.
    rewrite (bind_ok _ _ _ _ _ (Hstep _ _ _ tr _ Hanc Hrel Hn)). rewrite Hp.
    cbn [notifications]. rewrite app_nil_r. reflexivity.
  - destruct up as [| up]; [simpl in Hup; lia |]. cbn [emitPatch_up].
    destruct (ancestors_inv_cons _ _ _ _ Hanc) as (nd & Hn & Hp & Hanc').
    rewrite (bind_ok _ _ _ _ _ (get_node_ok (MkState h tr) _ _ Hn)).
    inversion Hcls as [| ? ? Hc Hcls']; subst. unfold class_of in Hc. rewrite Hn in Hc.
    injection Hc as ->.
    rewrite (bind_ok _ _ _ _ _ (Hstep _ _ _ tr _ Hanc Hrel Hn)). rewrite Hp.
    rewrite (IH p (belowNodes ++ [this]) up).
    + cbn [notifications]. rewrite <- app_assoc. reflexivity.
    + exact Hanc'.
    + rewrite <- app_assoc. exact Hrel.
    + exact Hcls'.
    + simpl in Hup. lia.
Qed.



(** *** Assignments that leave the parent references alone *)

Lemma upd_node_alter s n f nd :
  heap s !! n = Some nd ->
  upd_node n f s = (Ok tt, MkState (alter f n (heap s)) (trace s)).
Proof.
  intros Hn. rewrite (upd_node_ok _ _ _ _ Hn), (alter_alt_Some _ _ _ _ Hn). reflexivity.
Qed.

Lemma parent_of_alter h k f x :
  (forall nd, _parent (f nd) = _parent nd) ->
  parent_of (alter f k h) x = parent_of h x.
Proof.
  intros Hf. unfold parent_of. rewrite lookup_alter.
  destruct (decide (k = x)) as [-> | Hne]; [| reflexivity].
  destruct (h !! x); simpl; [rewrite Hf |]; reflexivity.
Qed.

Lemma root_of_ext h1 h2 :
  (forall x, parent_of h1 x = parent_of h2 x) ->
  forall fuel n, root_of fuel h1 n = root_of fuel h2 n.
Proof.
  intros Hext fuel. induction fuel as [| f IH]; intros n; [reflexivity |].
  cbn [root_of]. specialize (Hext n). unfold parent_of in Hext.
  destruct (h1 !! n) as [nd1 |], (h2 !! n) as [nd2 |]; try discriminate; [| reflexivity].
  injection Hext as ->. destruct (_parent nd2); [apply IH | reflexivity].
Qed.

Lemma is_within_ext h1 h2 :
  (forall x, parent_of h1 x = parent_of h2 x) ->
  forall fuel top n, IdCache.is_within fuel h1 top n = IdCache.is_within fuel h2 top n.
Proof.
  intros Hext fuel top. induction fuel as [| f IH]; intros n; [reflexivity |].
  cbn [IdCache.is_within]. destruct (bool_decide (n = top)); [reflexivity |].
  specialize (Hext n). unfold parent_of in Hext.
  destruct (h1 !! n) as [nd1 |], (h2 !! n) as [nd2 |]; try discriminate; [| reflexivity].
  injection Hext as ->. destruct (_parent nd2); [apply IH | reflexivity].
Qed.

Lemma ancestors_ext h1 h2 n l :
  (forall x, parent_of h1 x = parent_of h2 x) ->
  ancestors h1 n l -> ancestors h2 n l.
Proof.
  intros Hext. induction 1 as [n nd Hn Hp | n nd p l Hn Hp Hanc IH].
  - specialize (Hext n). unfold parent_of in Hext. rewrite Hn in Hext.
    destruct (h2 !! n) as [nd2 |] eqn:H2; [| discriminate].
    injection Hext as Hext. eapply ancestors_root; [exact H2 | congruence].
  - specialize (Hext n). unfold parent_of in Hext. rewrite Hn in Hext.
    destruct (h2 !! n) as [nd2 |] eqn:H2; [| discriminate].
    injection Hext as Hext. eapply ancestors_step; [exact H2 | congruence | exact IH].
Qed.

Lemma ancestors_not_self h n l : ancestors h n l -> n ∉ l.
Proof.
  intros Hanc Hin.
  apply list_elem_of_split in Hin as (l1 & l2 & ->).
  assert (Hsuf : forall m k l1', ancestors h m (l1' ++ k :: l2) -> ancestors h k l2).
  { intros m k l1'. revert m. induction l1' as [| q l1' IH]; intros m Hm.
    - apply ancestors_inv_cons in Hm as (? & _ & _ & Hk). exact Hk.
    - apply ancestors_inv_cons in Hm as (? & _ & _ & Hq). eapply IH. exact Hq. }
  pose proof (Hsuf _ _ _ Hanc) as Hn2.
  pose proof (ancestors_functional _ _ _ Hanc _ Hn2) as Heq.
  apply (f_equal (@length nid)) in Heq. rewrite length_app in Heq. simpl in Heq. lia.
Qed.

(** *** detach *)

Lemma fireHook_ok s n nd name :
  heap s !! n = Some nd ->
  fireHook n name s = (Ok tt, MkState (heap s) (trace s ++ hook_call n name nd)).
Proof.
  intros Hn. unfold fireHook, hook_call.
  rewrite (bind_ok _ _ _ _ _ (get_node_ok _ _ _ Hn)).
  destruct (bool_decide (name ∈ hooks nd)); [reflexivity |].
  unfold ret. rewrite app_nil_r, state_eta. reflexivity.
Qed.

Lemma not_in_filtered_children (n : nid) (sub : string) (kids : list (string * nid)) :
  (forall k, (k, n) ∈ kids -> k = sub) ->
  n ∉ map snd (filter (fun e : string * nid => e.1 <> sub) kids).
Proof.
  intros Hreg Hin. apply list_elem_of_fmap in Hin as ([k c] & Hc & Hin). simpl in Hc. subst c.
  apply list_elem_of_filter in Hin as [Hne Hin]. simpl in Hne.
  apply Hne, Hreg. exact Hin.
Qed.




(** *** Splitting what was joined *)

Lemma unescape_escape s : unescapeJsonPath (escapeJsonPath s) = s.
Proof.
  induction s as [| c s IH]; [reflexivity |].
  cbn [escapeJsonPath].
  destruct (Ascii.eqb c "/") eqn:Hslash.
  - apply Ascii.eqb_eq in Hslash. subst c.
    cbn [unescapeJsonPath]. cbn. rewrite IH. reflexivity.
  - destruct (Ascii.eqb c "~") eqn:Htilde.
    + apply Ascii.eqb_eq in Htilde. subst c.
      cbn [unescapeJsonPath]. cbn. rewrite IH. reflexivity.
    + cbn [unescapeJsonPath]. rewrite Htilde. cbn [andb].
      destruct (escapeJsonPath s) as [| d rest] eqn:He.
      * destruct s as [| c' s']; [reflexivity |].
        cbn [escapeJsonPath] in He.
        destruct (Ascii.eqb c' "/"); [discriminate |].
        destruct (Ascii.eqb c' "~"); discriminate.
      * rewrite <- IH. reflexivity.
Qed.

Lemma no_slash_escape s : no_slash (escapeJsonPath s) = true.
Proof.
  induction s as [| c s IH]; [reflexivity |].
  cbn [escapeJsonPath].
  destruct (Ascii.eqb c "/") eqn:Hslash; [cbn; exact IH |].
  destruct (Ascii.eqb c "~") eqn:Htilde; [cbn; exact IH |].
  cbn [no_slash]. rewrite Hslash, IH. reflexivity.
Qed.

Lemma split_on_no_slash x : no_slash x = true -> split_on "/" x = [x].
Proof.
  induction x as [| c x IH]; intros Hx; [reflexivity |].
  cbn [no_slash] in Hx. apply andb_true_iff in Hx as [Hc Hx].
  apply negb_true_iff in Hc.
  cbn [split_on]. rewrite Hc, (IH Hx). reflexivity.
Qed.

Lemma split_on_slash x y :
  no_slash x = true -> split_on "/" (x +:+ String "/" y) = x :: split_on "/" y.
Proof.
  induction x as [| c x IH]; intros Hx.
  - reflexivity.
  - cbn [no_slash] in Hx. apply andb_true_iff in Hx as [Hc Hx].
    apply negb_true_iff in Hc.
    rewrite append_cons. cbn [split_on]. rewrite Hc, (IH Hx). reflexivity.
Qed.

Lemma split_on_join x l :
  no_slash x = true ->
  split_on "/" (x +:+ joinJsonPath l) = x :: map escapeJsonPath l.
Proof.
  revert x. induction l as [| y l IH]; intros x Hx.
  - cbn [joinJsonPath map]. rewrite append_empty_r. apply split_on_no_slash. exact Hx.
  - rewrite joinJsonPath_cons. rewrite (append_cons "/" "" _), append_empty_l.
    rewrite (split_on_slash _ _ Hx), (IH _ (no_slash_escape y)). reflexivity.
Qed.

Lemma map_unescape_escape l : map unescapeJsonPath (map escapeJsonPath l) = l.
Proof.
  induction l as [| x l IH]; [reflexivity |].
  cbn [map]. rewrite unescape_escape, IH. reflexivity.
Qed.

(** [splitJsonPath] undoes [joinJsonPath]. *)
Lemma split_join_path l : splitJsonPath (joinJsonPath l) = l.
Proof.
  destruct l as [| x l]; [reflexivity |].
  rewrite joinJsonPath_cons. unfold splitJsonPath.
  rewrite (append_cons "/" "" _), append_empty_l.
  cbn [split_on]. cbn [Ascii.eqb Bool.eqb]. cbn [map unescapeJsonPath].
  rewrite (split_on_join _ _ (no_slash_escape x)).
  change (escapeJsonPath x :: map escapeJsonPath l) with (map escapeJsonPath (x :: l)).
  apply map_unescape_escape.
Qed.

Lemma join_escaped x l :
  join "/" (map escapeJsonPath (x :: l)) = escapeJsonPath x +:+ joinJsonPath l.
Proof.
  destruct l as [| y l].
  - cbn [map join joinJsonPath]. rewrite append_empty_r. reflexivity.
  - reflexivity.
Qed.

Lemma map_repeat_dots {A} (f : A -> string) (x : A) k :
  f x = ".." -> map f (repeat x k) = repeat ".." k.
Proof.
  intros Hf. induction k as [| k IH]; [reflexivity |].
  cbn [repeat map]. rewrite Hf, IH. reflexivity.
Qed.

Lemma joinJsonPath_dots k :
  join "/" (map (fun _ : string => "..") (repeat ".." (S k)))
  = ".." +:+ joinJsonPath (repeat ".." k).
Proof.
  rewrite (map_repeat_dots (fun _ : string => "..") ".." (S k) eq_refl).
  rewrite <- (map_repeat_dots escapeJsonPath ".." (S k) eq_refl).
  change (repeat ".." (S k)) with (".." :: repeat ".." k).
  apply join_escaped.
Qed.

Lemma map_dots {A} (l : list A) :
  map (fun _ : A => "..") l = repeat ".." (length l).
Proof. induction l as [| x l IH]; [reflexivity | simpl; rewrite IH; reflexivity]. Qed.

(** The relative path that [getRelativePathTo] builds splits into as many
    ".." as it was given, followed by the remaining segments. *)
Lemma split_relative_path k rest :
  splitJsonPath (join "/" (map (fun _ : string => "..") (repeat ".." k))
                 +:+ joinJsonPath rest)
  = repeat ".." k ++ rest.
Proof.
  destruct k as [| k].
  - cbn [repeat map join]. rewrite append_empty_l. apply split_join_path.
  - rewrite joinJsonPath_dots, append_assoc, <- joinJsonPath_app.
    unfold splitJsonPath. rewrite split_on_join by reflexivity.
    cbn [map]. change (unescapeJsonPath "..") with "..".
    rewrite map_unescape_escape. reflexivity.
Qed.

(** *** Routes *)

Lemma end_of_cons top c nodes : end_of top (c :: nodes) = end_of c nodes.
Proof. apply top_of_cons. Qed.

Lemma route_length h top segs nodes :
  route h top segs nodes -> length segs = length nodes.
Proof. induction 1; simpl; congruence. Qed.

(** The end of a route has the ancestors and the segments that the route
    adds to those of its start. *)
Lemma route_ancestors h top segs nodes :
  route h top segs nodes ->
  forall ltop, ancestors h top ltop ->
    ancestors h (end_of top nodes) (up_chain top nodes ltop) /\
    segments h (end_of top nodes) (up_chain top nodes ltop) = segments h top ltop ++ segs /\
    length (up_chain top nodes ltop) = length ltop + length segs /\
    top_of (end_of top nodes) (up_chain top nodes ltop) = top_of top ltop.
Proof.
  induction 1 as [top | top td c cd segs nodes Htop Hreg Hc Hp Hroute IH]; intros ltop Hanc.
  - cbn [up_chain]. unfold end_of. cbn [List.last].
    rewrite app_nil_r. repeat split; [exact Hanc | simpl; lia].
  - rewrite end_of_cons. cbn [up_chain].
    assert (Hancc : ancestors h c (top :: ltop)).
    { eapply ancestors_step; eassumption. }
    destruct (IH _ Hancc) as (H1 & H2 & H3 & H4).
    split; [exact H1 |]. split; [| split].
    + rewrite H2. cbn [segments]. unfold subpath_of at 1. rewrite Hc.
      rewrite <- app_assoc. reflexivity.
    + rewrite H3. simpl. lia.
    + rewrite H4. apply top_of_cons.
Qed.

Lemma route_split h top segs nodes :
  route h top segs nodes ->
  forall k,
    route h top (take k segs) (take k nodes) /\
    route h (end_of top (take k nodes)) (drop k segs) (drop k nodes).
Proof.
  induction 1 as [top | top td c cd segs nodes Htop Hreg Hc Hp Hroute IH]; intros k.
  - destruct k; cbn; split; constructor.
  - destruct k as [| k].
    + cbn [take drop]. split; [constructor |].
      unfold end_of. cbn [List.last]. econstructor; eassumption.
    + cbn [take drop]. destruct (IH k) as [H1 H2]. split.
      * econstructor; eassumption.
      * rewrite end_of_cons. exact H2.
Qed.

(** Two routes from the same node agree on the nodes for as long as they
    agree on the subpaths. *)
Lemma route_common h top segsA nodesA :
  route h top segsA nodesA ->
  forall segsB nodesB, route h top segsB nodesB ->
    take (common_parts segsA segsB) nodesA = take (common_parts segsA segsB) nodesB.
Proof.
  induction 1 as [top | top td c cd segs nodes Htop Hreg Hc Hp Hroute IH];
    intros segsB nodesB HB.
  - reflexivity.
  - inversion HB as [| ? td' c' cd' segs' nodes' Htop' Hreg' Hc' Hp' Hroute']; subst.
    + reflexivity.
    + cbn [common_parts]. destruct (bool_decide (subpath cd = subpath cd')) eqn:Heq.
      * apply bool_decide_eq_true_1 in Heq.
        assert (td' = td) by congruence. subst td'.
        rewrite <- Heq in Hreg'. assert (c' = c) by congruence. subst c'.
        cbn [take]. f_equal. apply IH. exact Hroute'.
      * reflexivity.
Qed.

Lemma common_parts_le a b :
  common_parts a b <= length a /\ common_parts a b <= length b.
Proof.
  revert b. induction a as [| x a IH]; intros b; [simpl; lia |].
  destruct b as [| y b]; [simpl; lia |].
  cbn [common_parts]. destruct (bool_decide (x = y)); [| simpl; lia].
  destruct (IH b). simpl. lia.
Qed.

(** *** resolvePath along a route *)

Lemma resolvePath_dotdot fuel pp i rest c cd p f s :
  heap s !! c = Some cd -> _parent cd = Some p ->
  resolvePath_loop fuel pp i (".." :: rest) (Some c) f s
  = resolvePath_loop fuel pp (S i) rest (Some p) f s.
Proof.
  intros Hc Hp. cbn [resolvePath_loop].
  rewrite (bool_decide_eq_false_2 (".." = "")) by discriminate.
  rewrite (bool_decide_eq_true_2 (".." = "..")) by reflexivity.
  unfold parent. unfold bind at 1.
  rewrite (bind_ok _ _ _ _ _ (get_node_ok _ _ _ Hc)). unfold ret at 1.
  rewrite Hp. reflexivity.
Qed.

Lemma resolvePath_up h m segs nodes :
  route h m segs nodes ->
  forall fuel pp i rest f tr,
    resolvePath_loop fuel pp i (repeat ".." (length segs) ++ rest)
      (Some (end_of m nodes)) f (MkState h tr)
    = resolvePath_loop fuel pp (i + length segs) rest (Some m) f (MkState h tr).
Proof.
  induction 1 as [top | top td c cd segs nodes Htop Hreg Hc Hp Hroute IH];
    intros fuel pp i rest f tr.
  - cbn [length repeat app]. rewrite Nat.add_0_r. reflexivity.
  - rewrite end_of_cons. cbn [length].
    change (repeat ".." (S (length segs))) with (".." :: repeat ".." (length segs)).
    rewrite repeat_cons, <- app_assoc. cbn [app].
    rewrite IH. rewrite (resolvePath_dotdot _ _ _ _ c cd top) by assumption.
    rewrite Nat.add_succ_r. reflexivity.
Qed.

Lemma resolvePath_child fuel pp i rest c cd part child f s :
  ~ navigation_segment part ->
  heap s !! c = Some cd -> _isAlive cd = true ->
  lookup_child part (children cd) = Some child ->
  resolvePath_loop fuel pp i (part :: rest) (Some c) f s
  = resolvePath_loop fuel pp (S i) rest (Some child) f s.
Proof.
  intros Hnav Hc Halive Hreg. cbn [resolvePath_loop].
  rewrite (bool_decide_eq_false_2 (part = "")) by (intros ->; apply Hnav; left; reflexivity).
  rewrite (bool_decide_eq_false_2 (part = ".."))
    by (intros ->; apply Hnav; right; right; reflexivity).
  rewrite (bool_decide_eq_false_2 (part = "."))
    by (intros ->; apply Hnav; right; left; reflexivity).
  cbn [orb].
  assert (Hget : getChildNode c part s = (Ok child, s)).
  { unfold getChildNode, assertAlive, type_getChildNode.
    unfold bind at 1. rewrite (bind_ok _ _ _ _ _ (get_node_ok _ _ _ Hc)), Halive.
    unfold ret at 1. rewrite (bind_ok _ _ _ _ _ (get_node_ok _ _ _ Hc)), Hreg.
    reflexivity. }
  rewrite (bind_ok _ _ _ _ _ Hget). reflexivity.
Qed.

Lemma resolvePath_down h m segs nodes :
  route h m segs nodes ->
  Forall (fun seg => ~ navigation_segment seg) segs ->
  Forall (alive_in h) (removelast (m :: nodes)) ->
  forall fuel pp i f tr,
    resolvePath_loop fuel pp i segs (Some m) f (MkState h tr)
    = (Ok (Some (end_of m nodes)), MkState h tr).
Proof.
  induction 1 as [top | top td c cd segs nodes Htop Hreg Hc Hp Hroute IH];
    intros Hsegs Halive fuel pp i f tr.
  - reflexivity.
  - inversion Hsegs as [| ? ? Hseg Hsegs']; subst.
    change (removelast (top :: c :: nodes)) with (top :: removelast (c :: nodes)) in Halive.
    inversion Halive as [| ? ? (td' & Htop' & Ha) Halive']; subst.
    assert (td' = td) by congruence. subst td'.
    rewrite (resolvePath_child _ _ _ _ top td (subpath cd) c) by assumption.
    rewrite end_of_cons. apply IH; assumption.
Qed.

(** What [resolvePath] does with one segment: "" goes to the root, ".." to
    the parent, "." stays; ".." at a node without parent ends the resolution,
    in undefined or in the error, whose path is the slice up to [i - 1]. *)
Lemma resolvePath_by_segment fuel pp i rest c cd l f s :
  heap s !! c = Some cd -> ancestors (heap s) c l -> length l < fuel ->
  resolvePath_loop fuel pp i ("" :: rest) (Some c) f s
    = resolvePath_loop fuel pp (S i) rest (Some (top_of c l)) f s /\
  resolvePath_loop fuel pp i ("." :: rest) (Some c) f s
    = resolvePath_loop fuel pp (S i) rest (Some c) f s /\
  (_parent cd = None ->
   resolvePath_loop fuel pp i (".." :: rest) (Some c) f s
     = if f
       then (Throw (CouldNotResolve ".." (joinJsonPath (slice 0 (Z.of_nat i - 1) pp))), s)
       else (Ok None, s)).
Proof.
  intros Hc Hanc Hfuel. split; [| split].
  - cbn [resolvePath_loop]. rewrite (bool_decide_eq_true_2 ("" = "")) by reflexivity.
    rewrite (bind_ok _ _ _ _ _ (root_ok fuel s _ _ Hanc Hfuel)). reflexivity.
  - cbn [resolvePath_loop].
    rewrite (bool_decide_eq_false_2 ("." = "")) by discriminate.
    rewrite (bool_decide_eq_false_2 ("." = "..")) by discriminate.
    rewrite (bool_decide_eq_true_2 ("." = ".")) by reflexivity. reflexivity.
  - intros Hp. cbn [resolvePath_loop].
    rewrite (bool_decide_eq_false_2 (".." = "")) by discriminate.
    rewrite (bool_decide_eq_true_2 (".." = "..")) by reflexivity.
    unfold parent. unfold bind at 1.
    rewrite (bind_ok _ _ _ _ _ (get_node_ok _ _ _ Hc)). unfold ret at 1.
    rewrite Hp. destruct f; reflexivity.
Qed.

Lemma end_of_app top l1 l2 : end_of top (l1 ++ l2) = end_of (end_of top l1) l2.
Proof.
  revert top. induction l1 as [| x l1 IH]; intros top; [reflexivity |].
  change ((x :: l1) ++ l2) with (x :: (l1 ++ l2)).
  rewrite !end_of_cons. apply IH.
Qed.

Lemma split_relative_path_of (l : list string) rest :
  splitJsonPath (join "/" (map (fun _ : string => "..") l) +:+ joinJsonPath rest)
  = repeat ".." (length l) ++ rest.
Proof.
  rewrite map_dots.
  rewrite <- (map_repeat_dots (fun _ : string => "..") ".." (length l) eq_refl) at 1.
  apply split_relative_path.
Qed.

(** *** getRelativePathTo and resolve *)

(** C4, as the code has it.  Let [a] and [b] lie below the same root, at
    the ends of two routes: every node on the way from the root to [a] and
    to [b] is listed under its subpath in the child table of its parent.
    [getRelativePathTo] from [a] to [b] is one ".."
    for each segment of [a] past the longest common prefix of the two paths,
    joined by "/", followed by the remaining segments of [b], each after a
    slash.  Resolving that path from [a] yields [b], provided none of the
    remaining segments of [b] is "", "." or ".." and the nodes from the
    common ancestor down to the parent of [b] are alive.  Between nodes whose
    parent chains end in different roots [getRelativePathTo] raises the
    not-the-same-tree error. *)
Theorem relative_path_round_trip (fuel : nat) (s : state) (r : nid) (rd : node)
  (segsA segsB : list string) (nodesA nodesB : list nid)
  (Hr : heap s !! r = Some rd) (Hrp : _parent rd = None)
  (HA : route (heap s) r segsA nodesA)
  (HB : route (heap s) r segsB nodesB)
  (HfA : length segsA < fuel) (HfB : length segsB < fuel) :
  let a := end_of r nodesA in
  let b := end_of r nodesB in
  let common := common_parts segsA segsB in
  let rel := join "/" (map (fun _ : string => "..") (drop common segsA))
             +:+ joinJsonPath (drop common segsB) in
  getRelativePathTo fuel a b s = (Ok rel, s) /\
  (Forall (fun seg => ~ navigation_segment seg) (drop common segsB) ->
   Forall (alive_in (heap s))
     (removelast (end_of r (take common nodesB) :: drop common nodesB)) ->
   resolve fuel a rel true s = (Ok (Some b), s)) /\
  (forall x y lx ly,
     ancestors (heap s) x lx -> ancestors (heap s) y ly ->
     length lx < fuel -> length ly < fuel ->
     top_of x lx <> top_of y ly ->
     getRelativePathTo fuel x y s = (Throw NotSameTree, s)).
Proof.
  intros a b common rel.
  assert (Hroot : ancestors (heap s) r []) by (eapply ancestors_root; eassumption).
  destruct (route_ancestors _ _ _ _ HA [] Hroot) as (HancA & HsegA & HlenA & HtopA).
  destruct (route_ancestors _ _ _ _ HB [] Hroot) as (HancB & HsegB & HlenB & HtopB).
  fold a in HancA, HsegA, HtopA. fold b in HancB, HsegB, HtopB.
  cbn [segments app length Nat.add] in HsegA, HsegB, HlenA, HlenB.
  unfold top_of in HtopA at 2. unfold top_of in HtopB at 2. cbn [List.last] in HtopA, HtopB.
  split; [| split].
  - unfold getRelativePathTo.
    rewrite (bind_ok _ _ _ _ _ (root_ok fuel s _ _ HancA ltac:(lia))).
    rewrite (bind_ok _ _ _ _ _ (root_ok fuel s _ _ HancB ltac:(lia))).
    rewrite HtopA, HtopB.
    rewrite (bool_decide_eq_false_2 (r <> r)) by (intros H; apply H; reflexivity).
    rewrite (bind_ok _ _ _ _ _ (path_ok fuel s _ _ HancA ltac:(lia))).
    rewrite (bind_ok _ _ _ _ _ (path_ok fuel s _ _ HancB ltac:(lia))).
    rewrite HsegA, HsegB, !split_join_path. reflexivity.
  - intros Hnav Halive. unfold resolve, resolvePath, rel.
    rewrite split_relative_path_of.
    destruct (route_split _ _ _ _ HA common) as [_ HA2].
    destruct (route_split _ _ _ _ HB common) as [_ HB2].
    pose proof (route_common _ _ _ _ HA _ _ HB) as Hcom. fold common in Hcom.
    rewrite <- Hcom in HB2, Halive.
    assert (Ha : a = end_of (end_of r (take common nodesA)) (drop common nodesA)).
    { unfold a. rewrite <- end_of_app, take_drop. reflexivity. }
    assert (Hb : b = end_of (end_of r (take common nodesA)) (drop common nodesB)).
    { unfold b. rewrite Hcom, <- end_of_app, take_drop. reflexivity. }
    rewrite <- (state_eta s). rewrite Ha.
    rewrite (resolvePath_up _ _ _ _ HA2).
    rewrite (resolvePath_down _ _ _ _ HB2 Hnav Halive). rewrite <- Hb. reflexivity.
  - intros x y lx ly Hx Hy Hlx Hly Hne. unfold getRelativePathTo.
    rewrite (bind_ok _ _ _ _ _ (root_ok fuel s _ _ Hx Hlx)).
    rewrite (bind_ok _ _ _ _ _ (root_ok fuel s _ _ Hy Hly)).
    rewrite (bool_decide_eq_true_2 _ Hne). reflexivity.
Qed.

Lemma relative_path_round_trip_witness :
  getRelativePathTo 5 1%positive 3%positive abTree = (Ok "/a/b", abTree) /\
  resolve 5 1%positive "/a/b" true abTree = (Ok (Some 3%positive), abTree) /\
  getRelativePathTo 5 3%positive 2%positive abTree = (Ok "..", abTree) /\
  resolve 5 3%positive ".." true abTree = (Ok (Some 2%positive), abTree) /\
  getRelativePathTo 5 1%positive 3%positive abTree_after_death
    = (Throw NotSameTree, abTree_after_death).
Proof.
  assert (HB : route (heap abTree) 1%positive ["a"; "b"] [2%positive; 3%positive]).
  { eapply (route_step _ 1%positive _ 2%positive
              (sample_node NodeC "A" 2%positive (Some 1%positive) "a" [("b", 3%positive)]));
      [reflexivity | reflexivity | reflexivity | reflexivity |].
    eapply (route_step _ 2%positive _ 3%positive
              (MkNode ImmutableNodeC "number" (Some 2%positive) "b" false None true None
                 VUndefined true false [] [] [] [] None [] [] (VNum 1) (VNum 1) None None));
      [reflexivity | reflexivity | reflexivity | reflexivity |].
    apply route_here. }
  assert (HA : route (heap abTree) 1%positive ["a"] [2%positive]).
  { eapply (route_step _ 1%positive _ 2%positive
              (sample_node NodeC "A" 2%positive (Some 1%positive) "a" [("b", 3%positive)]));
      [reflexivity | reflexivity | reflexivity | reflexivity |].
    apply route_here. }
  destruct (relative_path_round_trip 5 abTree 1%positive _ [] ["a"; "b"] []
              [2%positive; 3%positive] eq_refl eq_refl (route_here _ _) HB
              ltac:(simpl; lia) ltac:(simpl; lia)) as (H1 & H2 & _).
  destruct (relative_path_round_trip 5 abTree 1%positive _ ["a"; "b"] ["a"]
              [2%positive; 3%positive] [2%positive] eq_refl eq_refl HB HA
              ltac:(simpl; lia) ltac:(simpl; lia)) as (H3 & H4 & _).
  destruct (relative_path_round_trip 5 abTree_after_death 1%positive _ [] [] [] []
              eq_refl eq_refl (route_here _ _) (route_here _ _)
              ltac:(simpl; lia) ltac:(simpl; lia)) as (_ & _ & H5).
  split; [exact H1 |]. split; [| split; [exact H3 | split]].
  - apply H2.
    + repeat constructor; intros [H | [H | H]]; discriminate H.
    + repeat constructor; eexists; split; reflexivity.
  - apply H4; constructor.
  - apply (H5 1%positive 3%positive [] [2%positive]).
    + eapply ancestors_root; reflexivity.
    + eapply ancestors_step; [reflexivity | reflexivity |].
      eapply ancestors_root; reflexivity.
    + simpl; lia.
    + simpl; lia.
    + discriminate.
Defined.

(** Three pairs of live nodes below one root whose relative path does not
    lead from the one to the other.
    In [dotsTree] the root and the node under the key ".." are alive and
    share the root; the relative path from the root to that node is "/m/..",
    and resolving it from the root ends at the root, not at the node.
    In [twoTrees], once [setParent] has given the node 5 the node 2 as its
    parent under the subpath "c", the node 5 lies at /a/c below the root 1;
    [setParent] does not enter it into the child table of the node 2, and
    resolving "/a/c" from the root finds no child "c".
    In [leavesTree], after [die] on the node 2, the leaves 3 and 4 are
    alive below the dead node 2, which is their root; the relative path from
    the leaf 4 to the leaf 3 is "../b", and resolving it raises at the dead
    node in between. *)
Lemma relative_path_can_miss :
  (alive_in (heap dotsTree) 1%positive /\
   alive_in (heap dotsTree) 3%positive /\
   root 5 1%positive dotsTree = (Ok 1%positive, dotsTree) /\
   root 5 3%positive dotsTree = (Ok 1%positive, dotsTree) /\
   getRelativePathTo 5 1%positive 3%positive dotsTree = (Ok "/m/..", dotsTree) /\
   resolve 5 1%positive "/m/.." true dotsTree = (Ok (Some 1%positive), dotsTree) /\
   resolve 5 1%positive "/m/.." true dotsTree <> (Ok (Some 3%positive), dotsTree)) /\
  (let s := snd (setParent 5 5%positive (Some 2%positive) (Some "c") twoTrees) in
   alive_in (heap s) 1%positive /\
   alive_in (heap s) 5%positive /\
   root 5 1%positive s = (Ok 1%positive, s) /\
   root 5 5%positive s = (Ok 1%positive, s) /\
   getRelativePathTo 5 1%positive 5%positive s = (Ok "/a/c", s) /\
   resolve 5 1%positive "/a/c" true s = (Throw (NoSuchChild "c"), s)) /\
  (let s := snd (die 5 2%positive leavesTree) in
   alive_in (heap s) 4%positive /\
   alive_in (heap s) 3%positive /\
   root 5 4%positive s = (Ok 2%positive, s) /\
   root 5 3%positive s = (Ok 2%positive, s) /\
   getRelativePathTo 5 4%positive 3%positive s = (Ok "../b", s) /\
   resolve 5 4%positive "../b" true s = (Throw NodeDied, s)).
Proof.
  split; [| split].
  - repeat split; try (eexists; split; reflexivity); try (vm_compute; reflexivity).
    intros H. vm_compute in H. discriminate H.
  - cbv zeta. repeat split; try (vm_compute; reflexivity);
      eexists; split; vm_compute; reflexivity.
  - cbv zeta. repeat split; try (vm_compute; reflexivity);
      eexists; split; vm_compute; reflexivity.
Qed.

(** *** What a processor leaves alone *)

Lemma tree_induction (P : tree -> Prop) :
  (forall n kids, Forall P kids -> P (TNode n kids)) -> forall t, P t.
Proof.
  intros H. fix IH 1. intros [n kids]. apply H.
  induction kids as [| k kids IHk]; constructor; [apply IH | exact IHk].
Qed.

Section Frame.
Variable x : nid.

Lemma frame_ret {A} (a : A) : frame_except x (ret a).
Proof. intros s y _. reflexivity. Qed.

Lemma frame_throw {A} e : frame_except x (@throw A e).
Proof. intros s y _. reflexivity. Qed.

Lemma frame_stuck {A} : frame_except x (@stuck A).
Proof. intros s y _. reflexivity. Qed.

Lemma frame_bind {A B} (c : M A) (k : A -> M B) :
  frame_except x c -> (forall a, frame_except x (k a)) -> frame_except x (bind c k).
Proof.
  intros Hc Hk s y Hy. unfold bind. specialize (Hc s y Hy).
  destruct (c s) as [[a | e |] s']; simpl in *; [| assumption | assumption].
  rewrite (Hk a s' y Hy). exact Hc.
Qed.

Lemma frame_read {A} (f : state -> option A) :
  frame_except x (fun s => lift_option (f s) s).
Proof. intros s y _. destruct (f s); reflexivity. Qed.

Lemma frame_emit e : frame_except x (emit e).
Proof. intros s y _. reflexivity. Qed.

Lemma frame_upd_here f : frame_except x (upd_node x f).
Proof.
  intros s y Hy. unfold upd_node. destruct (heap s !! x) as [nd |]; [| reflexivity].
  simpl. unfold skel_of. rewrite lookup_insert_ne by congruence. reflexivity.
Qed.

Lemma frame_upd_skel n f :
  (forall nd, treenode (f nd) = treenode nd /\ _isAlive (f nd) = _isAlive nd /\
              children (f nd) = children nd) ->
  frame_except x (upd_node n f).
Proof.
  intros Hf s y Hy. unfold upd_node. destruct (heap s !! n) as [nd |] eqn:Hn; [| reflexivity].
  simpl. unfold skel_of. destruct (decide (n = y)) as [-> | Hne].
  - rewrite lookup_insert_eq, Hn. destruct (Hf nd) as (-> & -> & ->). reflexivity.
  - rewrite lookup_insert_ne by assumption. reflexivity.
Qed.

Lemma frame_forEach {A} (l : list A) (f : A -> M unit) :
  (forall a, frame_except x (f a)) -> frame_except x (forEach l f).
Proof.
  intros Hf. induction l as [| a l IH]; simpl.
  - apply frame_ret.
  - apply frame_bind; [apply Hf | intros _; exact IH].
Qed.

End Frame.

Ltac frame_field := intros []; simpl; repeat split; reflexivity.

Ltac frames :=
  repeat first
    [ apply frame_ret | apply frame_throw | apply frame_stuck | apply frame_emit
    | apply (frame_read _ (fun s => heap s !! _))
    | apply (frame_read _ (fun s => root_of _ (heap s) _))
    | apply (frame_read _ (fun s => path_of _ (heap s) _))
    | apply frame_upd_here
    | apply frame_upd_skel; frame_field
    | apply frame_forEach; intros ?
    | apply frame_bind; [| intros ?]
    | match goal with
      | |- frame_except _ (match ?b with _ => _ end) => destruct b
      end ].

Lemma frame_Node_aboutToDie x : frame_except x (Node_aboutToDie x).
Proof. unfold Node_aboutToDie, fireHook, get_node. frames. Qed.

Lemma frame_Node_finalizeDeath fuel x : frame_except x (Node_finalizeDeath fuel x).
Proof. unfold Node_finalizeDeath, snapshot, root, path, get_node. frames. Qed.

Lemma owns_skel h1 h2 x : skel_of h1 x = skel_of h2 x -> owns h2 x -> owns h1 x.
Proof.
  unfold skel_of, owns. intros Heq (nd & Hx & Ht). rewrite Hx in Heq.
  destruct (h1 !! x) as [nd1 |]; [| discriminate].
  exists nd1. split; [reflexivity | congruence].
Qed.

Lemma processor_owner (k : nid -> M unit) s x :
  owns (heap s) x -> (do c <- getStateTreeNode x; k c) s = k x s.
Proof.
  intros (nd & Hx & Ht). unfold getStateTreeNode.
  unfold bind at 1. rewrite (bind_ok _ _ _ _ _ (get_node_ok _ _ _ Hx)), Ht. reflexivity.
Qed.

Lemma aboutToDie_processor_local : local_processor aboutToDie_processor.
Proof.
  intros x s y Hx Hy. unfold aboutToDie_processor. rewrite (processor_owner _ _ _ Hx).
  revert s y Hx Hy.
  assert (H : frame_except x (aboutToDie x)).
  { unfold aboutToDie, get_node. apply frame_bind; [frames | intros nd].
    destruct (cls nd); [apply frame_throw | apply frame_Node_aboutToDie]. }
  intros s y _ Hy. apply H. exact Hy.
Qed.

Lemma finalizeDeath_processor_local fuel : local_processor (finalizeDeath_processor fuel).
Proof.
  intros x s y Hx Hy. unfold finalizeDeath_processor. rewrite (processor_owner _ _ _ Hx).
  revert s y Hx Hy.
  assert (H : frame_except x (finalizeDeath fuel x)).
  { unfold finalizeDeath, get_node. apply frame_bind; [frames | intros nd].
    destruct (cls nd); [apply frame_throw | apply frame_Node_finalizeDeath]. }
  intros s y _ Hy. apply H. exact Hy.
Qed.

Lemma forEach_app {A} (l1 l2 : list A) (f : A -> M unit) s :
  forEach (l1 ++ l2) f s = (run forEach l1 f; forEach l2 f) s.
Proof.
  revert s. induction l1 as [| a l1 IH]; intros s.
  - reflexivity.
  - cbn [app forEach]. unfold bind in *.
    destruct (f a s) as [[[] | e |] s1]; [apply IH | reflexivity | reflexivity].
Qed.

Lemma bind_ret_tt (c : M unit) s : (run c; ret tt) s = c s.
Proof. unfold bind, ret. destruct (c s) as [[[] | e |] s1]; reflexivity. Qed.

(** A local processor run over distinct owners changes what [walk] reads at
    those nodes only. *)
Lemma forEach_local proc :
  local_processor proc ->
  forall l s, NoDup l -> (forall x, x ∈ l -> owns (heap s) x) ->
    forall y, y ∉ l -> skel_of (heap (snd (forEach l proc s))) y = skel_of (heap s) y.
Proof.
  intros Hloc l. induction l as [| x l IH]; intros s Hnd Hown y Hy; [reflexivity |].
  cbn [forEach]. unfold bind.
  apply NoDup_cons in Hnd as [Hx Hnd].
  assert (Hstep : forall z, z <> x -> skel_of (heap (snd (proc x s))) z = skel_of (heap s) z).
  { intros z Hz. apply Hloc; [apply Hown; left | exact Hz]. }
  assert (Hyx : y <> x) by (intros ->; apply Hy; left).
  destruct (proc x s) as [[[] | e |] s1] eqn:Hp; simpl in *; try (apply Hstep; exact Hyx).
  rewrite IH.
  - apply Hstep. exact Hyx.
  - exact Hnd.
  - intros z Hz. eapply owns_skel; [apply Hstep | apply Hown; right; exact Hz].
    intros ->. contradiction.
  - intros Hin. apply Hy. right. exact Hin.
Qed.

(** *** walk visits the tree in postorder *)

Lemma skel_agree_lookup h0 h y nd :
  skel_of h y = skel_of h0 y -> h0 !! y = Some nd ->
  exists nd', h !! y = Some nd' /\ treenode nd' = treenode nd /\
              _isAlive nd' = _isAlive nd /\ children nd' = children nd.
Proof.
  unfold skel_of. intros Heq Hy. rewrite Hy in Heq.
  destruct (h !! y) as [nd' |]; [| discriminate].
  injection Heq as H1 H2 H3. exists nd'. repeat split; assumption.
Qed.

Lemma subtree_owns h up t :
  subtree h up t -> forall x, x ∈ postorder t -> owns h x /\ attached h x = true.
Proof.
  revert up. induction t as [n kids IH] using tree_induction. intros up Hsub x Hx.
  inversion Hsub as [? ? nd ? Hn Hc Ha Ht Hp Hex Hfil Hkids]; subst.
  cbn [postorder] in Hx. apply elem_of_app in Hx as [Hx | Hx].
  - apply list_elem_of_In, in_flat_map in Hx as (k & Hk & Hx).
    apply list_elem_of_In in Hk, Hx.
    rewrite Forall_forall in IH, Hkids.
    eapply IH; [exact Hk | apply Hkids; exact Hk | exact Hx].
  - apply list_elem_of_singleton in Hx. subst x. split.
    + exists nd. split; assumption.
    + unfold attached. rewrite Hn, Ht. reflexivity.
Qed.

Lemma depth_kids n kids f :
  depth (TNode n kids) <= S f -> Forall (fun k => depth k <= f) kids.
Proof.
  cbn [depth]. intros H. apply Forall_forall. intros k Hk.
  assert (Hmax : list_max (map depth kids) <= f) by lia.
  apply list_max_le in Hmax. rewrite List.Forall_forall in Hmax.
  apply Hmax. apply in_map. apply list_elem_of_In. exact Hk.
Qed.

Lemma walk_children proc h0 f up :
  local_processor proc ->
  forall cs kids s (D : list nid),
    Forall (fun k =>
              forall s' (D' : list nid), depth k <= f -> NoDup (postorder k) ->
                (forall y, y ∈ D' -> y ∉ postorder k) ->
                (forall y, y ∈ D' -> attached h0 y = true) ->
                (forall y, y ∉ D' -> skel_of (heap s') y = skel_of h0 y) ->
                walk f proc (tid k) s' = forEach (postorder k) proc s') kids ->
    Forall (subtree h0 up) kids ->
    Forall (fun k => depth k <= f) kids ->
    Forall (fun c => exists cd, h0 !! c = Some cd) cs ->
    filter (fun c => attached h0 c = true) cs = map tid kids ->
    NoDup (flat_map postorder kids) ->
    (forall y, y ∈ D -> y ∉ flat_map postorder kids) ->
    (forall y, y ∈ D -> attached h0 y = true) ->
    (forall y, y ∉ D -> skel_of (heap s) y = skel_of h0 y) ->
    forEach cs (fun child =>
                  do a <- isStateTreeNode child;
                  if a then walk f proc child else ret tt) s
    = forEach (flat_map postorder kids) proc s.
Proof.
  intros Hloc cs. induction cs as [| c cs IHcs];
    intros kids s D HIH Hsub Hdepth Hex Hfil Hnd HD Hatt Hagree.
  - rewrite filter_nil in Hfil. destruct kids; [reflexivity | discriminate].
  - inversion Hex as [| ? ? (cd & Hcd) Hex']; subst.
    rewrite filter_cons in Hfil.
    destruct (decide (attached h0 c = true)) as [Hc | Hc].
    + destruct kids as [| k kids]; [discriminate |].
      cbn [map] in Hfil. injection Hfil as Hck Hfil. subst c.
      inversion HIH as [| ? ? HIHk HIH']; subst.
      inversion Hsub as [| ? ? Hsubk Hsub']; subst.
      inversion Hdepth as [| ? ? Hdk Hdepth']; subst.
      cbn [flat_map] in *. apply NoDup_app in Hnd as (Hndk & Hdisj & Hnd').
      assert (HkD : tid k ∉ D).
      { intros Hin. apply (HD _ Hin). apply elem_of_app. left.
        destruct k as [n kk]. cbn [postorder tid]. apply elem_of_app. right. left. }
      destruct (skel_agree_lookup _ _ _ _ (Hagree _ HkD) Hcd)
        as (cd' & Hcd' & Ht' & _ & _).
      assert (Hattached : isStateTreeNode (tid k) s = (Ok true, s)).
      { unfold isStateTreeNode. rewrite (bind_ok _ _ _ _ _ (get_node_ok _ _ _ Hcd')).
        rewrite Ht'. unfold attached in Hc. rewrite Hcd in Hc. rewrite Hc. reflexivity. }
      cbn [forEach]. rewrite forEach_app.
      unfold bind at 1. rewrite (bind_ok _ _ _ _ _ Hattached).
      rewrite (HIHk s D Hdk Hndk).
      * unfold bind at 2.
        destruct (forEach (postorder k) proc s) as [[[] | e |] s1] eqn:Hrun;
          [| reflexivity | reflexivity].
        apply (IHcs kids s1 (D ++ postorder k)); try assumption.
        -- intros y Hy. apply elem_of_app in Hy as [Hy | Hy].
           ++ intros Hin. apply (HD _ Hy). apply elem_of_app. right. exact Hin.
           ++ intros Hin. apply (Hdisj _ Hy Hin).
        -- intros y Hy. apply elem_of_app in Hy as [Hy | Hy]; [apply Hatt; exact Hy |].
           apply (subtree_owns _ _ _ Hsubk _ Hy).
        -- intros y Hy. rewrite not_elem_of_app in Hy. destruct Hy as [HyD Hyk].
           replace s1 with (snd (forEach (postorder k) proc s)) by (rewrite Hrun; reflexivity).
           rewrite (forEach_local proc Hloc (postorder k) s Hndk); [apply Hagree; exact HyD | | exact Hyk].
           intros z Hz. eapply owns_skel; [| apply (subtree_owns _ _ _ Hsubk _ Hz)].
           apply Hagree. intros Hin. apply (HD _ Hin). apply elem_of_app. left. exact Hz.
      * intros y Hy Hin. apply (HD _ Hy). apply elem_of_app. left. exact Hin.
      * exact Hatt.
      * exact Hagree.
    + assert (HcD : c ∉ D) by (intros Hin; apply Hc, Hatt; exact Hin).
      destruct (skel_agree_lookup _ _ _ _ (Hagree _ HcD) Hcd)
        as (cd' & Hcd' & Ht' & _ & _).
      assert (Hattached : isStateTreeNode c s = (Ok false, s)).
      { unfold isStateTreeNode. rewrite (bind_ok _ _ _ _ _ (get_node_ok _ _ _ Hcd')).
        rewrite Ht'. unfold attached in Hc. rewrite Hcd in Hc.
        apply not_true_is_false in Hc. rewrite Hc. reflexivity. }
      cbn [forEach]. unfold bind at 1. rewrite (bind_ok _ _ _ _ _ Hattached).
      unfold ret at 1. apply (IHcs kids s D); assumption.
Qed.

Lemma bind_congr {A B} (c1 c2 : M A) (k1 k2 : A -> M B) s :
  c1 s = c2 s -> (forall a s', k1 a s' = k2 a s') -> bind c1 k1 s = bind c2 k2 s.
Proof.
  intros Hc Hk. unfold bind. rewrite Hc.
  destruct (c2 s) as [[a | e |] s1]; [apply Hk | reflexivity | reflexivity].
Qed.

Lemma walk_postorder proc h0 :
  local_processor proc ->
  forall t up, subtree h0 up t ->
  forall fuel s (D : list nid), depth t <= fuel -> NoDup (postorder t) ->
    (forall y, y ∈ D -> y ∉ postorder t) ->
    (forall y, y ∈ D -> attached h0 y = true) ->
    (forall y, y ∉ D -> skel_of (heap s) y = skel_of h0 y) ->
    walk fuel proc (tid t) s = forEach (postorder t) proc s.
Proof.
  intros Hloc t. induction t as [n kids IH] using tree_induction.
  intros up Hsub fuel s D Hfuel Hnd HD Hatt Hagree.
  inversion Hsub as [? ? nd ? Hn Hc Ha Ht Hp Hex Hfil Hkids]; subst.
  destruct fuel as [| f]; [cbn [depth] in Hfuel; lia |].
  cbn [tid postorder walk]. cbn [postorder] in Hnd, HD.
  apply NoDup_app in Hnd as (Hndk & Hdisj & _).
  assert (HnD : n ∉ D).
  { intros Hin. apply (HD _ Hin). apply elem_of_app. right. left. }
  destruct (skel_agree_lookup _ _ _ _ (Hagree _ HnD) Hn) as (nd' & Hn' & Ht' & Ha' & Hk').
  assert (Hget : getStateTreeNode n s = (Ok n, s)).
  { unfold getStateTreeNode. rewrite (bind_ok _ _ _ _ _ (get_node_ok _ _ _ Hn')).
    rewrite Ht', Ht. reflexivity. }
  assert (Hkidsget : getChildren n s = (Ok (type_getChildren nd), s)).
  { unfold getChildren, assertAlive. unfold bind at 1.
    rewrite (bind_ok _ _ _ _ _ (get_node_ok _ _ _ Hn')), Ha', Ha. unfold ret at 1.
    rewrite (bind_ok _ _ _ _ _ (get_node_ok _ _ _ Hn')).
    unfold type_getChildren. rewrite Hk'. reflexivity. }
  rewrite (bind_ok _ _ _ _ _ Hget), (bind_ok _ _ _ _ _ Hkidsget).
  rewrite forEach_app.
  apply bind_congr; [| intros [] s1; cbn [forEach]; symmetry; apply bind_ret_tt].
  apply (walk_children proc h0 f (n :: up) Hloc (type_getChildren nd) kids s D).
  - apply Forall_forall. intros k Hk s' D' Hdk Hndk' HD' Hatt' Hagree'.
    rewrite Forall_forall in IH, Hkids.
    eapply (IH k Hk); eauto.
  - exact Hkids.
  - apply (depth_kids n). exact Hfuel.
  - exact Hex.
  - exact Hfil.
  - exact Hndk.
  - intros y Hy Hin. apply (HD _ Hy). apply elem_of_app. left. exact Hin.
  - exact Hatt.
  - exact Hagree.
Qed.

(** *** The two phases of die *)

Lemma frame_aboutToDie x : frame_except x (aboutToDie x).
Proof.
  unfold aboutToDie, get_node. apply frame_bind; [frames | intros nd].
  destruct (cls nd); [apply frame_throw | apply frame_Node_aboutToDie].
Qed.

Lemma frame_finalizeDeath fuel x : frame_except x (finalizeDeath fuel x).
Proof.
  unfold finalizeDeath, get_node. apply frame_bind; [frames | intros nd].
  destruct (cls nd); [apply frame_throw | apply frame_Node_finalizeDeath].
Qed.

Lemma bind_congr_at {A B} (c1 c2 : M A) (k1 k2 : A -> M B) s :
  c1 s = c2 s -> (forall a s', c2 s = (Ok a, s') -> k1 a s' = k2 a s') ->
  bind c1 k1 s = bind c2 k2 s.
Proof.
  intros Hc Hk. unfold bind. rewrite Hc.
  destruct (c2 s) as [[a | e |] s1]; [apply Hk | reflexivity | reflexivity]. reflexivity.
Qed.

(** On nodes that own their stored values the processor of [die] is the
    method itself. *)
Lemma forEach_owner (k : nid -> M unit) :
  (forall x, frame_except x (k x)) ->
  forall l s, NoDup l -> (forall x, x ∈ l -> owns (heap s) x) ->
    forEach l (fun child => do c <- getStateTreeNode child; k c) s = forEach l k s.
Proof.
  intros Hk l. induction l as [| x l IH]; intros s Hnd Hown; [reflexivity |].
  apply NoDup_cons in Hnd as [Hx Hnd]. cbn [forEach].
  apply bind_congr_at; [apply processor_owner; apply Hown; left |].
  intros [] s1 Hrun.
  apply IH; [exact Hnd |].
  intros z Hz. eapply owns_skel; [| apply Hown; right; exact Hz].
  replace s1 with (snd (k x s)) by (rewrite Hrun; reflexivity).
  apply Hk. intros ->. contradiction.
Qed.

Lemma aboutToDie_ok s x nd :
  heap s !! x = Some nd -> cls nd = NodeC ->
  aboutToDie x s =
    (Ok tt, MkState (<[x := set_disposers [] nd]> (heap s))
              (trace s ++ dying_calls (heap s) x)).
Proof.
  intros Hx Hc. unfold aboutToDie, Node_aboutToDie.
  rewrite (bind_ok _ _ _ _ _ (get_node_ok _ _ _ Hx)), Hc.
  rewrite (bind_ok _ _ _ _ _ (get_node_ok _ _ _ Hx)).
  rewrite (bind_ok _ _ _ _ _ (upd_node_ok _ _ _ _ Hx)).
  rewrite (bind_ok _ _ _ _ _ (forEach_emit (disposers nd) (DisposerCalled x) _ _)).
  assert (Hx' : heap (MkState (<[x := set_disposers [] nd]> (heap s))
                        (trace s ++ map (DisposerCalled x) (disposers nd))) !! x
                = Some (set_disposers [] nd)).
  { cbn [heap]. apply lookup_insert_eq. }
  rewrite (fireHook_ok _ _ _ _ Hx'). cbn [heap trace].
  unfold dying_calls, hook_call, disposers_of, hooks_of. rewrite Hx.
  replace (hooks (set_disposers [] nd)) with (hooks nd) by (destruct nd; reflexivity).
  rewrite <- app_assoc. reflexivity.
Qed.

Lemma flat_map_ext_elem {A B} (f g : A -> list B) (l : list A) :
  (forall a, a ∈ l -> f a = g a) -> flat_map f l = flat_map g l.
Proof.
  induction l as [| a l IH]; intros H; [reflexivity |].
  cbn [flat_map]. rewrite (H a) by left. rewrite IH; [reflexivity |].
  intros b Hb. apply H. right. exact Hb.
Qed.

Lemma aboutToDie_all l :
  forall s, NoDup l ->
    (forall x, x ∈ l -> exists nd, heap s !! x = Some nd /\ cls nd = NodeC) ->
    exists s1,
      forEach l aboutToDie s = (Ok tt, s1) /\
      trace s1 = trace s ++ flat_map (dying_calls (heap s)) l /\
      (forall y, y ∉ l -> heap s1 !! y = heap s !! y) /\
      (forall x, x ∈ l ->
         exists nd, heap s !! x = Some nd /\ heap s1 !! x = Some (set_disposers [] nd)).
Proof.
  induction l as [| x l IH]; intros s Hnd Hnodes.
  - exists s. cbn [forEach flat_map]. rewrite app_nil_r.
    split; [reflexivity |]. split; [reflexivity |]. split; [reflexivity |].
    intros y Hy. inversion Hy.
  - apply NoDup_cons in Hnd as [Hx Hnd].
    destruct (Hnodes x ltac:(left)) as (nd & Hnx & Hc).
    set (s' := MkState (<[x := set_disposers [] nd]> (heap s))
                 (trace s ++ dying_calls (heap s) x)).
    assert (Hother : forall y, y <> x -> heap s' !! y = heap s !! y).
    { intros y Hy. cbn [s' heap]. apply lookup_insert_ne. congruence. }
    destruct (IH s' Hnd) as (s1 & Hrun & Htr & Hout & Hin).
    { intros y Hy. rewrite Hother by (intros ->; contradiction).
      apply Hnodes. right. exact Hy. }
    exists s1. split; [| split; [| split]].
    + cbn [forEach]. rewrite (bind_ok _ _ _ _ _ (aboutToDie_ok _ _ _ Hnx Hc)). exact Hrun.
    + rewrite Htr. cbn [s' trace flat_map]. rewrite <- app_assoc. do 2 f_equal.
      apply flat_map_ext_elem. intros y Hy.
      unfold dying_calls, disposers_of, hooks_of.
      rewrite Hother by (intros ->; contradiction). reflexivity.
    + intros y Hy. rewrite not_elem_of_cons in Hy. destruct Hy as [Hyx Hyl].
      rewrite (Hout y Hyl). apply Hother. exact Hyx.
    + intros y Hy. apply elem_of_cons in Hy as [-> | Hy].
      * exists nd. split; [exact Hnx |]. rewrite (Hout x Hx). cbn [s' heap].
        apply lookup_insert_eq.
      * destruct (Hin y Hy) as (yd & Hy1 & Hy2). exists yd. split; [| exact Hy2].
        rewrite <- Hy1. symmetry. apply Hother. intros ->. contradiction.
Qed.

Lemma upd_node_bind {B} s x f nd (k : unit -> M B) :
  heap s !! x = Some nd ->
  bind (upd_node x f) k s = k tt (MkState (<[x := f nd]> (heap s)) (trace s)).
Proof. intros Hx. rewrite (bind_ok _ _ _ _ _ (upd_node_ok _ _ _ _ Hx)). reflexivity. Qed.

Ltac upd_here :=
  match goal with
  | |- context [bind (upd_node ?x ?f) ?k (MkState (<[?x := ?v]> ?h) ?tr)] =>
      rewrite (upd_node_bind (MkState (<[x := v]> h) tr) x f v k (lookup_insert_eq h x v));
      cbv beta; cbn [heap trace]; rewrite insert_insert_eq
  end.

(** The node as [finalizeDeath] leaves it. *)
Lemma finalizeDeath_ok fuel s x nd up rd c :
  heap s !! x = Some nd -> cls nd = NodeC ->
  ancestors (heap s) x up -> length up < fuel ->
  heap s !! top_of x up = Some rd -> identifierCache rd = Some c ->
  exists s' nd',
    finalizeDeath fuel x s = (Ok tt, s') /\
    trace s' = trace s /\
    (forall y, y <> x -> y <> top_of x up -> heap s' !! y = heap s !! y) /\
    (top_of x up <> x ->
     heap s' !! top_of x up
       = Some (set_identifierCache (Some (IdCache.notifyDied c x)) rd)) /\
    heap s' !! x = Some nd' /\
    _isAlive nd' = false /\ _parent nd' = None /\ subpath nd' = "" /\
    patchSubscribers nd' = [] /\ snapshotSubscribers nd' = [] /\
    frozenSnapshot nd' = Some (snapshot_of nd).
Proof.
  intros Hx Hc Hanc Hfuel Hr Hcache.
  set (h := heap s) in *. set (R := top_of x up) in *.
  set (g := set_identifierCache (Some (IdCache.notifyDied c x))).
  set (h1 := alter g R h).
  assert (Hpar1 : forall y, parent_of h1 y = parent_of h y).
  { intros y. unfold h1. apply parent_of_alter. intros []; reflexivity. }
  assert (Hanc1 : ancestors h1 x up).
  { eapply ancestors_ext; [| exact Hanc]. intros y. symmetry. apply Hpar1. }
  assert (Hx1 : exists nd1, h1 !! x = Some nd1 /\ snapshot_of nd1 = snapshot_of nd /\
                            (R <> x -> nd1 = nd)).
  { unfold h1. rewrite lookup_alter. destruct (decide (R = x)) as [Heq | Hne].
    - rewrite Hr. rewrite Heq in Hr. assert (rd = nd) by congruence. subst rd.
      exists (g nd). split; [reflexivity |]. split; [destruct nd; reflexivity |].
      intros Hne. contradiction.
    - exists nd. repeat split; assumption. }
  destruct Hx1 as (nd1 & Hx1 & Hsnap1 & Hsame).
  set (oldPath := joinJsonPath (segments h1 x up)).
  set (final :=
         set_poisoned (Some (typeName nd1, oldPath))
           (set_subpath ""
              (set_parent None
                 (set_isAlive false
                    (set_patchSubscribers []
                       (set_snapshotSubscribers []
                          (set_patchSubscribers []
                             (set_frozenSnapshot (Some (snapshot_of nd)) nd1)))))))).
  exists (MkState (<[x := final]> h1) (trace s)), final.
  split; [| split; [| split; [| split; [| split]]]].
  - unfold finalizeDeath, Node_finalizeDeath.
    rewrite (bind_ok _ _ _ _ _ (get_node_ok _ _ _ Hx)), Hc.
    rewrite (bind_ok _ _ _ _ _ (root_ok fuel s _ _ Hanc Hfuel)). fold R.
    rewrite (bind_ok _ _ _ _ _ (get_node_ok _ _ _ Hr)), Hcache. fold g.
    rewrite (bind_ok _ _ _ _ _ (upd_node_alter _ _ g _ Hr)). fold h h1.
    rewrite (bind_ok _ _ _ _ _ (path_ok fuel (MkState h1 (trace s)) _ _ Hanc1 Hfuel)).
    cbn [heap]. fold oldPath.
    assert (Hsnapshot : snapshot x (MkState h1 (trace s))
                        = (Ok (snapshot_of nd), MkState h1 (trace s))).
    { unfold snapshot. rewrite (bind_ok _ _ _ _ _ (get_node_ok (MkState h1 (trace s)) _ _ Hx1)).
      rewrite Hsnap1. reflexivity. }
    rewrite (bind_ok _ _ _ _ _ Hsnapshot).
    rewrite (upd_node_bind (MkState h1 (trace s)) x _ nd1 _ Hx1). cbv beta. cbn [heap trace].
    do 6 upd_here.
    rewrite (upd_node_ok _ _ _ _ (lookup_insert_eq h1 x _)). cbn [heap trace].
    rewrite insert_insert_eq.
    replace (typeName
               (set_subpath ""
                  (set_parent None
                     (set_isAlive false
                        (set_patchSubscribers []
                           (set_snapshotSubscribers []
                              (set_patchSubscribers []
                                 (set_frozenSnapshot (Some (snapshot_of nd)) nd1))))))))
      with (typeName nd1) by (destruct nd1; reflexivity).
    reflexivity.
  - reflexivity.
  - intros y Hyx HyR. cbn [heap]. rewrite lookup_insert_ne by congruence.
    unfold h1. apply lookup_alter_ne. congruence.
  - intros Hne. cbn [heap]. rewrite lookup_insert_ne by congruence.
    unfold h1. rewrite lookup_alter_eq, Hr. reflexivity.
  - cbn [heap]. apply lookup_insert_eq.
  - unfold final. destruct nd1; repeat split; reflexivity.
Qed.

Lemma ancestors_agree h0 h n l :
  (forall y, y ∈ n :: l -> parent_of h y = parent_of h0 y) ->
  ancestors h0 n l -> ancestors h n l.
Proof.
  intros Hagree Hanc. induction Hanc as [n nd Hn Hp | n nd p l Hn Hp Hanc IH].
  - pose proof (Hagree n ltac:(left)) as H. unfold parent_of in H. rewrite Hn in H.
    destruct (h !! n) as [nd' |] eqn:Hn'; [| discriminate].
    injection H as H. eapply ancestors_root; [exact Hn' | congruence].
  - pose proof (Hagree n ltac:(left)) as H. unfold parent_of in H. rewrite Hn in H.
    destruct (h !! n) as [nd' |] eqn:Hn'; [| discriminate].
    injection H as H. eapply ancestors_step; [exact Hn' | congruence |].
    apply IH. intros y Hy. apply Hagree. right. exact Hy.
Qed.

Lemma top_of_elem n l : top_of n l ∈ n :: l.
Proof.
  revert n. induction l as [| p l IH]; intros n.
  - left.
  - rewrite top_of_cons. right. apply IH.
Qed.

Lemma finalized_parent_of h0 R D h y :
  finalized h0 R D h -> y ∉ D -> parent_of h y = parent_of h0 y.
Proof.
  intros (Hout & Hroot & _) Hy. unfold parent_of.
  destruct (decide (y = R)) as [-> | Hne].
  - destruct (Hroot Hy) as (rd & c & H0 & H1). rewrite H0, H1. destruct rd; reflexivity.
  - rewrite (Hout y Hy Hne). reflexivity.
Qed.

Lemma finalized_start h0 R rd c :
  h0 !! R = Some rd -> identifierCache rd = Some c -> finalized h0 R [] h0.
Proof.
  intros HR Hc. split; [| split].
  - reflexivity.
  - intros _. exists rd, c. split; [exact HR |]. rewrite HR. f_equal.
    destruct rd; simpl in *; subst; reflexivity.
  - intros y Hy. inversion Hy.
Qed.

(** One more node finalized. *)
Lemma finalize_one fuel h0 R s (D : list nid) n nd up :
  finalized h0 R D (heap s) ->
  h0 !! n = Some nd -> cls nd = NodeC ->
  ancestors h0 n up -> top_of n up = R -> length up < fuel ->
  (forall y, y ∈ D -> y ∉ n :: up) ->
  exists s',
    finalizeDeath fuel n s = (Ok tt, s') /\ trace s' = trace s /\
    finalized h0 R (D ++ [n]) (heap s').
Proof.
  intros Hfin Hn Hc Hanc Htop Hfuel HD.
  assert (Hfresh : forall y, y ∈ n :: up -> y ∉ D).
  { intros y Hy Hin. apply (HD _ Hin Hy). }
  assert (Hanc' : ancestors (heap s) n up).
  { apply (ancestors_agree h0); [| exact Hanc].
    intros y Hy. apply (finalized_parent_of _ _ _ _ _ Hfin). apply Hfresh. exact Hy. }
  assert (HRD : R ∉ D) by (apply Hfresh; rewrite <- Htop; apply top_of_elem).
  destruct Hfin as (Hout & Hroot & Hdone).
  destruct (Hroot HRD) as (rd & c & HR0 & HR).
  assert (Hn' : exists nd', heap s !! n = Some nd' /\ cls nd' = NodeC).
  { destruct (decide (n = R)) as [Heq | Hne].
    - rewrite Heq, HR. rewrite Heq in Hn. assert (rd = nd) by congruence. subst rd.
      eexists. split; [reflexivity |]. destruct nd; exact Hc.
    - rewrite (Hout n (Hfresh n ltac:(left)) Hne). eauto. }
  destruct Hn' as (nd' & Hn' & Hc').
  rewrite <- Htop in HR.
  destruct (finalizeDeath_ok fuel s n nd' up _ c Hn' Hc' Hanc' Hfuel HR
              ltac:(destruct rd; reflexivity))
    as (s' & ndf & Hrun & Htr & Hother & Htopnew & Hnf & Hf1 & Hf2 & Hf3 & Hf4 & Hf5 & _).
  rewrite Htop in *.
  exists s'. split; [exact Hrun |]. split; [exact Htr |].
  split; [| split].
  - intros y Hy HyR. rewrite not_elem_of_app in Hy. destruct Hy as [HyD Hyn].
    rewrite Hother; [apply Hout; assumption | | exact HyR].
    intros ->. apply Hyn. left.
  - intros HR'. rewrite not_elem_of_app in HR'. destruct HR' as [_ HRn].
    assert (Hne : R <> n) by (intros ->; apply HRn; left).
    exists rd. eexists. split; [exact HR0 |]. rewrite (Htopnew Hne).
    f_equal. destruct rd; reflexivity.
  - intros y Hy. apply elem_of_app in Hy as [Hy | Hy].
    + destruct (Hdone y Hy) as (yd & Hyd & Hfy). exists yd. split; [| exact Hfy].
      rewrite Hother; [exact Hyd | |].
      * intros ->. apply (Hfresh n ltac:(left)). exact Hy.
      * intros ->. contradiction.
    + apply list_elem_of_singleton in Hy. subst y. exists ndf.
      split; [exact Hnf |]. repeat split; assumption.
Qed.

Lemma subtree_root h up t :
  subtree h up t ->
  exists nd, h !! tid t = Some nd /\ cls nd = NodeC /\ _parent nd = head up.
Proof. inversion 1; subst. cbn [tid]. eauto. Qed.

Lemma finalize_kids fuel h0 n up :
  ancestors h0 n up ->
  forall kids,
    Forall (fun k =>
              forall up', subtree h0 up' k -> ancestors h0 (tid k) up' ->
                top_of (tid k) up' = (top_of n up) -> depth k + length up' <= fuel ->
                NoDup (postorder k ++ up') ->
                forall s (D : list nid), finalized h0 (top_of n up) D (heap s) ->
                  (forall y, y ∈ D -> y ∉ postorder k ++ up') ->
                  exists s', forEach (postorder k) (finalizeDeath fuel) s = (Ok tt, s') /\
                             trace s' = trace s /\
                             finalized h0 (top_of n up) (D ++ postorder k) (heap s')) kids ->
    Forall (subtree h0 (n :: up)) kids ->
    Forall (fun k => depth k + length (n :: up) <= fuel) kids ->
    NoDup (flat_map postorder kids ++ n :: up) ->
    forall s (D : list nid), finalized h0 (top_of n up) D (heap s) ->
      (forall y, y ∈ D -> y ∉ flat_map postorder kids ++ n :: up) ->
      exists s', forEach (flat_map postorder kids) (finalizeDeath fuel) s = (Ok tt, s') /\
                 trace s' = trace s /\
                 finalized h0 (top_of n up) (D ++ flat_map postorder kids) (heap s').
Proof.
  intros Hanc kids. induction kids as [| k kids IHk];
    intros HIH Hsub Hdepth Hnd s D Hfin HD.
  - exists s. cbn [flat_map forEach]. rewrite app_nil_r.
    split; [reflexivity |]. split; [reflexivity | exact Hfin].
  - inversion HIH as [| ? ? HIHk HIH']; subst.
    inversion Hsub as [| ? ? Hsubk Hsub']; subst.
    inversion Hdepth as [| ? ? Hdk Hdepth']; subst.
    cbn [flat_map] in *. rewrite <- app_assoc in Hnd.
    apply NoDup_app in Hnd as (Hndk & Hdisj & Hnd').
    assert (Hndup : NoDup (n :: up)) by (apply NoDup_app in Hnd' as (_ & _ & H); exact H).
    destruct (subtree_root _ _ _ Hsubk) as (kd & Hkd & _ & Hkp).
    assert (Hanck : ancestors h0 (tid k) (n :: up)).
    { eapply ancestors_step; [exact Hkd | exact Hkp | exact Hanc]. }
    destruct (HIHk (n :: up) Hsubk Hanck ltac:(apply top_of_cons) Hdk
                ltac:(apply NoDup_app; split; [exact Hndk | split; [| exact Hndup]];
                      intros y Hy Hin; apply (Hdisj y Hy); apply elem_of_app; right; exact Hin)
                s D Hfin)
      as (s1 & Hrun1 & Htr1 & Hfin1).
    { intros y Hy Hin. apply (HD y Hy). rewrite <- app_assoc.
      apply elem_of_app in Hin as [Hin | Hin]; apply elem_of_app; [left; exact Hin | right].
      apply elem_of_app. right. exact Hin. }
    destruct (IHk HIH' Hsub' Hdepth' Hnd' s1 (D ++ postorder k) Hfin1)
      as (s2 & Hrun2 & Htr2 & Hfin2).
    { intros y Hy. apply elem_of_app in Hy as [Hy | Hy].
      - intros Hin. apply (HD y Hy). rewrite <- app_assoc. apply elem_of_app. right. exact Hin.
      - apply Hdisj. exact Hy. }
    exists s2. split; [| split].
    + rewrite forEach_app, (bind_ok _ _ _ _ _ Hrun1). exact Hrun2.
    + congruence.
    + rewrite app_assoc. exact Hfin2.
Qed.

(** [finalizeDeath] over a whole tree, in postorder. *)
Lemma finalize_tree fuel h0 R :
  forall t up, subtree h0 up t -> ancestors h0 (tid t) up ->
    top_of (tid t) up = R -> depth t + length up <= fuel ->
    NoDup (postorder t ++ up) ->
    forall s (D : list nid), finalized h0 R D (heap s) ->
      (forall y, y ∈ D -> y ∉ postorder t ++ up) ->
      exists s', forEach (postorder t) (finalizeDeath fuel) s = (Ok tt, s') /\
                 trace s' = trace s /\
                 finalized h0 R (D ++ postorder t) (heap s').
Proof.
  intros t. induction t as [n kids IH] using tree_induction.
  intros up Hsub Hanc Htop Hfuel Hnd s D Hfin HD.
  inversion Hsub as [? ? nd ? Hn Hc Ha Ht Hp Hex Hfil Hkids]; subst.
  cbn [tid postorder] in *. rewrite <- app_assoc in Hnd, HD. cbn [app] in Hnd, HD.
  destruct (finalize_kids fuel h0 n up Hanc kids IH Hkids
              ltac:(apply Forall_forall; intros k Hk;
                    pose proof (depth_kids n kids (depth (TNode n kids) - 1)
                                  ltac:(cbn [depth]; lia)) as Hd;
                    rewrite Forall_forall in Hd; specialize (Hd k Hk);
                    cbn [depth length] in *; lia)
              Hnd s D Hfin HD)
    as (s1 & Hrun1 & Htr1 & Hfin1).
  destruct (finalize_one fuel h0 (top_of n up) s1 (D ++ flat_map postorder kids) n nd up
              Hfin1 Hn Hc Hanc eq_refl ltac:(cbn [depth] in Hfuel; lia))
    as (s2 & Hrun2 & Htr2 & Hfin2).
  { intros y Hy. apply elem_of_app in Hy as [Hy | Hy].
    - intros Hin. apply (HD y Hy). apply elem_of_app. right. exact Hin.
    - apply NoDup_app in Hnd as (_ & Hdisj & _). apply Hdisj. exact Hy. }
  exists s2. split; [| split].
  - rewrite forEach_app, (bind_ok _ _ _ _ _ Hrun1). cbn [forEach].
    rewrite bind_ret_tt. exact Hrun2.
  - congruence.
  - rewrite app_assoc. exact Hfin2.
Qed.

Lemma subtree_nodes h up t :
  subtree h up t ->
  forall x, x ∈ postorder t ->
    exists nd, h !! x = Some nd /\ cls nd = NodeC /\ _isAlive nd = true /\
               treenode nd = Some x.
Proof.
  revert up. induction t as [n kids IH] using tree_induction. intros up Hsub x Hx.
  inversion Hsub as [? ? nd ? Hn Hc Ha Ht Hp Hex Hfil Hkids]; subst.
  cbn [postorder] in Hx. apply elem_of_app in Hx as [Hx | Hx].
  - apply list_elem_of_In, in_flat_map in Hx as (k & Hk & Hx).
    apply list_elem_of_In in Hk, Hx.
    rewrite Forall_forall in IH, Hkids.
    eapply IH; [exact Hk | apply Hkids; exact Hk | exact Hx].
  - apply list_elem_of_singleton in Hx. subst x. exists nd. repeat split; assumption.
Qed.

Lemma disposers_cleared_lookup h h1 y nd :
  disposers_cleared h h1 -> h !! y = Some nd ->
  exists nd1, h1 !! y = Some nd1 /\ cls nd1 = cls nd /\ _isAlive nd1 = _isAlive nd /\
              treenode nd1 = treenode nd /\ _parent nd1 = _parent nd /\
              children nd1 = children nd /\ identifierCache nd1 = identifierCache nd /\
              _isDetaching nd1 = _isDetaching nd.
Proof.
  intros Hcl Hy. destruct (Hcl y) as [H1 | (nd' & H0 & H1)].
  - exists nd. rewrite H1. repeat split; assumption.
  - assert (nd' = nd) by congruence. subst nd'.
    exists (set_disposers [] nd). split; [exact H1 |]. destruct nd; repeat split; reflexivity.
Qed.

Lemma disposers_cleared_attached h h1 y :
  disposers_cleared h h1 -> attached h1 y = attached h y.
Proof.
  intros Hcl. unfold attached. destruct (Hcl y) as [H1 | (nd' & H0 & H1)].
  - rewrite H1. reflexivity.
  - rewrite H0, H1. destruct nd'; reflexivity.
Qed.

Lemma disposers_cleared_parent_of h h1 y :
  disposers_cleared h h1 -> parent_of h1 y = parent_of h y.
Proof.
  intros Hcl. unfold parent_of. destruct (Hcl y) as [H1 | (nd' & H0 & H1)].
  - rewrite H1. reflexivity.
  - rewrite H0, H1. destruct nd'; reflexivity.
Qed.

Lemma disposers_cleared_skel h h1 y :
  disposers_cleared h h1 -> skel_of h1 y = skel_of h y.
Proof.
  intros Hcl. unfold skel_of. destruct (Hcl y) as [H1 | (nd' & H0 & H1)].
  - rewrite H1. reflexivity.
  - rewrite H0, H1. destruct nd'; reflexivity.
Qed.

Lemma subtree_cleared h h1 :
  disposers_cleared h h1 -> forall t up, subtree h up t -> subtree h1 up t.
Proof.
  intros Hcl t. induction t as [n kids IH] using tree_induction. intros up Hsub.
  inversion Hsub as [? ? nd ? Hn Hc Ha Ht Hp Hex Hfil Hkids]; subst.
  destruct (disposers_cleared_lookup _ _ _ _ Hcl Hn)
    as (nd1 & Hn1 & Hc1 & Ha1 & Ht1 & Hp1 & Hk1 & _).
  eapply (subtree_node h1 up n nd1 kids); try congruence.
  - unfold type_getChildren in *. rewrite Hk1.
    eapply Forall_impl; [exact Hex |]. intros c (cd & Hcd).
    destruct (disposers_cleared_lookup _ _ _ _ Hcl Hcd) as (cd1 & Hcd1 & _). eauto.
  - unfold type_getChildren in *. rewrite Hk1, <- Hfil.
    apply list_filter_iff. intros c. rewrite (disposers_cleared_attached _ _ _ Hcl).
    reflexivity.
  - rewrite Forall_forall in IH, Hkids. apply Forall_forall. intros k Hk.
    apply (IH k Hk). apply Hkids. exact Hk.
Qed.

(** *** die *)




(** ** Further properties of the node core *)

(** *** Queries *)

Lemma ro_ret {A} (a : A) : read_only (ret a).
Proof. intros s. reflexivity. Qed.

Lemma ro_throw {A} e : read_only (@throw A e).
Proof. intros s. reflexivity. Qed.

Lemma ro_stuck {A} : read_only (@stuck A).
Proof. intros s. reflexivity. Qed.

Lemma ro_bind {A B} (c : M A) (k : A -> M B) :
  read_only c -> (forall a, read_only (k a)) -> read_only (bind c k).
Proof.
  intros Hc Hk s. unfold bind. specialize (Hc s).
  destruct (c s) as [[a | e |] s']; simpl in *; subst; [apply Hk | reflexivity..].
Qed.

Lemma ro_read {A} (f : state -> option A) : read_only (fun s => lift_option (f s) s).
Proof. intros s. destruct (f s); reflexivity. Qed.

Lemma ro_get_node n : read_only (get_node n).
Proof. apply (ro_read (fun s => heap s !! n)). Qed.

Lemma ro_root fuel n : read_only (root fuel n).
Proof. apply (ro_read (fun s => root_of fuel (heap s) n)). Qed.

Lemma ro_path fuel n : read_only (path fuel n).
Proof. apply (ro_read (fun s => path_of fuel (heap s) n)). Qed.

Lemma ro_isRunningAction fuel n : read_only (isRunningAction fuel n).
Proof. apply (ro_read (fun s => isRunningAction_of fuel (heap s) n)). Qed.

Ltac read_only :=
  repeat first
    [ apply ro_ret | apply ro_throw | apply ro_stuck | apply ro_get_node
    | apply ro_root | apply ro_path | apply ro_isRunningAction
    | apply ro_bind; [| intros ?]
    | assumption
    | match goal with
      | |- read_only (match ?b with _ => _ end) => destruct b
      end ].

Lemma ro_parent n : read_only (parent n).
Proof. unfold parent. read_only. Qed.

Lemma ro_assertAlive n : read_only (assertAlive n).
Proof. unfold assertAlive. read_only. Qed.

Lemma ro_getChildNode n sub : read_only (getChildNode n sub).
Proof.
  unfold getChildNode, type_getChildNode.
  apply ro_bind; [apply ro_assertAlive | intros _]. read_only.
Qed.

Lemma ro_getChildren n : read_only (getChildren n).
Proof.
  unfold getChildren. apply ro_bind; [apply ro_assertAlive | intros _]. read_only.
Qed.

Lemma ro_resolve_segment fuel part c : read_only (resolve_segment fuel part c).
Proof.
  unfold resolve_segment.
  repeat match goal with |- read_only (if ?b then _ else _) => destruct b end.
  - apply ro_bind; [apply ro_root | intros; apply ro_ret].
  - apply ro_parent.
  - apply ro_ret.
  - apply ro_bind; [apply ro_getChildNode | intros; apply ro_ret].
Qed.

(** The loop of [resolvePath], one segment at a time. *)
Lemma resolvePath_loop_step fuel pp i part rest c f s :
  resolvePath_loop fuel pp i (part :: rest) (Some c) f s
  = (do r <- resolve_segment fuel part c;
     match r with
     | Some c' => resolvePath_loop fuel pp (S i) rest (Some c') f
     | None =>
         if f
         then throw (CouldNotResolve part (joinJsonPath (slice 0 (Z.of_nat i - 1) pp)))
         else ret None
     end) s.
Proof.
  cbn [resolvePath_loop]. unfold resolve_segment.
  destruct (bool_decide (part = "")) eqn:E1.
  - unfold bind. destruct (root fuel c s) as [[r | e |] s']; reflexivity.
  - destruct (bool_decide (part = "..")) eqn:E2.
    + unfold bind. destruct (parent c s) as [[[p |] | e |] s']; reflexivity.
    + destruct (bool_decide (part = ".")) eqn:E3; simpl.
      * reflexivity.
      * unfold bind. destruct (getChildNode c part s) as [[ch | e |] s']; reflexivity.
Qed.

Lemma ro_resolvePath_loop fuel pp f rest :
  forall i c, read_only (resolvePath_loop fuel pp i rest (Some c) f).
Proof.
  induction rest as [| part rest IH]; intros i c s.
  - reflexivity.
  - rewrite resolvePath_loop_step.
    revert s. apply ro_bind; [apply ro_resolve_segment |].
    intros [c' |]; [apply IH |]. destruct f; [apply ro_throw | apply ro_ret].
Qed.

Lemma ro_getRelativePathTo fuel this target : read_only (getRelativePathTo fuel this target).
Proof. unfold getRelativePathTo. read_only. Qed.

(** X6.  The path queries read the tree and leave it alone: whatever they end
    in, no field of a node of the tree structure is assigned, and no hook,
    disposer or subscriber is called. *)
Theorem path_queries_change_nothing (fuel : nat) (this : nid) :
  (forall parts f, read_only (resolvePath fuel this parts f)) /\
  (forall p f, read_only (resolve fuel this p f)) /\
  (forall target, read_only (getRelativePathTo fuel this target)) /\
  (forall sub, read_only (getChildNode this sub)) /\
  read_only (getChildren this).
Proof.
  repeat split.
  - intros parts f. apply ro_resolvePath_loop.
  - intros p f. apply ro_resolvePath_loop.
  - intros target. apply ro_getRelativePathTo.
  - intros sub. apply ro_getChildNode.
  - apply ro_getChildren.
Qed.

(** A segment never ends in the resolution error itself. *)
Lemma resolve_segment_no_resolution_error fuel part c s a b s' :
  resolve_segment fuel part c s <> (Throw (CouldNotResolve a b), s').
Proof.
  unfold resolve_segment, parent, getChildNode, type_getChildNode, assertAlive,
    root, get_node, lift_option, bind, ret, throw, stuck.
  repeat match goal with
         | |- context [if ?b then _ else _] => destruct b
         | |- context [match ?o with Some _ => _ | None => _ end] => destruct o
         end; simpl; congruence.
Qed.

Lemma resolvePath_loop_lenient fuel pp rest :
  forall i c s,
    resolvePath_loop fuel pp i rest (Some c) false s
    = lenient (resolvePath_loop fuel pp i rest (Some c) true s).
Proof.
  induction rest as [| part rest IH]; intros i c s.
  - reflexivity.
  - rewrite !resolvePath_loop_step. unfold bind.
    destruct (resolve_segment fuel part c s) as [[[c' |] | e |] s'] eqn:Hseg.
    + apply IH.
    + reflexivity.
    + destruct e; try reflexivity.
      exfalso. exact (resolve_segment_no_resolution_error _ _ _ _ _ _ _ Hseg).
    + reflexivity.
Qed.

(** X4.  [resolvePath] without [failIfResolveFails] is [resolvePath] with it,
    except that it returns undefined where the other raises the resolution
    error; every other error (a dead node on the way, a child that the type
    does not find) is raised in both. *)
Theorem resolvePath_lenient_mode (fuel : nat) (this : nid) (parts : list string)
  (s : state) :
  resolvePath fuel this parts false s = lenient (resolvePath fuel this parts true s).
Proof. apply resolvePath_loop_lenient. Qed.

(** A successful resolution does not depend on where in a longer path its
    segments stand. *)
Lemma resolvePath_loop_Ok fuel rest :
  forall pp i c f s r s',
    resolvePath_loop fuel pp i rest (Some c) f s = (Ok (Some r), s') ->
    forall pp' i' f', resolvePath_loop fuel pp' i' rest (Some c) f' s = (Ok (Some r), s').
Proof.
  induction rest as [| part rest IH]; intros pp i c f s r s' H pp' i' f'.
  - exact H.
  - rewrite resolvePath_loop_step in *. unfold bind in *.
    destruct (resolve_segment fuel part c s) as [[[c' |] | e |] s1]; try discriminate.
    + eapply IH. exact H.
    + destruct f; discriminate.
Qed.

Lemma resolvePath_loop_app fuel p1 :
  forall pp i c f s m p2,
    resolvePath_loop fuel pp i p1 (Some c) f s = (Ok (Some m), s) ->
    resolvePath_loop fuel pp i (p1 ++ p2) (Some c) f s
    = resolvePath_loop fuel pp (i + length p1) p2 (Some m) f s.
Proof.
  induction p1 as [| part p1 IH]; intros pp i c f s m p2 H.
  - simpl in H. injection H as ->. simpl. rewrite Nat.add_0_r. reflexivity.
  - change ((part :: p1) ++ p2) with (part :: (p1 ++ p2)).
    rewrite resolvePath_loop_step in *. unfold bind in *.
    pose proof (ro_resolve_segment fuel part c s) as Hro.
    destruct (resolve_segment fuel part c s) as [[[c' |] | e |] s1]; try discriminate;
      simpl in Hro; subst s1.
    + rewrite (IH _ _ _ _ _ _ p2 H). simpl. f_equal. lia.
    + destruct f; discriminate.
Qed.

Lemma resolvePath_loop_false fuel rest :
  forall pp i c s pp' i',
    resolvePath_loop fuel pp i rest (Some c) false s
    = resolvePath_loop fuel pp' i' rest (Some c) false s.
Proof.
  induction rest as [| part rest IH]; intros pp i c s pp' i'.
  - reflexivity.
  - rewrite !resolvePath_loop_step. apply bind_congr; [reflexivity |].
    intros [c' |] s1; [apply IH | reflexivity].
Qed.

(** X5.  Resolution composes: if the segments [p1] lead from a node to the node
    [m], then resolving [p1] followed by [p2] from the node is resolving
    [p2] from [m]: always so without [failIfResolveFails], and with it
    whenever the resolution from [m] arrives somewhere (the error it raises
    otherwise names a different path). *)
Theorem resolvePath_composes (fuel : nat) (this m : nid) (p1 p2 : list string)
  (f : bool) (s : state)
  (H1 : resolvePath fuel this p1 f s = (Ok (Some m), s)) :
  resolvePath fuel this (p1 ++ p2) false s = resolvePath fuel m p2 false s /\
  (forall r, resolvePath fuel m p2 true s = (Ok (Some r), s) ->
             resolvePath fuel this (p1 ++ p2) true s = (Ok (Some r), s)).
Proof.
  unfold resolvePath in *. split.
  - rewrite (resolvePath_loop_app fuel p1 _ _ _ false s m p2).
    + apply resolvePath_loop_false.
    + eapply resolvePath_loop_Ok. exact H1.
  - intros r Hr.
    rewrite (resolvePath_loop_app fuel p1 _ _ _ true s m p2).
    + eapply resolvePath_loop_Ok. exact Hr.
    + eapply resolvePath_loop_Ok. exact H1.
Qed.

Lemma resolvePath_composes_witness :
  resolvePath 5 1%positive (["a"] ++ ["b"]) false abTree
    = resolvePath 5 2%positive ["b"] false abTree /\
  (forall r, resolvePath 5 2%positive ["b"] true abTree = (Ok (Some r), abTree) ->
             resolvePath 5 1%positive (["a"] ++ ["b"]) true abTree = (Ok (Some r), abTree)).
Proof.
  apply (resolvePath_composes 5 1%positive 2%positive ["a"] ["b"] true abTree).
  reflexivity.
Defined.

Lemma isRoot_ok s n nd :
  heap s !! n = Some nd -> isRoot n s = (Ok (bool_decide (_parent nd = None)), s).
Proof.
  intros Hn. unfold isRoot. rewrite (bind_ok _ _ _ _ _ (get_node_ok _ _ _ Hn)). reflexivity.
Qed.

Lemma ancestors_suffix h n l :
  ancestors h n l -> forall pre x post, l = pre ++ x :: post -> ancestors h x post.
Proof.
  induction 1 as [n nd Hn Hp | n nd p l Hn Hp Hanc IH]; intros pre x post Heq.
  - destruct pre; discriminate.
  - destruct pre as [| y pre]; simpl in Heq.
    + injection Heq as -> ->. exact Hanc.
    + injection Heq as -> ->. eapply IH. reflexivity.
Qed.

Lemma top_of_app n pre x post : top_of n (pre ++ x :: post) = top_of x post.
Proof.
  revert n. induction pre as [| y pre IH]; intros n.
  - apply top_of_cons.
  - change ((y :: pre) ++ x :: post) with (y :: (pre ++ x :: post)).
    rewrite top_of_cons. apply IH.
Qed.

(** X1.  The root of a node is the node without parent that its parent chain
    ends in: it is a root, it is its own root, every node of the chain has
    the same root, and a node is its own root exactly when it is a root. *)
Theorem root_of_the_chain (fuel : nat) (s : state) (n : nid) (l : list nid)
  (Hanc : ancestors (heap s) n l) (Hfuel : length l < fuel) :
  let r := top_of n l in
  root fuel n s = (Ok r, s) /\
  isRoot r s = (Ok true, s) /\
  root fuel r s = (Ok r, s) /\
  (forall x, x ∈ l -> root fuel x s = (Ok r, s)) /\
  (isRoot n s = (Ok true, s) <-> r = n).
Proof.
  intros r. subst r.
  destruct (ancestors_top _ _ _ Hanc) as (rd & Hr & Hrp).
  assert (Hrr : ancestors (heap s) (top_of n l) []) by (econstructor; eassumption).
  repeat split.
  - apply root_ok; assumption.
  - rewrite (isRoot_ok _ _ _ Hr). rewrite bool_decide_eq_true_2 by assumption. reflexivity.
  - apply (root_ok fuel s _ [] Hrr). simpl. lia.
  - intros x Hx. apply list_elem_of_split in Hx as (pre & post & ->).
    pose proof (ancestors_suffix _ _ _ Hanc pre x post eq_refl) as Hxa.
    rewrite top_of_app. apply root_ok; [exact Hxa |].
    rewrite length_app in Hfuel. simpl in Hfuel. lia.
  - intros H. destruct (ancestors_lookup _ _ _ Hanc) as (nd & Hn).
    rewrite (isRoot_ok _ _ _ Hn) in H. injection H as H.
    apply bool_decide_eq_true_1 in H.
    inversion Hanc as [n' nd' Hn' Hp' | n' nd' p l' Hn' Hp' Hanc']; subst.
    + reflexivity.
    + rewrite Hn in Hn'. injection Hn' as <-. congruence.
  - intros Heq. destruct (ancestors_lookup _ _ _ Hanc) as (nd & Hn).
    rewrite (isRoot_ok _ _ _ Hn). rewrite Heq in Hr. rewrite Hn in Hr. injection Hr as ->.
    rewrite bool_decide_eq_true_2 by assumption. reflexivity.
Qed.

Lemma root_of_the_chain_witness :
  root 5 3%positive abTree = (Ok 1%positive, abTree) /\
  isRoot 1%positive abTree = (Ok true, abTree) /\
  root 5 1%positive abTree = (Ok 1%positive, abTree) /\
  (forall x, x ∈ [2%positive; 1%positive] -> root 5 x abTree = (Ok 1%positive, abTree)) /\
  (isRoot 3%positive abTree = (Ok true, abTree) <-> 1%positive = 3%positive).
Proof.
  apply (root_of_the_chain 5 abTree 3%positive [2%positive; 1%positive]).
  - eapply ancestors_step; [reflexivity | reflexivity |].
    eapply ancestors_step; [reflexivity | reflexivity |].
    eapply ancestors_root; reflexivity.
  - simpl. lia.
Defined.

(** *** Paths *)

Lemma route_functional h top segs nodesA :
  route h top segs nodesA -> forall nodesB, route h top segs nodesB -> nodesA = nodesB.
Proof.
  induction 1 as [top | top td c cd segs nodes Ht Hc Hcd Hp Hr IH]; intros nodesB HB.
  - inversion HB. reflexivity.
  - inversion HB as [| top' td' c' cd' segs' nodes' Ht' Hc' Hcd' Hp' Hr' Htop Hsub].
    rewrite Ht in Ht'. injection Ht' as <-.
    rewrite Hsub in Hc'. rewrite Hc in Hc'. injection Hc' as <-.
    f_equal. apply IH. exact Hr'.
Qed.

Lemma route_end_parent h top segs nodes :
  route h top segs nodes -> nodes <> [] ->
  exists nd p, h !! end_of top nodes = Some nd /\ _parent nd = Some p.
Proof.
  induction 1 as [top | top td c cd segs nodes Ht Hc Hcd Hp Hr IH]; intros Hne.
  - congruence.
  - rewrite end_of_cons. destruct nodes as [| c' nodes'].
    + exists cd, top. split; assumption.
    + apply IH. discriminate.
Qed.

Lemma path_of_route fuel s r rd segs nodes :
  heap s !! r = Some rd -> _parent rd = None ->
  route (heap s) r segs nodes -> length segs < fuel ->
  path fuel (end_of r nodes) s = (Ok (joinJsonPath segs), s).
Proof.
  intros Hr Hrp Hroute Hfuel.
  assert (Hrr : ancestors (heap s) r []) by (econstructor; eassumption).
  destruct (route_ancestors _ _ _ _ Hroute [] Hrr) as (Hanc & Hsegs & Hlen & _).
  rewrite (path_ok fuel s _ _ Hanc) by (rewrite Hlen; simpl; lia).
  rewrite Hsegs. reflexivity.
Qed.

Lemma joinJsonPath_empty l : joinJsonPath l = "" <-> l = [].
Proof.
  split; [| intros ->; reflexivity].
  destruct l as [| x l]; [reflexivity |].
  rewrite joinJsonPath_cons, append_cons. discriminate.
Qed.

(** X2.  Within a tree whose child tables and parent references agree, the path
    names the node: the path of a node is the escaped subpaths from the root
    down to it, each after a slash; two nodes with the same path are the same
    node; and the path is empty exactly at the root. *)
Theorem path_identifies_node (fuel : nat) (s : state) (r : nid) (rd : node)
  (segsA segsB : list string) (nodesA nodesB : list nid)
  (Hr : heap s !! r = Some rd) (Hrp : _parent rd = None)
  (HA : route (heap s) r segsA nodesA)
  (HB : route (heap s) r segsB nodesB)
  (HfA : length segsA < fuel) (HfB : length segsB < fuel) :
  let a := end_of r nodesA in
  let b := end_of r nodesB in
  path fuel a s = (Ok (joinJsonPath segsA), s) /\
  path fuel b s = (Ok (joinJsonPath segsB), s) /\
  (joinJsonPath segsA = joinJsonPath segsB -> a = b) /\
  (joinJsonPath segsA = "" <-> a = r).
Proof.
  intros a b. subst a b. repeat split.
  - eapply path_of_route; eassumption.
  - eapply path_of_route; eassumption.
  - intros Heq. apply (f_equal splitJsonPath) in Heq. rewrite !split_join_path in Heq.
    subst segsB. rewrite (route_functional _ _ _ _ HA _ HB). reflexivity.
  - intros Heq. apply joinJsonPath_empty in Heq. subst segsA. inversion HA. reflexivity.
  - intros Heq. apply joinJsonPath_empty.
    destruct nodesA as [| c nodesA]; [inversion HA; reflexivity |].
    destruct (route_end_parent _ _ _ _ HA) as (nd & p & Hnd & Hp); [discriminate |].
    rewrite Heq in Hnd. rewrite Hr in Hnd. injection Hnd as <-. congruence.
Qed.

Lemma abTree_route_b :
  route (heap abTree) 1%positive ["a"; "b"] [2%positive; 3%positive].
Proof.
  eapply (route_step _ 1%positive _ 2%positive
            (sample_node NodeC "A" 2%positive (Some 1%positive) "a" [("b", 3%positive)]));
    [reflexivity | reflexivity | reflexivity | reflexivity |].
  eapply (route_step _ 2%positive _ 3%positive
            (MkNode ImmutableNodeC "number" (Some 2%positive) "b" false None true None
               VUndefined true false [] [] [] [] None [] [] (VNum 1) (VNum 1) None None));
    [reflexivity | reflexivity | reflexivity | reflexivity |].
  apply route_here.
Qed.

Lemma abTree_route_a : route (heap abTree) 1%positive ["a"] [2%positive].
Proof.
  eapply (route_step _ 1%positive _ 2%positive
            (sample_node NodeC "A" 2%positive (Some 1%positive) "a" [("b", 3%positive)]));
    [reflexivity | reflexivity | reflexivity | reflexivity |].
  apply route_here.
Qed.

Lemma path_identifies_node_witness :
  path 5 3%positive abTree = (Ok "/a/b", abTree) /\
  path 5 2%positive abTree = (Ok "/a", abTree) /\
  ("/a/b" = "/a" -> 3%positive = 2%positive) /\
  ("/a/b" = "" <-> 3%positive = 1%positive).
Proof.
  eapply (path_identifies_node 5 abTree 1%positive _ ["a"; "b"] ["a"]
           [2%positive; 3%positive] [2%positive]).
  - reflexivity.
  - reflexivity.
  - exact abTree_route_b.
  - exact abTree_route_a.
  - simpl. lia.
  - simpl. lia.
Defined.

(** X3.  The path of a node leads back to it, in a tree whose child tables
    and parent references agree: when every node on the way from the root
    to the node is listed under its subpath in the child table of its
    parent, resolving the path from the root
    yields the node, and so does resolving it from any node of the tree
    after a leading empty segment, which [resolvePath] reads as the root;
    provided no subpath on the way is "", "." or ".." and the nodes above the
    node are alive. *)
Theorem path_resolves_from_root (fuel : nat) (s : state) (r : nid) (rd : node)
  (segs : list string) (nodes : list nid)
  (Hr : heap s !! r = Some rd) (Hrp : _parent rd = None)
  (Hroute : route (heap s) r segs nodes)
  (Hnav : Forall (fun seg => ~ navigation_segment seg) segs)
  (Halive : Forall (alive_in (heap s)) (removelast (r :: nodes)))
  (Hfuel : length segs < fuel) :
  let b := end_of r nodes in
  exists p,
    path fuel b s = (Ok p, s) /\
    resolve fuel r p true s = (Ok (Some b), s) /\
    (forall a la,
       ancestors (heap s) a la -> length la < fuel -> top_of a la = r ->
       resolvePath fuel a ("" :: splitJsonPath p) true s = (Ok (Some b), s)).
Proof.
  intros b. subst b. exists (joinJsonPath segs). split; [| split].
  - eapply path_of_route; eassumption.
  - unfold resolve, resolvePath. rewrite split_join_path.
    rewrite <- (state_eta s) at 1 2.
    rewrite (resolvePath_down _ _ _ _ Hroute Hnav Halive). rewrite state_eta. reflexivity.
  - intros a la Hanc Hla Htop. unfold resolvePath. rewrite split_join_path.
    destruct (ancestors_lookup _ _ _ Hanc) as (ad & Ha).
    destruct (resolvePath_by_segment fuel ("" :: segs) 0 segs a ad la true s Ha Hanc Hla)
      as (Hempty & _).
    rewrite Hempty, Htop.
    rewrite <- (state_eta s) at 1 2.
    rewrite (resolvePath_down _ _ _ _ Hroute Hnav Halive). rewrite state_eta. reflexivity.
Qed.

Lemma path_resolves_from_root_witness :
  exists p,
    path 5 3%positive abTree = (Ok p, abTree) /\
    resolve 5 1%positive p true abTree = (Ok (Some 3%positive), abTree) /\
    (forall a la,
       ancestors (heap abTree) a la -> length la < 5 -> top_of a la = 1%positive ->
       resolvePath 5 a ("" :: splitJsonPath p) true abTree = (Ok (Some 3%positive), abTree)).
Proof.
  eapply (path_resolves_from_root 5 abTree 1%positive _ ["a"; "b"] [2%positive; 3%positive]).
  - reflexivity.
  - reflexivity.
  - exact abTree_route_b.
  - repeat constructor; unfold navigation_segment; intros [H | [H | H]]; discriminate.
  - repeat constructor; eexists; split; reflexivity.
  - simpl. lia.
Defined.

(** *** Attaching *)

Lemma parent_of_insert h n nd nd' x :
  h !! n = Some nd -> _parent nd' = _parent nd ->
  parent_of (<[n := nd']> h) x = parent_of h x.
Proof.
  intros Hn Hp. unfold parent_of. destruct (decide (x = n)) as [-> | Hne].
  - rewrite lookup_insert_eq, Hn, Hp. reflexivity.
  - rewrite lookup_insert_ne by congruence. reflexivity.
Qed.

Lemma setParent_attach_ok (fuel : nat) (s : state) (this np : nid)
  (nd rd : node) (l : list nid) (sub : option string)
  (mine cache merged : IdentifierCache)
  (Hn : heap s !! this = Some nd) (Hp : _parent nd = None)
  (Hanc : ancestors (heap s) np l) (Hfuel : length l < fuel)
  (Hother : top_of np l <> this)
  (Hr : heap s !! top_of np l = Some rd)
  (Henv : truthy (_environment nd) = true ->
          strict_eq (_environment nd) (_environment rd) = true)
  (Hcache : identifierCache rd = Some cache)
  (Hmine : identifierCache nd = Some mine)
  (Hmerge : IdCache.mergeCache cache mine = Ok merged) :
  let nd' := set_parent (Some np) (set_subpath (default "" sub) nd) in
  let h' := <[this := nd']>
              (<[top_of np l := set_identifierCache (Some merged) rd]> (heap s)) in
  setParent fuel this (Some np) sub s
    = (Ok tt, MkState h' (trace s ++ hook_call this "afterAttach" nd)) /\
  ancestors h' this (np :: l) /\
  top_of this (np :: l) = top_of np l /\
  (forall x, x <> this -> x <> top_of np l -> h' !! x = heap s !! x).
Proof.
  intros nd' h'.
  assert (Hself : ancestors (heap s) this []) by (econstructor; eassumption).
  assert (Hf0 : length (@nil nid) < fuel) by (simpl; lia).
  assert (Hnotin : this ∉ np :: l).
  { intros Hin. apply Hother.
    apply list_elem_of_split in Hin as (pre & post & Heq).
    destruct pre as [| y pre]; simpl in Heq.
    - injection Heq as -> ->.
      pose proof (ancestors_functional _ _ _ Hanc _ Hself) as ->. reflexivity.
    - injection Heq as -> ->.
      pose proof (ancestors_suffix _ _ _ Hanc pre this post eq_refl) as Hthis.
      pose proof (ancestors_functional _ _ _ Hthis _ Hself) as ->.
      rewrite top_of_app. reflexivity. }
  split; [| split; [| split]].
  - unfold setParent.
    rewrite (bind_ok _ _ _ _ _ (get_node_ok _ _ _ Hn)), Hp.
    rewrite (bool_decide_eq_false_2 (None = Some np)) by discriminate. cbn [andb].
    (* the guards *)
    erewrite bind_ok; cycle 1.
    { erewrite bind_ok by reflexivity.
      erewrite bind_ok; cycle 1.
      { rewrite (bind_ok _ _ _ _ _ (root_ok fuel s _ _ Hanc Hfuel)).
        rewrite (bool_decide_eq_false_2 (top_of np l = this)) by assumption. reflexivity. }
      rewrite (bind_ok _ _ _ _ _ (root_ok fuel s _ _ Hself Hf0)).
      change (top_of this []) with this.
      rewrite (bind_ok _ _ _ _ _ (get_node_ok _ _ _ Hn)).
      destruct (truthy (_environment nd)) eqn:Htr; [| reflexivity].
      rewrite (bind_ok _ _ _ _ _ (root_ok fuel s _ _ Hanc Hfuel)).
      rewrite (bind_ok _ _ _ _ _ (get_node_ok _ _ _ Hr)).
      rewrite (Henv eq_refl). reflexivity. }
    (* the assignments *)
    rewrite (upd_node_bind _ _ _ _ _ Hn). cbv beta.
    rewrite (bool_decide_eq_true_2 (Some np <> None)) by discriminate.
    set (nd1 := set_subpath (default "" sub) nd).
    set (s1 := MkState (<[this := nd1]> (heap s)) (trace s)).
    assert (Hanc1 : ancestors (heap s1) np l).
    { eapply ancestors_ext; [| exact Hanc]. intros y. symmetry.
      eapply parent_of_insert; [exact Hn |]. destruct nd; reflexivity. }
    rewrite (bind_ok _ _ _ _ _ (root_ok fuel s1 _ _ Hanc1 Hfuel)).
    assert (Hr1 : heap s1 !! top_of np l = Some rd).
    { simpl. rewrite lookup_insert_ne by congruence. exact Hr. }
    assert (Hn1 : heap s1 !! this = Some nd1) by (simpl; apply lookup_insert_eq).
    rewrite (bind_ok _ _ _ _ _ (get_node_ok _ _ _ Hr1)).
    rewrite (bind_ok _ _ _ _ _ (get_node_ok _ _ _ Hn1)).
    rewrite Hcache.
    replace (identifierCache nd1) with (Some mine) by (destruct nd; simpl in *; congruence).
    rewrite Hmerge.
    rewrite (upd_node_bind _ _ _ _ _ Hr1). cbv beta.
    erewrite upd_node_bind; cycle 1.
    { simpl. rewrite lookup_insert_ne by congruence. apply lookup_insert_eq. }
    cbv beta.
    erewrite fireHook_ok; cycle 1.
    { simpl. apply lookup_insert_eq. }
    simpl. f_equal. f_equal.
    + subst h' nd' nd1.
      rewrite (insert_insert_ne _ (top_of np l) this) by congruence.
      rewrite insert_insert_eq. reflexivity.
    + f_equal. unfold hook_call. destruct nd; reflexivity.
  - assert (Hagree : forall y, y ∈ np :: l -> parent_of h' y = parent_of (heap s) y).
    { intros y Hy. subst h'. unfold parent_of.
      rewrite lookup_insert_ne by (intros ->; contradiction).
      destruct (decide (y = top_of np l)) as [-> | Hne].
      - rewrite lookup_insert_eq, Hr. destruct rd; reflexivity.
      - rewrite lookup_insert_ne by congruence. reflexivity. }
    eapply ancestors_step.
    + subst h'. apply lookup_insert_eq.
    + subst nd'. destruct nd; reflexivity.
    + eapply ancestors_agree; [exact Hagree | exact Hanc].
  - apply top_of_cons.
  - intros x Hx1 Hx2. subst h'. rewrite !lookup_insert_ne by congruence. reflexivity.
Qed.

(** X7.  Attaching a root.  [setParent] on a node without parent, with a new
    parent that lies in another tree, whose root has the same environment
    unless the node has none of its own, and whose identifier cache takes
    the registrations of the node without a clash: the node gets the subpath
    and the parent, the cache of the new root absorbs the cache of the node,
    the [afterAttach] hook is called if the stored value defines it, and
    nothing else changes; the node then lies in the tree of its new parent,
    one level below it. *)
Theorem setParent_attaches_root (fuel : nat) (s : state) (this np : nid)
  (nd rd : node) (l : list nid) (sub : option string)
  (mine cache merged : IdentifierCache)
  (Hn : heap s !! this = Some nd) (Hp : _parent nd = None)
  (Hanc : ancestors (heap s) np l) (Hfuel : length l < fuel)
  (Hother : top_of np l <> this)
  (Hr : heap s !! top_of np l = Some rd)
  (Henv : truthy (_environment nd) = true ->
          strict_eq (_environment nd) (_environment rd) = true)
  (Hcache : identifierCache rd = Some cache)
  (Hmine : identifierCache nd = Some mine)
  (Hmerge : IdCache.mergeCache cache mine = Ok merged) :
  let nd' := set_parent (Some np) (set_subpath (default "" sub) nd) in
  let h' := <[this := nd']>
              (<[top_of np l := set_identifierCache (Some merged) rd]> (heap s)) in
  setParent fuel this (Some np) sub s
    = (Ok tt, MkState h' (trace s ++ hook_call this "afterAttach" nd)) /\
  ancestors h' this (np :: l) /\
  top_of this (np :: l) = top_of np l /\
  (forall x, x <> this -> x <> top_of np l -> h' !! x = heap s !! x).
Proof.
  exact (setParent_attach_ok fuel s this np nd rd l sub mine cache merged
           Hn Hp Hanc Hfuel Hother Hr Henv Hcache Hmine Hmerge).
Qed.

Lemma abTree_chain_3 : ancestors (heap abTree) 3%positive [2%positive; 1%positive].
Proof.
  eapply ancestors_step; [reflexivity | reflexivity |].
  eapply ancestors_step; [reflexivity | reflexivity |].
  eapply ancestors_root; reflexivity.
Qed.

Lemma twoTrees_chain_2 : ancestors (heap twoTrees) 2%positive [1%positive].
Proof.
  eapply ancestors_step; [reflexivity | reflexivity |].
  eapply ancestors_root; reflexivity.
Qed.

Lemma setParent_attaches_root_witness :
  setParent 5 5%positive (Some 2%positive) (Some "c") twoTrees
  = (Ok tt,
     MkState
       (<[5%positive :=
            set_parent (Some 2%positive)
              (set_subpath "c" (sample_node NodeC "Item" 5%positive None "" []))]>
          (<[1%positive :=
               set_identifierCache (Some [])
                 (sample_node NodeC "Store" 1%positive None "" [("a", 2%positive)])]>
             (heap twoTrees)))
       [HookCalled 5%positive "afterAttach"]).
Proof.
  destruct (setParent_attaches_root 5 twoTrees 5%positive 2%positive
              (sample_node NodeC "Item" 5%positive None "" [])
              (sample_node NodeC "Store" 1%positive None "" [("a", 2%positive)])
              [1%positive] (Some "c") [] [] []
              eq_refl eq_refl twoTrees_chain_2 ltac:(simpl; lia) ltac:(discriminate)
              eq_refl ltac:(discriminate) eq_refl eq_refl eq_refl)
    as (H & _).
  exact H.
Defined.


Lemma abTree_chain_1 : ancestors (heap abTree) 1%positive [].
Proof. eapply ancestors_root; reflexivity. Qed.


(** X9.  Environments must agree.  [setParent] on a node without parent that
    was created with an environment, with a new parent in a tree whose root
    has another environment (or none), raises the environments error and
    changes nothing. *)
Theorem setParent_rejects_other_environment (fuel : nat) (s : state) (this np : nid)
  (nd rd : node) (l : list nid) (sub : option string)
  (Hn : heap s !! this = Some nd) (Hp : _parent nd = None)
  (Hanc : ancestors (heap s) np l) (Hfuel : length l < fuel)
  (Hother : top_of np l <> this)
  (Hr : heap s !! top_of np l = Some rd)
  (Hmine : truthy (_environment nd) = true)
  (Hdiff : strict_eq (_environment nd) (_environment rd) = false) :
  setParent fuel this (Some np) sub s = (Throw EnvironmentsDiffer, s).
Proof.
  assert (Hself : ancestors (heap s) this []) by (econstructor; eassumption).
  assert (Hf0 : length (@nil nid) < fuel) by (simpl; lia).
  unfold setParent.
  rewrite (bind_ok _ _ _ _ _ (get_node_ok _ _ _ Hn)), Hp.
  rewrite (bool_decide_eq_false_2 (None = Some np)) by discriminate. cbn [andb].
  erewrite bind_throw; [reflexivity |].
  erewrite bind_ok by reflexivity.
  erewrite bind_ok; cycle 1.
  { rewrite (bind_ok _ _ _ _ _ (root_ok fuel s _ _ Hanc Hfuel)).
    rewrite (bool_decide_eq_false_2 (top_of np l = this)) by assumption. reflexivity. }
  rewrite (bind_ok _ _ _ _ _ (root_ok fuel s _ _ Hself Hf0)).
  change (top_of this []) with this.
  rewrite (bind_ok _ _ _ _ _ (get_node_ok _ _ _ Hn)).
  rewrite Hmine.
  rewrite (bind_ok _ _ _ _ _ (root_ok fuel s _ _ Hanc Hfuel)).
  rewrite (bind_ok _ _ _ _ _ (get_node_ok _ _ _ Hr)).
  rewrite Hdiff. reflexivity.
Qed.

Lemma setParent_rejects_other_environment_witness :
  setParent 5 6%positive (Some 2%positive) (Some "c") twoTrees
    = (Throw EnvironmentsDiffer, twoTrees).
Proof.
  apply (setParent_rejects_other_environment 5 twoTrees 6%positive 2%positive
           (set_environment (VObj 77 "env") (sample_node NodeC "Item" 6%positive None "" []))
           (sample_node NodeC "Store" 1%positive None "" [("a", 2%positive)])
           [1%positive] (Some "c"));
    [reflexivity | reflexivity | exact twoTrees_chain_2 | simpl; lia | discriminate
    | reflexivity | reflexivity | reflexivity].
Defined.

(** X10.  Keeping the parent.  [setParent] with the parent the node has (also
    none, for a root) and another subpath assigns the subpath, the empty
    string for null, and does nothing else: no hook, no cache, and the child
    table of the parent is not touched. *)
Theorem setParent_same_parent_renames (fuel : nat) (s : state) (this : nid)
  (nd : node) (sub : option string)
  (Hn : heap s !! this = Some nd) (Hsub : Some (subpath nd) <> sub) :
  setParent fuel this (_parent nd) sub s
  = (Ok tt, MkState (<[this := set_subpath (default "" sub) nd]> (heap s)) (trace s)).
Proof.
  unfold setParent.
  rewrite (bind_ok _ _ _ _ _ (get_node_ok _ _ _ Hn)).
  rewrite (bool_decide_eq_false_2 (Some (subpath nd) = sub)) by assumption.
  rewrite andb_false_r.
  destruct (_parent nd) as [p |] eqn:Hp.
  - rewrite (bool_decide_eq_false_2 (p <> p)) by (intros H; apply H; reflexivity).
    erewrite bind_ok by reflexivity.
    rewrite (upd_node_bind _ _ _ _ _ Hn). cbv beta.
    rewrite (bool_decide_eq_false_2 (Some p <> Some p)) by (intros H; apply H; reflexivity).
    reflexivity.
  - erewrite bind_ok by reflexivity.
    rewrite (upd_node_bind _ _ _ _ _ Hn). reflexivity.
Qed.

Lemma setParent_same_parent_renames_witness :
  setParent 5 2%positive (Some 1%positive) None abTree
  = (Ok tt,
     MkState
       (<[2%positive :=
            sample_node NodeC "A" 2%positive (Some 1%positive) "" [("b", 3%positive)]]>
          (heap abTree))
       []).
Proof.
  apply (setParent_same_parent_renames 5 abTree 2%positive
           (sample_node NodeC "A" 2%positive (Some 1%positive) "a" [("b", 3%positive)])
           None);
    [reflexivity | discriminate].
Defined.

(** X11.  Giving up the parent.  [setParent] with null on a node that has a parent
    is [die], whatever the subpath: a mutable node dies with its subtree; an
    immutable node, whose [die] is empty, stays where it is, parent and
    subpath as before. *)
Theorem setParent_null_is_die (fuel : nat) (s : state) (this p : nid)
  (nd : node) (sub : option string)
  (Hn : heap s !! this = Some nd) (Hp : _parent nd = Some p) :
  setParent fuel this None sub s = die fuel this s /\
  (cls nd = ImmutableNodeC -> setParent fuel this None sub s = (Ok tt, s)).
Proof.
  assert (H : setParent fuel this None sub s = die fuel this s).
  { unfold setParent.
    rewrite (bind_ok _ _ _ _ _ (get_node_ok _ _ _ Hn)), Hp.
    rewrite (bool_decide_eq_false_2 (Some p = None)) by discriminate. cbn [andb].
    erewrite bind_ok by reflexivity. reflexivity. }
  split; [exact H |].
  intros Hc. rewrite H. unfold die.
  rewrite (bind_ok _ _ _ _ _ (get_node_ok _ _ _ Hn)), Hc. reflexivity.
Qed.

Lemma setParent_null_is_die_witness :
  setParent 5 3%positive None None abTree = die 5 3%positive abTree /\
  (ImmutableNodeC = ImmutableNodeC ->
   setParent 5 3%positive None None abTree = (Ok tt, abTree)).
Proof.
  apply (setParent_null_is_die 5 abTree 3%positive 2%positive
           (MkNode ImmutableNodeC "number" (Some 2%positive) "b" false None true None
              VUndefined true false [] [] [] [] None [] [] (VNum 1) (VNum 1) None None)
           None);
    reflexivity.
Defined.

(** *** Creation *)

Lemma fresh_lookup (h : gmap nid node) : h !! fresh (dom h) = None.
Proof. apply not_elem_of_dom. apply is_fresh. Qed.

Lemma on_exception_ok {A} (c : M A) cleanup s a s' :
  c s = (Ok a, s') -> on_exception c cleanup s = (Ok a, s').
Proof. unfold on_exception. intros ->. reflexivity. Qed.

Lemma new_node_restore parent sub env i this :
  set_isRunningAction false (set_isRunningAction true (new_node parent sub env i this))
  = new_node parent sub env i this.
Proof. reflexivity. Qed.

Lemma addNodeToCache_new cache this parent sub env i :
  (forall id e, i_identifier i = Some id -> e ∈ cache -> e.1 <> (i_typeName i, id)) ->
  IdCache.addNodeToCache cache this (new_node parent sub env i this)
  = Ok (cache ++ registration this i).
Proof.
  intros Hfree. unfold IdCache.addNodeToCache, registration. simpl.
  destruct (i_identifier i) as [id |]; [| rewrite app_nil_r; reflexivity].
  destruct (existsb _ cache) eqn:Hex; [| reflexivity].
  apply existsb_exists in Hex as (e & Hin & He).
  apply bool_decide_eq_true_1 in He. apply list_elem_of_In in Hin.
  exfalso. exact (Hfree id e eq_refl Hin He).
Qed.

Lemma addDisposer_fresh this nd tr (h : gmap nid node) :
  cls nd = NodeC ->
  addDisposer this snapshotDisposer (MkState (<[this := nd]> h) tr)
  = (Ok tt, MkState (<[this := set_disposers (snapshotDisposer :: disposers nd) nd]> h) tr).
Proof.
  intros Hc. unfold addDisposer.
  erewrite unsupported_mutable; [| simpl; apply lookup_insert_eq | exact Hc].
  erewrite upd_node_ok by (cbn [heap]; apply lookup_insert_eq).
  simpl. rewrite insert_insert_eq. reflexivity.
Qed.

(** X12.  Creating a tree.  [createNode] without parent, for a value that is not
    tree-attached yet and whose initialisation does not throw, makes a node
    object that was not there before: a [Node] when the stored value can
    carry a node and an [ImmutableNode] otherwise, alive, without parent, not
    in an action, with an identifier cache of its own that holds its own
    identifier if it has one, and, for a [Node], with the disposer of its
    snapshot reaction.  [afterCreate] is called if the stored value defines
    it; [afterAttach] is not.  The nodes that were there are untouched. *)
Theorem createNode_makes_root (fuel : nat) (s : state) (sub : string)
  (environment : jsval) (i : instance)
  (Hfin : i_finalize i = None) :
  let this := fresh (dom (heap s)) in
  let nd := created_node None sub environment i this in
  createNode fuel None sub environment (FreshValue i) s
    = (Ok this,
       MkState (<[this := nd]> (heap s)) (trace s ++ creation_hooks this false i)) /\
  heap s !! this = None /\
  cls nd = (if i_canAttach i then NodeC else ImmutableNodeC) /\
  _isAlive nd = true /\ _parent nd = None /\ _isRunningAction nd = false /\
  identifierCache nd = Some (registration this i) /\
  disposers nd = (if i_canAttach i then [snapshotDisposer] else []).
Proof.
  intros this nd. split; [| split; [apply fresh_lookup |]].
  - cbn [createNode]. unfold construct.
    erewrite bind_ok by reflexivity. fold this.
    set (nd0 := new_node None sub environment i this).
    erewrite bind_ok; cycle 1.
    { apply on_exception_ok.
      erewrite upd_node_bind by (cbn [heap]; apply lookup_insert_eq). cbv beta.
      rewrite Hfin. erewrite bind_ok by reflexivity.
      erewrite upd_node_bind by (cbn [heap]; apply lookup_insert_eq). cbv beta.
      erewrite bind_ok by reflexivity.
      cbn [heap trace]. rewrite !insert_insert_eq.
      subst nd0. rewrite new_node_restore.
      erewrite bind_ok by (apply get_node_ok; cbn [heap]; apply lookup_insert_eq).
      erewrite bind_ok by (apply get_node_ok; cbn [heap]; apply lookup_insert_eq).
      erewrite bind_ok; cycle 1.
      { cbn [new_node identifierCache].
        rewrite (addNodeToCache_new [] this None sub environment i)
          by (intros id e _ He; inversion He).
        apply upd_node_ok. simpl. apply lookup_insert_eq. }
      cbn [heap trace]. rewrite insert_insert_eq.
      erewrite bind_ok by (apply fireHook_ok; simpl; apply lookup_insert_eq).
      reflexivity. }
    cbn [heap trace].
    unfold creation_hooks. cbn [andb]. rewrite app_nil_r.
    subst nd. unfold created_node. cbn [app].
    destruct (i_canAttach i) eqn:Hcan.
    + erewrite bind_ok; cycle 1.
      { apply addDisposer_fresh. simpl. rewrite Hcan. reflexivity. }
      unfold hook_call. simpl. rewrite Hcan. reflexivity.
    + erewrite bind_ok by reflexivity.
      unfold hook_call. simpl. rewrite Hcan. reflexivity.
  - subst nd. unfold created_node. destruct (i_canAttach i) eqn:Hcan;
      simpl; rewrite ?Hcan; repeat split; reflexivity.
Qed.

Lemma createNode_makes_root_witness :
  createNode 5 None "" VUndefined (FreshValue item_instance) abTree
  = (Ok 4%positive,
     MkState
       (<[4%positive := created_node None "" VUndefined item_instance 4%positive]>
          (heap abTree))
       [HookCalled 4%positive "afterCreate"]).
Proof.
  destruct (createNode_makes_root 5 abTree "" VUndefined item_instance eq_refl) as (H & _).
  exact H.
Defined.

(** X13.  Creating a child.  [createNode] with a parent, for a value that is not
    tree-attached yet, whose initialisation does not throw and whose
    identifier is not taken in the tree: the new node object refers to the
    parent, has no identifier cache of its own, and is registered in the
    cache of the root of the parent; [afterCreate] and then [afterAttach] are
    called where the stored value defines them.  Apart from the cache of the
    root nothing changes in the nodes that were there: the new node is not
    entered into the child table of its parent, which is left to the type. *)
Theorem createNode_makes_child (fuel : nat) (s : state) (p : nid)
  (l : list nid) (rd : node) (cache : IdentifierCache) (sub : string)
  (environment : jsval) (i : instance)
  (Hanc : ancestors (heap s) p l) (Hfuel : length l < fuel)
  (Hr : heap s !! top_of p l = Some rd)
  (Hcache : identifierCache rd = Some cache)
  (Hfin : i_finalize i = None)
  (Hfree : forall id e, i_identifier i = Some id -> e ∈ cache ->
                        e.1 <> (i_typeName i, id)) :
  let this := fresh (dom (heap s)) in
  let nd := created_node (Some p) sub environment i this in
  let h' := <[this := nd]>
              (<[top_of p l :=
                   set_identifierCache (Some (cache ++ registration this i)) rd]>
                 (heap s)) in
  createNode fuel (Some p) sub environment (FreshValue i) s
    = (Ok this, MkState h' (trace s ++ creation_hooks this true i)) /\
  heap s !! this = None /\
  ancestors h' this (p :: l) /\
  _isAlive nd = true /\ identifierCache nd = None /\
  (forall x xd, heap s !! x = Some xd ->
     exists xd', h' !! x = Some xd' /\ children xd' = children xd /\
                 (x <> top_of p l -> xd' = xd)).
Proof.
  intros this nd h'.
  pose proof (fresh_lookup (heap s)) as Hfresh. fold this in Hfresh.
  assert (Hne : top_of p l <> this) by (intros Heq; rewrite Heq in Hr; congruence).
  set (nd0 := new_node (Some p) sub environment i this).
  assert (Hagree0 : forall y, y ∈ p :: l ->
            parent_of (<[this := nd0]> (heap s)) y = parent_of (heap s) y).
  { intros y Hy. unfold parent_of. rewrite lookup_insert_ne; [reflexivity |].
    intros <-. 
    apply list_elem_of_split in Hy as (pre & post & Heq).
    destruct pre as [| z pre]; simpl in Heq.
    - injection Heq as -> ->. destruct (ancestors_lookup _ _ _ Hanc) as (x & Hx). congruence.
    - injection Heq as -> ->.
      destruct (ancestors_lookup _ _ _ (ancestors_suffix _ _ _ Hanc pre this post eq_refl))
        as (x & Hx). congruence. }
  split; [| split; [exact Hfresh | split; [| split; [| split]]]].
  - cbn [createNode]. unfold construct.
    erewrite bind_ok by reflexivity. fold this. fold nd0.
    erewrite bind_ok; cycle 1.
    { apply on_exception_ok.
      erewrite upd_node_bind by (cbn [heap]; apply lookup_insert_eq). cbv beta.
      rewrite Hfin. erewrite bind_ok by reflexivity.
      erewrite upd_node_bind by (cbn [heap]; apply lookup_insert_eq). cbv beta.
      cbn [heap trace]. rewrite !insert_insert_eq.
      unfold nd0. rewrite new_node_restore. fold nd0.
      erewrite bind_ok; cycle 1.
      { apply (root_ok fuel _ p l); [| exact Hfuel]. simpl.
        eapply ancestors_agree; [exact Hagree0 | exact Hanc]. }
      erewrite bind_ok; cycle 1.
      { apply get_node_ok. simpl. rewrite lookup_insert_ne by congruence. exact Hr. }
      erewrite bind_ok by (apply get_node_ok; cbn [heap]; apply lookup_insert_eq).
      rewrite Hcache.
      erewrite bind_ok; cycle 1.
      { unfold nd0. rewrite (addNodeToCache_new cache this (Some p) sub environment i Hfree).
        apply upd_node_ok. simpl. rewrite lookup_insert_ne by congruence. exact Hr. }
      cbn [heap trace].
      erewrite bind_ok; cycle 1.
      { apply fireHook_ok. simpl. rewrite lookup_insert_ne by congruence.
        apply lookup_insert_eq. }
      cbn [heap trace].
      erewrite fireHook_ok; cycle 1.
      { simpl. rewrite lookup_insert_ne by congruence. apply lookup_insert_eq. }
      reflexivity. }
    cbn [heap trace].
    assert (Htrace : (trace s ++ hook_call this "afterCreate" nd0)
                       ++ hook_call this "afterAttach" nd0
                     = trace s ++ creation_hooks this true i).
    { rewrite <- app_assoc. reflexivity. }
    fold nd0. rewrite Htrace.
    subst nd h'. unfold created_node. fold nd0.
    destruct (i_canAttach i) eqn:Hcan.
    + rewrite (insert_insert_ne _ (top_of p l) this) by congruence.
      erewrite bind_ok; cycle 1.
      { apply addDisposer_fresh. unfold nd0. simpl. rewrite Hcan. reflexivity. }
      reflexivity.
    + erewrite bind_ok by reflexivity.
      rewrite (insert_insert_ne _ (top_of p l) this) by congruence. reflexivity.
  - eapply ancestors_step.
    + subst h'. apply lookup_insert_eq.
    + subst nd. unfold created_node. destruct (i_canAttach i); reflexivity.
    + eapply ancestors_agree; [| exact Hanc].
      intros y Hy. rewrite <- (Hagree0 y Hy). subst h'. unfold parent_of.
      destruct (decide (y = this)) as [-> | Hy1].
      { exfalso. specialize (Hagree0 this Hy). unfold parent_of in Hagree0.
        rewrite lookup_insert_eq, Hfresh in Hagree0. discriminate. }
      rewrite !(lookup_insert_ne _ this) by congruence.
      destruct (decide (y = top_of p l)) as [-> | Hy2].
      * rewrite lookup_insert_eq, Hr. destruct rd; reflexivity.
      * rewrite lookup_insert_ne by congruence. reflexivity.
  - subst nd. unfold created_node. destruct (i_canAttach i); reflexivity.
  - subst nd. unfold created_node. destruct (i_canAttach i); reflexivity.
  - intros x xd Hx. assert (x <> this) by congruence. subst h'.
    rewrite lookup_insert_ne by congruence.
    destruct (decide (x = top_of p l)) as [-> | Hx2].
    + rewrite lookup_insert_eq. eexists. split; [reflexivity |].
      rewrite Hr in Hx. injection Hx as <-. split; [destruct rd; reflexivity | congruence].
    + rewrite lookup_insert_ne by congruence. exists xd. repeat split; assumption.
Qed.

Lemma abTree_chain_2 : ancestors (heap abTree) 2%positive [1%positive].
Proof.
  eapply ancestors_step; [reflexivity | reflexivity |].
  eapply ancestors_root; reflexivity.
Qed.

Lemma createNode_makes_child_witness :
  createNode 5 (Some 2%positive) "c" VUndefined (FreshValue item_instance) abTree
  = (Ok 4%positive,
     MkState
       (<[4%positive := created_node (Some 2%positive) "c" VUndefined item_instance 4%positive]>
          (<[1%positive :=
               set_identifierCache (Some [(("Item", "i1"), 4%positive)])
                 (sample_node NodeC "Store" 1%positive None "" [("a", 2%positive)])]>
             (heap abTree)))
       [HookCalled 4%positive "afterCreate"; HookCalled 4%positive "afterAttach"]).
Proof.
  destruct (createNode_makes_child 5 abTree 2%positive [1%positive]
              (sample_node NodeC "Store" 1%positive None "" [("a", 2%positive)])
              [] "c" VUndefined item_instance
              abTree_chain_2 ltac:(simpl; lia) eq_refl eq_refl eq_refl
              ltac:(intros id e _ He; inversion He))
    as (H & _).
  exact H.
Defined.

(** X14.  A failed creation.  When the initialisation of the new instance throws,
    [createNode] lets the error through; the node object of the half-made
    instance stays behind marked as not alive, still flagged as running an
    action; it is registered in no identifier cache, none of its hooks is
    called, and the nodes that were there are untouched. *)
Theorem createNode_failure_marks_node_dead (fuel : nat) (s : state)
  (parent : option nid) (sub : string) (environment : jsval) (i : instance)
  (e : error)
  (Hfin : i_finalize i = Some e) :
  let this := fresh (dom (heap s)) in
  let nd := set_isAlive false
              (set_isRunningAction true (new_node parent sub environment i this)) in
  createNode fuel parent sub environment (FreshValue i) s
    = (Throw e, MkState (<[this := nd]> (heap s)) (trace s)) /\
  heap s !! this = None /\
  dead this (MkState (<[this := nd]> (heap s)) (trace s)).
Proof.
  intros this nd. split; [| split; [apply fresh_lookup |]].
  - cbn [createNode]. unfold construct.
    erewrite bind_ok by reflexivity. fold this.
    erewrite bind_throw; [reflexivity |].
    unfold on_exception.
    erewrite upd_node_bind by (cbn [heap]; apply lookup_insert_eq). cbv beta.
    rewrite Hfin. erewrite bind_throw by reflexivity.
    erewrite upd_node_ok by (cbn [heap]; apply lookup_insert_eq).
    cbn [heap trace]. rewrite !insert_insert_eq. reflexivity.
  - exists nd. split; [cbn [heap]; apply lookup_insert_eq | reflexivity].
Qed.

Lemma createNode_failure_marks_node_dead_witness :
  createNode 5 (Some 2%positive) "c" VUndefined (FreshValue failing_instance) abTree
  = (Throw (TypeError "finalizeNewInstance"),
     MkState
       (<[4%positive :=
            set_isAlive false
              (set_isRunningAction true
                 (new_node (Some 2%positive) "c" VUndefined failing_instance 4%positive))]>
          (heap abTree))
       []).
Proof.
  destruct (createNode_failure_marks_node_dead 5 abTree (Some 2%positive) "c" VUndefined
              failing_instance (TypeError "finalizeNewInstance") eq_refl) as (H & _).
  exact H.
Defined.

(** X15.  A value that is a node already.  [createNode] for a tree-attached value
    makes no node object: if the node of the value has a parent it raises the
    already-part-of-a-tree error and changes nothing; if the node is a root
    it is [setParent] on that node, and the node itself is returned. *)
Theorem createNode_adopts_root_only (fuel : nat) (s : state) (target : nid)
  (td : node) (parent : option nid) (sub : string) (environment : jsval)
  (Ht : heap s !! target = Some td) :
  (_parent td <> None ->
   createNode fuel parent sub environment (AttachedValue target) s
     = (Throw AlreadyPartOfTree, s)) /\
  (_parent td = None ->
   createNode fuel parent sub environment (AttachedValue target) s
     = (run setParent fuel target parent (Some sub); ret target) s).
Proof.
  split; intros Hp; cbn [createNode]; rewrite (bind_ok _ _ _ _ _ (isRoot_ok _ _ _ Ht)).
  - rewrite (bool_decide_eq_false_2 (_parent td = None)) by assumption. reflexivity.
  - rewrite (bool_decide_eq_true_2 (_parent td = None)) by assumption.
    erewrite bind_ok by reflexivity. reflexivity.
Qed.

Lemma createNode_adopts_root_only_witness :
  createNode 5 (Some 1%positive) "x" VUndefined (AttachedValue 2%positive) twoTrees
    = (Throw AlreadyPartOfTree, twoTrees) /\
  createNode 5 (Some 2%positive) "c" VUndefined (AttachedValue 5%positive) twoTrees
    = (run setParent 5 5%positive (Some 2%positive) (Some "c"); ret 5%positive) twoTrees.
Proof.
  split.
  - apply (createNode_adopts_root_only 5 twoTrees 2%positive
             (sample_node NodeC "A" 2%positive (Some 1%positive) "a" [("b", 3%positive)])
             (Some 1%positive) "x" VUndefined eq_refl).
    discriminate.
  - apply (createNode_adopts_root_only 5 twoTrees 5%positive
             (sample_node NodeC "Item" 5%positive None "" [])
             (Some 2%positive) "c" VUndefined eq_refl).
    reflexivity.
Defined.

(** *** The writes of the node core *)

Section Writes.
Variable strict : bool.

Lemma writes_same {A} (c : M A) s : snd (c s) = s -> writes strict s c.
Proof. intros H. unfold writes. rewrite H. apply rtc_refl. Qed.

Lemma writes_read_only {A} (c : M A) s : read_only c -> writes strict s c.
Proof. intros H. apply writes_same, H. Qed.

Lemma writes_ret {A} (a : A) s : writes strict s (ret a).
Proof. apply writes_same. reflexivity. Qed.

Lemma writes_throw {A} e s : writes strict s (@throw A e).
Proof. apply writes_same. reflexivity. Qed.

Lemma writes_stuck {A} s : writes strict s (@stuck A).
Proof. apply writes_same. reflexivity. Qed.

Lemma writes_emit e s : writes strict s (emit e).
Proof. unfold writes. simpl. apply rtc_refl. Qed.

Lemma writes_bind {A B} (c : M A) (k : A -> M B) s :
  writes strict s c ->
  (forall a s', c s = (Ok a, s') -> writes strict s' (k a)) ->
  writes strict s (bind c k).
Proof.
  unfold writes, bind. intros Hc Hk.
  destruct (c s) as [[a | e |] s'] eqn:E; simpl in *; [| exact Hc..].
  etransitivity; [exact Hc | apply Hk; reflexivity].
Qed.

Lemma writes_upd_node n f s :
  (forall nd, heap s !! n = Some nd -> assigns nd (f nd)) ->
  writes strict s (upd_node n f).
Proof.
  intros Hf. unfold writes, upd_node.
  destruct (heap s !! n) as [nd |] eqn:Hn; simpl; [| apply rtc_refl].
  apply rtc_once. eapply step_assigns; [exact Hn | apply Hf; reflexivity].
Qed.

Lemma writes_forEach {A} (l : list A) (f : A -> M unit) :
  (forall a s, writes strict s (f a)) -> forall s, writes strict s (forEach l f).
Proof.
  intros Hf. induction l as [| a l IH]; intros s; simpl.
  - apply writes_ret.
  - apply writes_bind; [apply Hf | intros _ s' _; apply IH].
Qed.

Lemma writes_try_finally {A} (c : M A) fin s :
  writes strict s c -> (forall s', writes strict s' fin) ->
  writes strict s (try_finally c fin).
Proof.
  unfold writes, try_finally. intros Hc Hfin.
  destruct (c s) as [[a | e |] s']; simpl in *; [| | exact Hc];
    specialize (Hfin s'); destruct (fin s') as [[[] | e' |] s'']; simpl in *;
    (etransitivity; [exact Hc | exact Hfin]).
Qed.

Lemma writes_on_exception {A} (c : M A) cleanup s :
  writes strict s c -> (forall s', writes strict s' cleanup) ->
  writes strict s (on_exception c cleanup).
Proof.
  unfold writes, on_exception. intros Hc Hfin.
  destruct (c s) as [[a | e |] s']; simpl in *; [exact Hc | | exact Hc].
  specialize (Hfin s'). destruct (cleanup s') as [[[] | e' |] s'']; simpl in *;
    (etransitivity; [exact Hc | exact Hfin]).
Qed.

Lemma writes_discard {A} (c : M A) s : writes strict s c -> writes strict s (discard c).
Proof. intros Hc. apply writes_bind; [exact Hc | intros; apply writes_ret]. Qed.

End Writes.

(** What a successful [upd_node] and a successful [get_node] tell. *)
Lemma upd_node_inv n f s a s' :
  upd_node n f s = (Ok a, s') ->
  exists nd, heap s !! n = Some nd /\ s' = MkState (<[n := f nd]> (heap s)) (trace s).
Proof.
  unfold upd_node. destruct (heap s !! n) as [nd |]; [| discriminate].
  intros H. injection H as _ <-. eauto.
Qed.

Lemma get_node_inv n s nd s' :
  get_node n s = (Ok nd, s') -> heap s !! n = Some nd /\ s' = s.
Proof.
  unfold get_node, lift_option. destruct (heap s !! n); [| discriminate].
  intros H. injection H as -> <-. split; reflexivity.
Qed.

Lemma read_only_inv {A} (c : M A) s r s' : read_only c -> c s = (r, s') -> s' = s.
Proof. intros Hro H. specialize (Hro s). rewrite H in Hro. exact Hro. Qed.

Ltac writes_field :=
  intros ? ?;
  first [ constructor
        | apply (assigns_handlers PatchSubscribers)
        | apply (assigns_handlers SnapshotSubscribers)
        | apply (assigns_handlers Middlewares) ].

(** Discharges a goal [writes strict s c] whose writes hold unconditionally. *)
Ltac writes :=
  repeat first
    [ apply writes_ret | apply writes_throw | apply writes_stuck | apply writes_emit
    | apply writes_read_only; solve [read_only
                                     | apply ro_resolvePath_loop | apply ro_getRelativePathTo
                                     | apply ro_getChildNode | apply ro_getChildren
                                     | apply ro_parent | apply ro_assertAlive ]
    | apply writes_upd_node; solve [writes_field]
    | apply writes_forEach; intros ? ?
    | apply writes_try_finally; [| intros ?]
    | apply writes_on_exception; [| intros ?]
    | apply writes_discard
    | apply writes_bind; [| intros ? ? _]
    | match goal with
      | |- writes _ _ (match ?b with _ => _ end) => destruct b
      | |- writes _ _ (let '(_, _) := ?b in _) => destruct b
      end ].

Lemma writes_fireHook strict n name s : writes strict s (fireHook n name).
Proof. unfold fireHook. writes. Qed.

Lemma writes_aboutToDie strict n s : writes strict s (aboutToDie n).
Proof. unfold aboutToDie, Node_aboutToDie. writes; apply writes_fireHook. Qed.

Lemma bind_inv {A B} (c : M A) (k : A -> M B) s b s' :
  bind c k s = (Ok b, s') -> exists a s1, c s = (Ok a, s1) /\ k a s1 = (Ok b, s').
Proof.
  unfold bind. destruct (c s) as [[a | e |] s1]; try discriminate. eauto.
Qed.

Lemma writes_finalizeDeath strict fuel n s : writes strict s (finalizeDeath fuel n).
Proof.
  unfold finalizeDeath, Node_finalizeDeath.
  apply writes_bind; [writes | intros nd s1 _]. destruct (cls nd); [writes |].
  apply writes_bind; [writes | intros r s2 _].
  apply writes_bind; [writes | intros rd s3 _].
  destruct (identifierCache rd); [| writes].
  apply writes_bind; [writes | intros _ s4 _].
  apply writes_bind; [writes | intros oldPath s5 _].
  apply writes_bind; [unfold snapshot; writes | intros last s6 Hlast].
  unfold snapshot in Hlast. apply bind_inv in Hlast as (cur & s5' & Hcur & Hret).
  apply get_node_inv in Hcur as [Hcur ->]. injection Hret as <- <-.
  apply writes_bind.
  { apply writes_upd_node. intros nd' Hnd'. rewrite Hcur in Hnd'. injection Hnd' as <-.
    constructor. }
  intros _ s7 _.
  apply writes_bind; [writes | intros _ s8 _].
  apply writes_bind; [writes | intros _ s9 _].
  apply writes_bind; [writes | intros _ s10 _].
  apply writes_bind; [writes | intros [] s11 Hdead].
  apply upd_node_inv in Hdead as (prev & Hprev & ->).
  apply writes_bind.
  { apply writes_upd_node. cbn [heap]. rewrite lookup_insert_eq. intros nd' Hnd'.
    injection Hnd' as <-. apply assigns_no_parent. left. destruct prev; reflexivity. }
  intros _ s12 _. writes.
Qed.

Lemma writes_walk strict fuel processor :
  (forall n s, writes strict s (processor n)) ->
  forall holder s, writes strict s (walk fuel processor holder).
Proof.
  intros Hp. induction fuel as [| f IH]; intros holder s; simpl.
  - apply writes_stuck.
  - apply writes_bind; [unfold getStateTreeNode; writes | intros n s1 _].
    apply writes_bind; [writes | intros kids s2 _].
    apply writes_bind; [| intros _ s3 _; apply Hp].
    apply writes_forEach. intros child s3.
    apply writes_bind; [unfold isStateTreeNode; writes | intros [] s4 _];
      [apply IH | apply writes_ret].
Qed.

Lemma writes_die strict fuel n s : writes strict s (die fuel n).
Proof.
  unfold die, ImmutableNode_die, Node_die.
  apply writes_bind; [writes | intros nd s1 _]. destruct (cls nd); [writes |].
  apply writes_bind; [writes | intros nd' s2 _]. destruct (_isDetaching nd'); [writes |].
  apply writes_bind; [unfold isStateTreeNode; writes | intros [] s3 _]; [| writes].
  apply writes_bind; [| intros _ s4 _]; apply writes_walk; intros c s5;
    (apply writes_bind; [unfold getStateTreeNode; writes | intros t s6 _]).
  - apply writes_aboutToDie.
  - apply writes_finalizeDeath.
Qed.

Lemma root_of_inv fuel h :
  forall n r, root_of fuel h n = Some r -> exists l, ancestors h n l /\ top_of n l = r.
Proof.
  induction fuel as [| f IH]; intros n r H; simpl in H; [discriminate |].
  destruct (h !! n) as [nd |] eqn:Hn; [| discriminate].
  destruct (_parent nd) as [p |] eqn:Hp.
  - destruct (IH _ _ H) as (l & Hl & Htop). exists (p :: l). split.
    + eapply ancestors_step; eassumption.
    + rewrite top_of_cons. exact Htop.
  - injection H as <-. exists []. split; [eapply ancestors_root; eassumption | reflexivity].
Qed.

Lemma root_inv fuel n s r s' :
  root fuel n s = (Ok r, s') ->
  s' = s /\ exists l, ancestors (heap s) n l /\ top_of n l = r.
Proof.
  unfold root, lift_option. destruct (root_of fuel (heap s) n) as [r0 |] eqn:H; [| discriminate].
  intros Heq. injection Heq as -> <-. split; [reflexivity |]. eapply root_of_inv. exact H.
Qed.

Lemma not_on_other_chain h this np l :
  ancestors h this [] -> ancestors h np l -> top_of np l <> this -> this ∉ np :: l.
Proof.
  intros Hself Hanc Hother Hin. apply Hother.
  apply list_elem_of_split in Hin as (pre & post & Heq).
  destruct pre as [| y pre]; simpl in Heq.
  - injection Heq as -> ->.
    pose proof (ancestors_functional _ _ _ Hanc _ Hself) as ->. reflexivity.
  - injection Heq as -> ->.
    pose proof (ancestors_suffix _ _ _ Hanc pre this post eq_refl) as Hthis.
    pose proof (ancestors_functional _ _ _ Hthis _ Hself) as ->.
    rewrite top_of_app. reflexivity.
Qed.

Lemma writes_attach strict s this nd np l :
  heap s !! this = Some nd -> _parent nd = None ->
  ancestors (heap s) np l -> this ∉ np :: l ->
  writes strict s (upd_node this (set_parent (Some np))).
Proof.
  intros Hn Hp Hanc Hnotin. unfold writes, upd_node. rewrite Hn. simpl.
  apply rtc_once. eapply step_attaches; eassumption.
Qed.

(** The guards of [setParent], for a node without parent and a new parent. *)
Lemma setParent_guards_passed fuel this np (par : option nid) s u s' :
  par = None ->
  (run (match par with
        | Some p => if bool_decide (np <> p) then throw NodeExistsTwice else ret tt
        | None => ret tt
        end);
   run (match par with
        | None =>
            do r <- root fuel np;
            if bool_decide (r = this) then throw TreeContainsItself else ret tt
        | Some _ => ret tt
        end);
   match par with
   | None =>
       do r <- root fuel this;
       do rd <- get_node r;
       if truthy (_environment rd) then
         do nr <- root fuel np;
         do nrd <- get_node nr;
         if negb (strict_eq (_environment rd) (_environment nrd))
         then throw EnvironmentsDiffer else ret tt
       else ret tt
   | Some _ => ret tt
   end) s = (Ok u, s') ->
  exists l, ancestors (heap s) np l /\ top_of np l <> this.
Proof.
  intros ->. intros H.
  apply bind_inv in H as ([] & s1 & H1 & H). injection H1 as <-.
  apply bind_inv in H as ([] & s2 & H2 & _).
  apply bind_inv in H2 as (r & s3 & Hroot & Hcheck).
  apply root_inv in Hroot as (-> & l & Hanc & Htop).
  exists l. split; [exact Hanc |].
  destruct (bool_decide (r = this)) eqn:E; [discriminate |].
  apply bool_decide_eq_false_1 in E. congruence.
Qed.

Lemma writes_setParent strict fuel this newParent sub s :
  writes strict s (setParent fuel this newParent sub).
Proof.
  unfold setParent.
  apply writes_bind; [writes | intros nd s0 Hget].
  apply get_node_inv in Hget as [Hn ->].
  destruct (bool_decide (_parent nd = newParent) && bool_decide (Some (subpath nd) = sub));
    [writes |].
  destruct newParent as [np |]; destruct (_parent nd) as [p |] eqn:Hp.
  - (* a parent, and a new parent *)
    apply writes_bind; [apply writes_read_only; read_only | intros [] s1 Hguard].
    apply writes_bind; [writes | intros _ s2 _].
    destruct (bool_decide (Some np <> Some p)) eqn:E; [| writes].
    exfalso. apply bool_decide_eq_true_1 in E.
    apply bind_inv in Hguard as ([] & s3 & H1 & _).
    rewrite (bool_decide_eq_true_2 (np <> p)) in H1 by congruence. discriminate.
  - (* no parent, and a new parent: the node is attached *)
    apply writes_bind; [apply writes_read_only; read_only | intros [] s1 Hguard].
    assert (s1 = s) as ->.
    { eapply (read_only_inv _ s); [| exact Hguard]. read_only. }
    pose proof Hguard as Hg.
    apply (setParent_guards_passed fuel this np None) in Hg as (l & Hanc & Hother);
      [| reflexivity].
    apply writes_bind; [writes | intros [] s2 Hupd].
    apply upd_node_inv in Hupd as (nd0 & Hnd0 & ->).
    rewrite Hn in Hnd0. injection Hnd0 as <-.
    rewrite (bool_decide_eq_true_2 (Some np <> None)) by discriminate.
    set (nd1 := set_subpath (default "" sub) nd).
    assert (Hpar1 : forall y, parent_of (<[this := nd1]> (heap s)) y = parent_of (heap s) y).
    { intros y. eapply parent_of_insert; [exact Hn |]. destruct nd; reflexivity. }
    apply writes_bind; [writes | intros r s3 Hroot].
    apply root_inv in Hroot as (-> & l' & Hanc' & Htop').
    cbn [heap] in Hanc'.
    assert (l' = l) as ->.
    { eapply ancestors_functional; [exact Hanc' |].
      eapply ancestors_ext; [| exact Hanc]. intros y. symmetry. apply Hpar1. }
    apply writes_bind; [writes | intros rd s4 Hrd].
    apply get_node_inv in Hrd as [Hrd ->].
    apply writes_bind; [writes | intros me s5 Hme].
    apply get_node_inv in Hme as [Hme ->].
    destruct (identifierCache rd) as [cache |]; [| writes].
    destruct (identifierCache me) as [mine |]; [| writes].
    destruct (IdCache.mergeCache cache mine) as [merged | e |]; [| writes..].
    apply writes_bind; [writes | intros [] s6 Hcache].
    apply upd_node_inv in Hcache as (rd' & Hrd' & ->).
    cbn [heap] in *.
    assert (Hne : r <> this) by congruence.
    apply writes_bind; [| intros _ s7 _; apply writes_fireHook].
    eapply (writes_attach _ _ this nd1 np l).
    + cbn [heap]. rewrite lookup_insert_ne by exact Hne. apply lookup_insert_eq.
    + subst nd1. destruct nd; simpl in *; assumption.
    + cbn [heap]. eapply ancestors_ext; [| exact Hanc']. intros y. symmetry.
      eapply parent_of_insert; [exact Hrd' |]. destruct rd'; reflexivity.
    + eapply not_on_other_chain; [| exact Hanc | congruence].
      eapply ancestors_root; eassumption.
  - (* a parent, and null: the node dies *)
    apply writes_bind; [writes | intros _ s1 _]. apply writes_die.
  - (* no parent, and null *)
    writes.
Qed.

Lemma writes_detach strict fuel this s : writes strict s (detach fuel this).
Proof.
  unfold detach.
  apply writes_bind; [writes | intros nd s0 _].
  apply writes_bind; [writes | intros _ s1 _].
  apply writes_bind; [unfold isRoot; writes | intros [] s2 _]; [writes |].
  apply writes_bind; [apply writes_fireHook | intros _ s3 _].
  apply writes_bind; [writes | intros r s4 _].
  apply writes_bind; [writes | intros rd s5 _].
  apply writes_bind; [writes | intros _ s6 _].
  apply writes_bind; [writes | intros _ s7 _].
  apply writes_bind; [writes | intros r' s8 _].
  apply writes_bind; [writes | intros rd' s9 _].
  destruct (identifierCache rd') as [cache |]; [| writes].
  apply writes_bind; [apply writes_same; reflexivity | intros h s10 _].
  destruct (IdCache.splitCache fuel h cache this) as [mine others].
  apply writes_bind; [writes | intros _ s11 _].
  apply writes_bind; [writes | intros [] s12 Hcache].
  apply upd_node_inv in Hcache as (prev & Hprev & ->).
  apply writes_bind; [writes | intros me s13 Hme].
  apply get_node_inv in Hme as [Hme ->]. cbn [heap] in Hme.
  rewrite lookup_insert_eq in Hme. injection Hme as <-.
  destruct (_parent (set_identifierCache (Some mine) prev)) as [p |]; [| writes].
  apply writes_bind; [unfold removeChild, type_removeChild; writes | intros [] s14 Hrem].
  unfold removeChild, type_removeChild in Hrem.
  apply upd_node_inv in Hrem as (pd & Hpd & ->). cbn [heap] in *.
  apply writes_bind; [| intros _ s15 _; writes].
  apply writes_upd_node. cbn [heap]. intros nd' Hnd'.
  apply assigns_no_parent. right.
  destruct (decide (p = this)) as [-> | Hne].
  - rewrite lookup_insert_eq in Hnd', Hpd. injection Hpd as <-. injection Hnd' as <-.
    destruct prev; discriminate.
  - rewrite lookup_insert_ne in Hnd' by exact Hne.
    rewrite lookup_insert_eq in Hnd'. injection Hnd' as <-. destruct prev; discriminate.
Qed.

Lemma writes_emitPatch_up strict up fuel basePatch source :
  forall this s, writes strict s (emitPatch_up up fuel this basePatch source).
Proof.
  induction up as [| up IH]; intros this s; cbn [emitPatch_up].
  - apply writes_stuck.
  - apply writes_bind; [writes | intros nd s1 _].
    destruct (cls nd); [writes |].
    apply writes_bind; [| intros _ s2 _; destruct (_parent nd); [apply IH | writes]].
    destruct (patchSubscribers nd); writes.
Qed.

Lemma writes_unsupported strict {A} n operation (k : M A) s :
  (forall s', writes strict s' k) -> writes strict s (unsupported n operation k).
Proof.
  intros Hk. unfold unsupported.
  apply writes_bind; [writes | intros nd s1 _]. destruct (cls nd); [writes | apply Hk].
Qed.

Lemma writes_registerEventHandler strict l n h s :
  writes strict s (registerEventHandler l n h).
Proof. unfold registerEventHandler. writes. Qed.

Lemma ro_assertWritable fuel n : read_only (assertWritable fuel n).
Proof.
  unfold assertWritable, isProtected.
  apply ro_bind; [apply ro_assertAlive | intros _]. read_only.
Qed.

Lemma writes_applyPatchLocally strict fuel n sub patch s :
  writes strict s (applyPatchLocally fuel n sub patch).
Proof.
  unfold applyPatchLocally. apply writes_unsupported. intros s'.
  apply writes_bind; [apply writes_read_only, ro_assertWritable | intros _ s1 _]. writes.
Qed.

Lemma writes_createActionInvoker strict {A} n (fn : M A) s :
  (forall s', writes strict s' fn) -> writes strict s (createActionInvoker n fn).
Proof.
  intros Hfn. unfold createActionInvoker.
  apply writes_bind; [writes | intros nd s1 _].
  apply writes_bind; [writes | intros _ s2 _].
  apply writes_try_finally; [apply Hfn | intros s3; writes].
Qed.

Lemma writes_alloc strict fields s :
  (_parent (fields (fresh (dom (heap s)))) = None ->
   identifierCache (fields (fresh (dom (heap s)))) <> None) ->
  (strict = true -> forall p, _parent (fields (fresh (dom (heap s)))) = Some p ->
                              is_Some (heap s !! p)) ->
  writes strict s (alloc fields).
Proof.
  intros Hroot Hpar. unfold writes, alloc. simpl. apply rtc_once.
  apply step_new; [apply fresh_lookup | exact Hroot | exact Hpar].
Qed.

Lemma writes_construct strict fuel parent sub environment i s :
  (strict = true -> forall p, parent = Some p -> is_Some (heap s !! p)) ->
  writes strict s (construct fuel parent sub environment i).
Proof.
  intros Hpar. unfold construct.
  apply writes_bind.
  { apply writes_alloc.
    - destruct parent; simpl; [discriminate | intros _; discriminate].
    - intros Hs p Hp. apply (Hpar Hs). simpl in Hp. exact Hp. }
  intros this s1 _.
  apply writes_bind; [| intros _ s2 _].
  - apply writes_on_exception; [| intros s'; writes].
    apply writes_bind; [writes | intros _ s3 _].
    apply writes_bind; [writes | intros _ s4 _].
    apply writes_bind; [writes | intros _ s5 _].
    apply writes_bind; [writes | intros owner s6 _].
    apply writes_bind; [writes | intros od s7 _].
    apply writes_bind; [writes | intros me s8 _].
    apply writes_bind; [| intros _ s9 _].
    + destruct (identifierCache od); [| writes].
      destruct (IdCache.addNodeToCache _ _ _); writes.
    + apply writes_bind; [apply writes_fireHook | intros _ s10 _].
      destruct parent; [apply writes_fireHook | writes].
  - apply writes_bind; [| intros; writes].
    destruct (i_canAttach i); [| writes].
    unfold addDisposer. apply writes_unsupported. intros s'. writes.
Qed.

(** Every call into the node core changes the heap by writes of the node
    core only. *)
Lemma writes_exec strict fuel c s :
  (strict = true -> well_addressed (heap s) c) -> writes strict s (exec fuel c).
Proof.
  intros Hwa. destruct c; cbn [exec].
  - apply writes_setParent.
  - apply writes_discard, writes_read_only, ro_getRelativePathTo.
  - apply writes_discard, writes_read_only, ro_resolvePath_loop.
  - apply writes_discard, writes_read_only, ro_resolvePath_loop.
  - unfold value. writes.
  - unfold snapshot. writes.
  - apply writes_read_only, ro_assertAlive.
  - apply writes_read_only, ro_assertWritable.
  - apply writes_discard, writes_read_only, ro_getChildNode.
  - apply writes_discard, writes_read_only, ro_getChildren.
  - unfold removeChild, type_removeChild. writes.
  - apply writes_detach.
  - apply writes_die.
  - apply writes_aboutToDie.
  - apply writes_finalizeDeath.
  - apply writes_emitPatch_up.
  - unfold emitSnapshot. writes.
  - apply writes_discard, writes_unsupported. intros s'. apply writes_registerEventHandler.
  - apply writes_discard, writes_unsupported. intros s'. apply writes_registerEventHandler.
  - apply writes_discard, writes_unsupported. intros s'. apply writes_registerEventHandler.
  - unfold addDisposer. apply writes_unsupported. intros s'. writes.
  - unfold call_IDisposer. destruct d as [l n h]. writes.
  - apply writes_applyPatchLocally.
  - unfold applyPatches. apply writes_unsupported. intros s'.
    apply writes_createActionInvoker. intros s''.
    apply writes_forEach. intros patch s3.
    apply writes_bind; [apply writes_read_only, ro_resolvePath_loop | intros [m |] s4 _];
      [apply writes_applyPatchLocally | writes].
  - unfold applySnapshot. apply writes_unsupported. intros s'.
    apply writes_createActionInvoker. intros s''. unfold snapshot. writes.
  - apply writes_discard. unfold createNode. destruct init as [targetNode | i].
    + apply writes_bind; [unfold isRoot; writes | intros isroot s1 _].
      apply writes_bind; [writes | intros _ s2 _].
      apply writes_bind; [apply writes_setParent | intros; writes].
    + apply writes_construct. intros Hs p ->. exact (Hwa Hs).
Qed.

Lemma writes_exec_all strict fuel cs :
  forall s, (strict = true -> well_addressed_all fuel cs s) ->
    rtc (heap_step strict) (heap s) (heap (exec_all fuel cs s)).
Proof.
  induction cs as [| c cs IH]; intros s Hwa; simpl.
  - apply rtc_refl.
  - etransitivity.
    + apply (writes_exec strict fuel c s). intros Hs. apply (Hwa Hs).
    + apply IH. intros Hs. apply (Hwa Hs).
Qed.

Lemma assigns_parent nd nd' :
  assigns nd nd' -> _parent nd' = _parent nd \/ _parent nd' = None.
Proof.
  destruct 1; try (left; destruct nd; reflexivity);
    try (left; destruct l, nd; reflexivity).
  right. destruct nd; reflexivity.
Qed.

(** Chains carry over to a heap that differs in one node object, once that
    node object has a chain there. *)
Lemma chains_carry_over (h h' : gmap nid node) x lx :
  (forall y, y <> x -> h' !! y = h !! y) ->
  ancestors h' x lx ->
  forall n l, ancestors h n l -> exists l', ancestors h' n l'.
Proof.
  intros Hsame Hx n l Hanc.
  induction Hanc as [n nd Hn Hp | n nd p l Hn Hp Hanc IH].
  - destruct (decide (n = x)) as [-> | Hne]; [eauto |].
    exists []. eapply ancestors_root; [rewrite Hsame by exact Hne; exact Hn | exact Hp].
  - destruct (decide (n = x)) as [-> | Hne]; [eauto |].
    destruct IH as (l' & Hl'). exists (p :: l').
    eapply ancestors_step; [rewrite Hsame by exact Hne; exact Hn | exact Hp | exact Hl'].
Qed.

Lemma ancestors_insert_off (h : gmap nid node) x nd' n l :
  x ∉ n :: l -> ancestors h n l -> ancestors (<[x := nd']> h) n l.
Proof.
  intros Hnotin. apply ancestors_agree. intros y Hy. unfold parent_of.
  rewrite lookup_insert_ne; [reflexivity |]. intros <-. contradiction.
Qed.

Lemma ancestors_in_heap h n l :
  ancestors h n l -> forall y, y ∈ n :: l -> is_Some (h !! y).
Proof.
  induction 1 as [n nd Hn Hp | n nd p l Hn Hp Hanc IH]; intros y Hy.
  - apply list_elem_of_singleton in Hy as ->. eauto.
  - apply elem_of_cons in Hy as [-> | Hy]; [eauto | apply IH, Hy].
Qed.

Lemma forest_step h h' : heap_step true h h' -> forest h -> forest h'.
Proof.
  intros Hstep Hforest.
  destruct Hstep as [x nd nd' Hx Hassign | x nd p lp Hx Hp Hanc Hnotin | x nd Hx Hroot Hpar].
  - (* an assignment *)
    assert (Hchain : exists lx, ancestors (<[x := nd']> h) x lx).
    { destruct (assigns_parent _ _ Hassign) as [Hsame | Hnone].
      - destruct (Hforest _ _ Hx) as (lx & Hlx). exists lx.
        eapply ancestors_ext; [| exact Hlx]. intros y. symmetry.
        eapply parent_of_insert; eassumption.
      - exists []. eapply ancestors_root; [apply lookup_insert_eq | exact Hnone]. }
    destruct Hchain as (lx & Hlx).
    intros n nd0 Hn. destruct (decide (n = x)) as [-> | Hne]; [eauto |].
    rewrite lookup_insert_ne in Hn by congruence.
    destruct (Hforest _ _ Hn) as (l & Hl).
    eapply (chains_carry_over h _ x lx); [| exact Hlx | exact Hl].
    intros y Hy. apply lookup_insert_ne. congruence.
  - (* a parent for a root *)
    assert (Hlx : ancestors (<[x := set_parent (Some p) nd]> h) x (p :: lp)).
    { eapply ancestors_step; [apply lookup_insert_eq | destruct nd; reflexivity |].
      apply ancestors_insert_off; assumption. }
    intros n nd0 Hn. destruct (decide (n = x)) as [-> | Hne]; [eauto |].
    rewrite lookup_insert_ne in Hn by congruence.
    destruct (Hforest _ _ Hn) as (l & Hl).
    eapply (chains_carry_over h _ x _); [| exact Hlx | exact Hl].
    intros y Hy. apply lookup_insert_ne. congruence.
  - (* a new node object *)
    assert (Hchain : exists lx, ancestors (<[x := nd]> h) x lx).
    { destruct (_parent nd) as [p |] eqn:Hp.
      - destruct (Hpar eq_refl p eq_refl) as (pd & Hpd).
        destruct (Hforest _ _ Hpd) as (lp & Hlp).
        exists (p :: lp). eapply ancestors_step; [apply lookup_insert_eq | exact Hp |].
        apply ancestors_insert_off; [| exact Hlp].
        intros Hin. destruct (ancestors_in_heap _ _ _ Hlp x Hin) as (xd & Hxd). congruence.
      - exists []. eapply ancestors_root; [apply lookup_insert_eq | exact Hp]. }
    destruct Hchain as (lx & Hlx).
    intros n nd0 Hn. destruct (decide (n = x)) as [-> | Hne]; [eauto |].
    rewrite lookup_insert_ne in Hn by congruence.
    destruct (Hforest _ _ Hn) as (l & Hl).
    eapply (chains_carry_over h _ x lx); [| exact Hlx | exact Hl].
    intros y Hy. apply lookup_insert_ne. congruence.
Qed.

Lemma forest_steps h h' : rtc (heap_step true) h h' -> forest h -> forest h'.
Proof. induction 1; [tauto |]. intros Hf. apply IHrtc. eapply forest_step; eassumption. Qed.

Lemma assigns_live_root nd nd' :
  assigns nd nd' ->
  (_isAlive nd = true -> _parent nd = None -> is_Some (identifierCache nd)) ->
  _isAlive nd' = true -> _parent nd' = None -> is_Some (identifierCache nd').
Proof.
  destruct 1 as [v nd | v nd | c nd | v nd | nd | v nd | l v nd | v nd | v nd | nd | v nd
                | nd Hcond];
    try (destruct nd; simpl; intros; eauto; discriminate);
    try (destruct l, nd; simpl; intros; eauto).
  destruct nd as [? ? ? ? ? cache ? ? ? ? ? ? ? ? ? ? ? ? ? ? ? ?]; simpl in *.
  intros H Ha _. destruct Hcond as [Hd | Hc]; [congruence |].
  destruct cache; [eauto | congruence].
Qed.

Lemma live_roots_cached_step strict h h' :
  heap_step strict h h' -> live_roots_cached h -> live_roots_cached h'.
Proof.
  intros Hstep Hinv.
  destruct Hstep as [x nd nd' Hx Hassign | x nd p lp Hx Hp Hanc Hnotin | x nd Hx Hroot Hpar];
    intros n nd0 Hn Halive Hparent;
    (destruct (decide (n = x)) as [-> | Hne];
     [rewrite lookup_insert_eq in Hn; injection Hn as <-
     | rewrite lookup_insert_ne in Hn by congruence; eapply Hinv; eassumption]).
  - eapply assigns_live_root; [exact Hassign | apply (Hinv _ _ Hx) | assumption..].
  - destruct nd; discriminate.
  - specialize (Hroot Hparent). destruct (identifierCache nd); [eauto | congruence].
Qed.

Lemma live_roots_cached_steps strict h h' :
  rtc (heap_step strict) h h' -> live_roots_cached h -> live_roots_cached h'.
Proof.
  induction 1; [tauto |]. intros Hf. apply IHrtc. eapply live_roots_cached_step; eassumption.
Qed.

Lemma evolves_refl nd : evolves nd nd.
Proof. repeat split; auto. Qed.

Lemma evolves_trans a b c : evolves a b -> evolves b c -> evolves a c.
Proof.
  intros (H1 & H2 & H3 & H4 & H5 & H6) (K1 & K2 & K3 & K4 & K5 & K6).
  repeat split; try congruence; auto.
Qed.

Lemma assigns_evolves nd nd' : assigns nd nd' -> evolves nd nd'.
Proof.
  destruct 1 as [v nd | v nd | c nd | v nd | nd | v nd | l v nd | v nd | v nd | nd | v nd
                | nd Hcond];
    try (destruct nd; repeat split; simpl; auto; fail);
    try (destruct l, nd; repeat split; simpl; auto; fail).
  destruct nd as [? ? ? ? ? ? ? ? ? alive ? ? ? ? ? ? ? ? ? ? frozen ?].
  unfold snapshot_of. simpl. repeat split; simpl; auto.
  intros v Hv. rewrite Hv. reflexivity.
Qed.

Lemma evolves_step strict h h' :
  heap_step strict h h' ->
  forall n nd, h !! n = Some nd -> exists nd', h' !! n = Some nd' /\ evolves nd nd'.
Proof.
  intros Hstep n nd0 Hn.
  destruct Hstep as [x nd nd' Hx Hassign | x nd p lp Hx Hp Hanc Hnotin | x nd Hx Hroot Hpar];
    (destruct (decide (n = x)) as [-> | Hne];
     [rewrite lookup_insert_eq
     | rewrite lookup_insert_ne by congruence; exists nd0; split;
       [exact Hn | apply evolves_refl]]).
  - rewrite Hx in Hn. injection Hn as <-. eexists. split; [reflexivity |].
    apply assigns_evolves. exact Hassign.
  - rewrite Hx in Hn. injection Hn as <-. eexists. split; [reflexivity |].
    destruct nd; repeat split; simpl; auto.
  - congruence.
Qed.

Lemma evolves_steps strict h h' :
  rtc (heap_step strict) h h' ->
  forall n nd, h !! n = Some nd -> exists nd', h' !! n = Some nd' /\ evolves nd nd'.
Proof.
  induction 1 as [h | h h1 h2 Hstep Hrest IH]; intros n nd Hn.
  - exists nd. split; [exact Hn | apply evolves_refl].
  - destruct (evolves_step _ _ _ Hstep _ _ Hn) as (nd1 & Hn1 & He1).
    destruct (IH _ _ Hn1) as (nd2 & Hn2 & He2).
    exists nd2. split; [exact Hn2 | eapply evolves_trans; eassumption].
Qed.

(** *** Patches *)

Lemma slice_init {A} (l : list A) (x : A) : slice 0 (-1) (l ++ [x]) = l.
Proof.
  unfold slice. rewrite length_app. simpl length.
  replace (0 <? 0)%Z with false by reflexivity.
  replace (-1 <? 0)%Z with true by reflexivity.
  rewrite Z.min_l by lia. rewrite Z.max_l by lia.
  change (Z.to_nat 0) with 0. rewrite drop_0.
  replace (Z.to_nat (Z.of_nat (length l + 1) + -1 - 0)) with (length l) by lia.
  rewrite take_app_length. reflexivity.
Qed.

Lemma up_chain_contains top nodes :
  forall (ltop : list nid) x, x ∈ top :: ltop -> x ∈ end_of top nodes :: up_chain top nodes ltop.
Proof.
  revert top. induction nodes as [| c nodes IH]; intros top ltop x Hx.
  - exact Hx.
  - rewrite end_of_cons. simpl up_chain. apply IH. right. exact Hx.
Qed.

Lemma route_running h n nd b top segs nodes :
  h !! n = Some nd ->
  route h top segs nodes -> route (<[n := set_isRunningAction b nd]> h) top segs nodes.
Proof.
  intros Hn. induction 1 as [top | top td c cd segs nodes Ht Hc Hcd Hp Hr IH].
  - apply route_here.
  - destruct (decide (c = n)) as [-> | Hcn].
    + rewrite Hn in Hcd. injection Hcd as <-.
      replace (subpath nd) with (subpath (set_isRunningAction b nd))
        by (destruct nd; reflexivity).
      destruct (decide (top = n)) as [-> | Htn].
      * rewrite Hn in Ht. injection Ht as <-.
        eapply route_step; [apply lookup_insert_eq | | apply lookup_insert_eq | | exact IH];
          destruct nd; simpl in *; assumption.
      * eapply route_step;
          [rewrite lookup_insert_ne by congruence; exact Ht | | apply lookup_insert_eq
          | | exact IH]; destruct nd; simpl in *; assumption.
    + destruct (decide (top = n)) as [-> | Htn].
      * rewrite Hn in Ht. injection Ht as <-.
        eapply route_step;
          [apply lookup_insert_eq | | rewrite lookup_insert_ne by congruence; exact Hcd
          | exact Hp | exact IH].
        destruct nd; simpl in *; assumption.
      * eapply route_step;
          [rewrite lookup_insert_ne by congruence; exact Ht | exact Hc
          | rewrite lookup_insert_ne by congruence; exact Hcd | exact Hp | exact IH].
Qed.

Lemma alive_in_running (h : gmap nid node) n nd b y :
  h !! n = Some nd -> alive_in h y -> alive_in (<[n := set_isRunningAction b nd]> h) y.
Proof.
  intros Hn (yd & Hy & Ha). destruct (decide (y = n)) as [-> | Hne].
  - rewrite Hn in Hy. injection Hy as <-. eexists. split; [apply lookup_insert_eq |].
    destruct nd; exact Ha.
  - exists yd. split; [rewrite lookup_insert_ne by congruence; exact Hy | exact Ha].
Qed.

Lemma assertAlive_ok s n nd :
  heap s !! n = Some nd -> _isAlive nd = true -> assertAlive n s = (Ok tt, s).
Proof.
  intros Hn Ha. unfold assertAlive.
  rewrite (bind_ok _ _ _ _ _ (get_node_ok _ _ _ Hn)), Ha. reflexivity.
Qed.

Lemma isRunningAction_below fuel s m chain n :
  ancestors (heap s) m chain -> length chain < fuel ->
  n ∈ m :: chain -> running_flag (heap s) n = true ->
  isRunningAction fuel m s = (Ok true, s).
Proof.
  intros Hanc Hfuel Hin Hflag. unfold isRunningAction.
  rewrite (isRunningAction_of_ancestors _ _ _ Hanc fuel Hfuel).
  replace (existsb (running_flag (heap s)) (m :: chain)) with true; [reflexivity |].
  symmetry. apply existsb_exists. exists n. split; [apply list_elem_of_In, Hin | exact Hflag].
Qed.

(** One patch of [applyPatches], inside the action of the node [n]. *)
Lemma applyPatches_one fuel h n nd l patch m key tr :
  h !! n = Some nd ->
  ancestors h n l ->
  lands h n patch m key ->
  alive_in h m -> class_of h m = Some NodeC ->
  length l + length (splitJsonPath (p_path patch)) < fuel ->
  let h1 := <[n := set_isRunningAction true nd]> h in
  (let parts := splitJsonPath (p_path patch) in
   do target <- resolvePath fuel n (slice 0 (-1) parts) true;
   match target with
   | Some m => applyPatchLocally fuel m (last parts) patch
   | None => throw (TypeError "applyPatchLocally")
   end) (MkState h1 tr)
  = (Ok tt, MkState h1 (tr ++ [TypeApplyPatchLocally m key patch true])).
Proof.
  intros Hn Hanc Hland Halive Hcls Hfuel h1. cbv zeta.
  assert (Hpar : forall y, parent_of h1 y = parent_of h y).
  { intros y. eapply parent_of_insert; [exact Hn |]. destruct nd; reflexivity. }
  assert (Hanc1 : ancestors h1 n l).
  { eapply ancestors_ext; [| exact Hanc]. intros y. symmetry. apply Hpar. }
  assert (Hflag : running_flag h1 n = true).
  { unfold running_flag, h1. rewrite lookup_insert_eq. destruct nd; reflexivity. }
  assert (Hlocal : forall chain sub tr',
            ancestors h1 m chain -> length chain < fuel -> n ∈ m :: chain ->
            applyPatchLocally fuel m sub patch (MkState h1 tr')
            = (Ok tt, MkState h1 (tr' ++ [TypeApplyPatchLocally m sub patch true]))).
  { intros chain sub tr' Hchain Hlen Hin.
    destruct (alive_in_running h n nd true m Hn Halive) as (md & Hm & Hma).
    fold h1 in Hm.
    assert (Hmc : cls md = NodeC).
    { unfold class_of in Hcls. destruct (decide (m = n)) as [-> | Hne].
      - unfold h1 in Hm. rewrite lookup_insert_eq in Hm. injection Hm as <-.
        rewrite Hn in Hcls. destruct nd; simpl in *; congruence.
      - unfold h1 in Hm. rewrite lookup_insert_ne in Hm by congruence.
        rewrite Hm in Hcls. congruence. }
    unfold applyPatchLocally.
    rewrite (unsupported_mutable (MkState h1 tr') m md _ _ Hm Hmc).
    pose proof (isRunningAction_below fuel (MkState h1 tr') m chain n Hchain Hlen Hin Hflag)
      as Hrun.
    erewrite bind_ok; cycle 1.
    { unfold assertWritable.
      rewrite (bind_ok _ _ _ _ _ (assertAlive_ok (MkState h1 tr') m md Hm Hma)).
      rewrite (bind_ok _ _ _ _ _ Hrun). reflexivity. }
    rewrite (bind_ok _ _ _ _ _ Hrun). reflexivity. }
  destruct Hland as [Hpath | segs nodes key Hpath Hroute Hnav Hhosts].
  - rewrite Hpath. change (splitJsonPath "") with (@nil string).
    change (slice 0 (-1) []) with (@nil string).
    unfold resolvePath. cbn [resolvePath_loop]. erewrite bind_ok by reflexivity.
    apply (Hlocal l); [exact Hanc1 | | left].
    rewrite Hpath in Hfuel. change (splitJsonPath "") with (@nil string) in Hfuel.
    simpl in Hfuel. lia.
  - rewrite Hpath in *. rewrite split_join_path in *. rewrite slice_init.
    rewrite last_snoc.
    assert (Hroute1 : route h1 n segs nodes) by (apply route_running; assumption).
    assert (Hhosts1 : Forall (alive_in h1) (removelast (n :: nodes))).
    { eapply Forall_impl; [exact Hhosts |]. intros y Hy. apply alive_in_running; assumption. }
    erewrite bind_ok; cycle 1.
    { unfold resolvePath. apply (resolvePath_down _ _ _ _ Hroute1 Hnav Hhosts1). }
    destruct (route_ancestors _ _ _ _ Hroute1 l Hanc1) as (Hchain & _ & Hlen & _).
    apply (Hlocal (up_chain n nodes l)); [exact Hchain | |].
    + rewrite Hlen. rewrite length_app in Hfuel. simpl in Hfuel. lia.
    + apply up_chain_contains. left.
Qed.

(** X19.  [applyPatches] runs as one action of the node it is called on.  When the
    path of each patch names a property of the node itself or of a live
    mutable node below it, every patch is handed to the type descriptor at
    the node its path leads to, with the last segment as the property, in
    the order of the list, and each of them inside an action, so that the
    protection of the tree does not stand in the way; an empty path hands the
    patch to the node itself with no property.  Afterwards the action flag of
    the node is what it was, and nothing in the heap has changed. *)
Theorem applyPatches_acts_below (fuel : nat) (s : state) (n : nid) (nd : node)
  (l : list nid) (targets : list (IJsonPatch * nid * option string))
  (Hn : heap s !! n = Some nd) (Hc : cls nd = NodeC)
  (Hanc : ancestors (heap s) n l)
  (Hland : Forall (fun t : IJsonPatch * nid * option string =>
                     lands (heap s) n t.1.1 t.1.2 t.2 /\
                     alive_in (heap s) t.1.2 /\
                     class_of (heap s) t.1.2 = Some NodeC /\
                     length l + length (splitJsonPath (p_path t.1.1)) < fuel)
                  targets) :
  applyPatches fuel n (map (fun t => t.1.1) targets) s
  = (Ok tt,
     MkState (heap s)
       (trace s ++ map (fun t : IJsonPatch * nid * option string =>
                          TypeApplyPatchLocally t.1.2 t.2 t.1.1 true) targets)).
Proof.
  unfold applyPatches.
  rewrite (unsupported_mutable s n nd _ _ Hn Hc).
  unfold createActionInvoker.
  rewrite (bind_ok _ _ _ _ _ (get_node_ok _ _ _ Hn)).
  rewrite (upd_node_bind _ _ _ _ _ Hn). cbv beta.
  set (h1 := <[n := set_isRunningAction true nd]> (heap s)).
  assert (Hloop : forall tr,
            forEach (map (fun t : IJsonPatch * nid * option string => t.1.1) targets)
              (fun patch =>
                 let parts := splitJsonPath (p_path patch) in
                 do target <- resolvePath fuel n (slice 0 (-1) parts) true;
                 match target with
                 | Some m => applyPatchLocally fuel m (last parts) patch
                 | None => throw (TypeError "applyPatchLocally")
                 end) (MkState h1 tr)
            = (Ok tt,
               MkState h1
                 (tr ++ map (fun t : IJsonPatch * nid * option string =>
                               TypeApplyPatchLocally t.1.2 t.2 t.1.1 true) targets))).
  { induction Hland as [| [[patch m] key] rest (Hl & Ha & Hcl & Hf) Hrest IH]; intros tr.
    - simpl. rewrite app_nil_r. reflexivity.
    - cbn [map forEach]. simpl in Hl, Ha, Hcl, Hf.
      erewrite bind_ok; cycle 1.
      { apply (applyPatches_one fuel (heap s) n nd l patch m key tr); assumption. }
      rewrite IH. simpl. rewrite <- app_assoc. reflexivity. }
  unfold try_finally. rewrite Hloop.
  erewrite upd_node_ok by (cbn [heap]; apply lookup_insert_eq).
  cbn [heap trace]. f_equal. f_equal.
  subst h1. apply restore_heap. exact Hn.
Qed.

Lemma applyPatches_acts_below_witness :
  applyPatches 5 1%positive
    [mkPatch OpReplace "/a/x" (Some (VNum 1)); mkPatch OpReplace "" (Some (VNum 2))] abTree
  = (Ok tt,
     MkState (heap abTree)
       [TypeApplyPatchLocally 2%positive (Some "x") (mkPatch OpReplace "/a/x" (Some (VNum 1))) true;
        TypeApplyPatchLocally 1%positive None (mkPatch OpReplace "" (Some (VNum 2))) true]).
Proof.
  apply (applyPatches_acts_below 5 abTree 1%positive
           (sample_node NodeC "Store" 1%positive None "" [("a", 2%positive)]) []
           [(mkPatch OpReplace "/a/x" (Some (VNum 1)), 2%positive, Some "x");
            (mkPatch OpReplace "" (Some (VNum 2)), 1%positive, None)]
           eq_refl eq_refl abTree_chain_1).
  constructor; [split; [| split; [| split]] |
    constructor; [split; [| split; [| split]] | constructor]].
  - apply (lands_below (heap abTree) 1%positive _ ["a"] [2%positive] "x");
      [reflexivity | exact abTree_route_a | |].
    + repeat constructor. unfold navigation_segment. intros [H | [H | H]]; discriminate.
    + repeat constructor. eexists. split; reflexivity.
  - eexists. split; reflexivity.
  - reflexivity.
  - vm_compute. lia.
  - apply lands_here. reflexivity.
  - eexists. split; reflexivity.
  - reflexivity.
  - vm_compute. lia.
Defined.

(** *** What every call keeps *)

(** X22.  The writes.  Whatever is called, the heap changes only by the
    assignments that node.ts makes to the fields of a node object, each under
    the condition it has in the source (the parent is cleared on a node that
    is not alive or has a cache of its own, and assigned to a node without
    parent, outside the tree of that node), and by new node objects. *)
Theorem node_core_writes (fuel : nat) (cs : list call) (s : state) :
  rtc (heap_step false) (heap s) (heap (exec_all fuel cs s)) /\
  (well_addressed_all fuel cs s ->
   rtc (heap_step true) (heap s) (heap (exec_all fuel cs s))).
Proof.
  split.
  - apply writes_exec_all. discriminate.
  - intros Hwa. apply writes_exec_all. intros _. exact Hwa.
Qed.

(** X23.  The parent references never form a cycle.  If every node object has a
    parent chain that ends in a root, it has one after any sequence of calls
    whose node arguments are node objects: a parent is assigned only to a
    root and only outside its own tree, and a new node object only refers to
    a node that exists. *)
Theorem parent_chains_stay_finite (fuel : nat) (s : state) (cs : list call)
  (Hforest : forest (heap s))
  (Hwa : well_addressed_all fuel cs s) :
  forest (heap (exec_all fuel cs s)).
Proof.
  eapply forest_steps; [| exact Hforest].
  apply writes_exec_all. intros _. exact Hwa.
Qed.

Lemma forest_initial : forest (heap initial).
Proof. intros n nd Hn. simpl in Hn. rewrite lookup_empty in Hn. discriminate. Qed.

Lemma sample_calls_well_addressed : well_addressed_all 5 sample_calls initial.
Proof. simpl. repeat split. eexists. vm_compute. reflexivity. Qed.

Lemma parent_chains_stay_finite_witness :
  exists l, ancestors (heap (exec_all 5 sample_calls initial)) 2%positive l.
Proof.
  eapply (parent_chains_stay_finite 5 initial sample_calls forest_initial
            sample_calls_well_addressed 2%positive).
  vm_compute. reflexivity.
Defined.

(** X24.  Every live root has an identifier cache, which is what the source
    relies on when it writes [this.root.identifierCache!]: if it holds of the
    heap, it holds after any sequence of calls. *)
Theorem live_roots_keep_a_cache (fuel : nat) (s : state) (cs : list call)
  (Hinv : live_roots_cached (heap s)) :
  live_roots_cached (heap (exec_all fuel cs s)).
Proof.
  eapply live_roots_cached_steps; [| exact Hinv].
  apply (writes_exec_all false). discriminate.
Qed.

Lemma live_roots_cached_initial : live_roots_cached (heap initial).
Proof. intros n nd Hn. simpl in Hn. rewrite lookup_empty in Hn. discriminate. Qed.

Lemma live_roots_keep_a_cache_witness :
  exists nd,
    heap (exec_all 5 (take 3 sample_calls) initial) !! 2%positive = Some nd /\
    is_Some (identifierCache nd).
Proof.
  eexists. split; [vm_compute; reflexivity |].
  eapply (live_roots_keep_a_cache 5 initial (take 3 sample_calls)
            live_roots_cached_initial 2%positive);
    [vm_compute; reflexivity | reflexivity | reflexivity].
Defined.

(** X25.  The last snapshot.  Once [finalizeDeath] has run on a node, [snapshot]
    returns the snapshot the node had at that moment, whatever is called
    afterwards. *)
Theorem last_snapshot_is_kept (fuel : nat) (s : state) (n : nid) (nd rd : node)
  (up : list nid) (c : IdentifierCache) (cs : list call)
  (Hn : heap s !! n = Some nd) (Hc : cls nd = NodeC)
  (Hanc : ancestors (heap s) n up) (Hfuel : length up < fuel)
  (Hr : heap s !! top_of n up = Some rd) (Hcache : identifierCache rd = Some c) :
  let after := exec_all fuel cs (snd (finalizeDeath fuel n s)) in
  snapshot n after = (Ok (snapshot_of nd), after).
Proof.
  intros after.
  destruct (finalizeDeath_ok fuel s n nd up rd c Hn Hc Hanc Hfuel Hr Hcache)
    as (s' & nd' & Hfin & _ & _ & _ & Hn' & _ & _ & _ & _ & _ & Hfrozen).
  pose proof (writes_exec_all false fuel cs (snd (finalizeDeath fuel n s))
                ltac:(discriminate)) as Hsteps.
  rewrite Hfin in Hsteps. cbn [snd] in Hsteps.
  destruct (evolves_steps _ _ _ Hsteps _ _ Hn') as (nd2 & Hn2 & _ & _ & _ & _ & _ & Hkeep).
  subst after. rewrite Hfin. cbn [snd].
  unfold snapshot. rewrite (bind_ok _ _ _ _ _ (get_node_ok _ _ _ Hn2)).
  unfold snapshot_of at 1. rewrite (Hkeep _ Hfrozen). reflexivity.
Qed.

Lemma last_snapshot_is_kept_witness :
  let after :=
    exec_all 5 [CSetParent 2%positive (Some 1%positive) (Some "z"); CDetach 2%positive]
      (snd (finalizeDeath 5 2%positive abTree)) in
  snapshot 2%positive after = (Ok (VObj 102 "A"), after).
Proof.
  apply (last_snapshot_is_kept 5 abTree 2%positive
           (sample_node NodeC "A" 2%positive (Some 1%positive) "a" [("b", 3%positive)])
           (sample_node NodeC "Store" 1%positive None "" [("a", 2%positive)])
           [1%positive] []
           [CSetParent 2%positive (Some 1%positive) (Some "z"); CDetach 2%positive]
           eq_refl eq_refl abTree_chain_2 ltac:(simpl; lia) eq_refl eq_refl).
Defined.

(** X26.  What never changes.  No call removes a node object from the heap, and
    none changes the class, the type, the identifier or the protection flag of
    a node object: protection is switched from outside the node core only. *)
Theorem node_identity_is_stable (fuel : nat) (s : state) (cs : list call)
  (n : nid) (nd : node)
  (Hn : heap s !! n = Some nd) :
  exists nd',
    heap (exec_all fuel cs s) !! n = Some nd' /\
    cls nd' = cls nd /\ typeName nd' = typeName nd /\
    identifier nd' = identifier nd /\
    isProtectionEnabled nd' = isProtectionEnabled nd.
Proof.
  pose proof (writes_exec_all false fuel cs s ltac:(discriminate)) as Hsteps.
  destruct (evolves_steps _ _ _ Hsteps _ _ Hn) as (nd' & Hn' & H1 & H2 & H3 & H4 & _).
  exists nd'. repeat split; assumption.
Qed.

Lemma node_identity_is_stable_witness :
  exists nd',
    heap (exec_all 5 [CDie 1%positive; CDetach 3%positive] abTree) !! 2%positive = Some nd' /\
    cls nd' = NodeC /\ typeName nd' = "A" /\
    identifier nd' = None /\ isProtectionEnabled nd' = true.
Proof.
  apply (node_identity_is_stable 5 abTree [CDie 1%positive; CDetach 3%positive] 2%positive
           (sample_node NodeC "A" 2%positive (Some 1%positive) "a" [("b", 3%positive)])
           eq_refl).
Defined.

(** *** Detaching and coming back *)

Lemma detach_run fuel s n nd p l pd rd cache :
  heap s !! n = Some nd -> _isAlive nd = true ->
  ancestors (heap s) n (p :: l) -> length (p :: l) < fuel ->
  heap s !! p = Some pd ->
  heap s !! top_of n (p :: l) = Some rd ->
  identifierCache rd = Some cache ->
  detach fuel n s
  = (Ok tt,
     MkState (detached_heap fuel (heap s) n p (top_of n (p :: l)) nd rd cache)
       (trace s ++ hook_call n "beforeDetach" nd)) /\
  detached_heap fuel (heap s) n p (top_of n (p :: l)) nd rd cache !! n
  = Some (detached_node fuel (heap s) n nd rd cache) /\
  (forall x, x <> n -> x <> p -> x <> top_of n (p :: l) ->
     detached_heap fuel (heap s) n p (top_of n (p :: l)) nd rd cache !! x = heap s !! x) /\
  (forall x, x <> n ->
     parent_of (detached_heap fuel (heap s) n p (top_of n (p :: l)) nd rd cache) x
     = parent_of (heap s) x) /\
  n <> p /\ n <> top_of n (p :: l) /\
  (exists rd',
     detached_heap fuel (heap s) n p (top_of n (p :: l)) nd rd cache !! top_of n (p :: l)
     = Some rd' /\
     identifierCache rd' = Some (snd (IdCache.splitCache fuel (heap s) cache n)) /\
     _environment rd' = _environment rd /\ _parent rd' = None).
Proof.
  intros Hn Ha Hanc Hfuel Hpd Hrd Hcache.
  unfold detached_heap, detached_node.
  set (r := top_of n (p :: l)) in *.
  set (h := heap s) in *.
  destruct (ancestors_inv_cons _ _ _ _ Hanc) as (nd0 & Hn0 & Hp & Hancp).
  assert (nd0 = nd) by congruence. subst nd0. clear Hn0.
  destruct (ancestors_top _ _ _ Hanc) as (rd0 & Hr0 & Hrp). fold r in Hr0.
  assert (rd0 = rd) by congruence. subst rd0. clear Hr0.
  assert (Hnr : n <> r) by (intros Heq; rewrite Heq in Hn; congruence).
  assert (Hnp : n <> p).
  { intros Heq. apply (ancestors_not_self _ _ _ Hanc). rewrite Heq. left. }
  set (f1 := set_environment (_environment rd)).
  set (f2 := set_isDetaching true).
  set (mine := fst (IdCache.splitCache fuel h cache n)).
  set (others := snd (IdCache.splitCache fuel h cache n)).
  set (f3 := set_identifierCache (Some others)).
  set (f4 := set_identifierCache (Some mine)).
  set (f5 := fun nd' : node =>
               set_children (filter (fun e : string * nid => e.1 <> subpath nd)
                               (children nd')) nd').
  set (f6 := set_parent None).
  set (f7 := set_subpath "").
  set (f8 := set_isDetaching false).
  set (tr := trace s ++ hook_call n "beforeDetach" nd).
  set (h2 := alter f2 n (alter f1 n h)).
  set (h4 := alter f4 n (alter f3 r h2)).
  set (h5 := alter f5 p h4).
  set (h8 := alter f8 n (alter f7 n (alter f6 n h5))).
  assert (Hpar2 : forall x, parent_of h2 x = parent_of h x).
  { intros x. unfold h2. rewrite !parent_of_alter; [reflexivity | |];
      intros []; reflexivity. }
  assert (H2n : h2 !! n = Some (f2 (f1 nd))).
  { unfold h2. rewrite !lookup_alter_eq. fold h in Hn. rewrite Hn. reflexivity. }
  assert (H2r : h2 !! r = Some rd).
  { unfold h2. rewrite !lookup_alter_ne by assumption. exact Hrd. }
  assert (H4n : h4 !! n = Some (f4 (f2 (f1 nd)))).
  { unfold h4. rewrite lookup_alter_eq, lookup_alter_ne by congruence.
    rewrite H2n. reflexivity. }
  assert (H4p : exists pd4, h4 !! p = Some pd4).
  { unfold h4. rewrite lookup_alter_ne by assumption.
    rewrite lookup_alter. destruct (decide (r = p)) as [Heq | Hne].
    - rewrite H2r. eexists. reflexivity.
    - unfold h2. rewrite !lookup_alter_ne by assumption. eauto. }
  destruct H4p as (pd4 & H4p).
  assert (H5n : h5 !! n = Some (f4 (f2 (f1 nd)))).
  { unfold h5. rewrite lookup_alter_ne by congruence. exact H4n. }
  split; [| split; [| split; [| split; [| split; [| split]]]]].
  - unfold detach, isRoot, removeChild, type_removeChild.
    rewrite (bind_ok _ _ _ _ _ (get_node_ok _ _ _ Hn)), Ha. cbn [negb].
    unfold bind at 1. unfold ret at 1.
    unfold bind at 1. rewrite (bind_ok _ _ _ _ _ (get_node_ok _ _ _ Hn)), Hp.
    rewrite bool_decide_eq_false_2 by discriminate. unfold ret at 1.
    rewrite (bind_ok _ _ _ _ _ (fireHook_ok _ _ _ _ Hn)). fold h tr.
    rewrite (bind_ok _ _ _ _ _ (root_ok fuel (MkState h tr) _ _ Hanc Hfuel)). fold r.
    rewrite (bind_ok _ _ _ _ _ (get_node_ok (MkState h tr) _ _ Hrd)).
    rewrite (bind_ok _ _ _ _ _ (upd_node_alter (MkState h tr) _ f1 _ Hn)). cbn [heap trace].
    rewrite (bind_ok _ _ _ _ _
               (upd_node_alter (MkState (alter f1 n h) tr) n f2 (f1 nd)
                  ltac:(cbn [heap]; rewrite lookup_alter_eq; fold h in Hn; rewrite Hn;
                        reflexivity))).
    cbn [heap trace]. fold h2.
    assert (Hroot2 : root fuel n (MkState h2 tr) = (Ok r, MkState h2 tr)).
    { unfold root. cbn [heap]. rewrite (root_of_ext h2 h Hpar2).
      rewrite (root_of_ancestors _ _ _ Hanc fuel Hfuel). reflexivity. }
    rewrite (bind_ok _ _ _ _ _ Hroot2).
    rewrite (bind_ok _ _ _ _ _ (get_node_ok (MkState h2 tr) _ _ H2r)).
    rewrite Hcache. unfold bind at 1. cbn [heap].
    unfold IdCache.splitCache.
    assert (Hmine : filter (fun e : string * string * nid =>
                              IdCache.is_within fuel h2 n e.2 = true) cache = mine).
    { unfold mine, IdCache.splitCache. cbn [fst]. apply list_filter_iff. intros e.
      rewrite (is_within_ext h2 h Hpar2). reflexivity. }
    assert (Hothers : filter (fun e : string * string * nid =>
                                IdCache.is_within fuel h2 n e.2 <> true) cache = others).
    { unfold others, IdCache.splitCache. cbn [snd]. apply list_filter_iff. intros e.
      rewrite (is_within_ext h2 h Hpar2). reflexivity. }
    rewrite Hmine, Hothers. fold f3 f4.
    rewrite (bind_ok _ _ _ _ _ (upd_node_alter (MkState h2 tr) r f3 _ H2r)).
    cbn [heap trace].
    rewrite (bind_ok _ _ _ _ _
               (upd_node_alter (MkState (alter f3 r h2) tr) n f4 (f2 (f1 nd))
                  ltac:(cbn [heap]; rewrite lookup_alter_ne by congruence; exact H2n))).
    cbn [heap trace]. fold h4.
    rewrite (bind_ok _ _ _ _ _ (get_node_ok (MkState h4 tr) _ _ H4n)).
    replace (_parent (f4 (f2 (f1 nd)))) with (Some p)
      by (rewrite <- Hp; destruct nd; reflexivity).
    replace (subpath (f4 (f2 (f1 nd)))) with (subpath nd) by (destruct nd; reflexivity).
    fold f5 f6 f7 f8.
    rewrite (bind_ok _ _ _ _ _ (upd_node_alter (MkState h4 tr) p f5 _ H4p)).
    cbn [heap trace]. fold h5.
    rewrite (bind_ok _ _ _ _ _ (upd_node_alter (MkState h5 tr) n f6 _ H5n)).
    cbn [heap trace].
    rewrite (bind_ok _ _ _ _ _
               (upd_node_alter (MkState (alter f6 n h5) tr) n f7 (f6 (f4 (f2 (f1 nd))))
                  ltac:(cbn [heap]; rewrite lookup_alter_eq, H5n; reflexivity))).
    cbn [heap trace].
    rewrite (upd_node_alter (MkState (alter f7 n (alter f6 n h5)) tr) n f8
               (f7 (f6 (f4 (f2 (f1 nd)))))
               ltac:(cbn [heap]; rewrite !lookup_alter_eq, H5n; reflexivity)).
    reflexivity.
  - fold h8. unfold h8. rewrite !lookup_alter_eq, H5n. reflexivity.
  - intros x Hxn Hxp Hxr. fold h8. unfold h8, h5, h4, h2.
    rewrite !lookup_alter_ne by congruence. reflexivity.
  - intros x Hxn. fold h8. unfold h8, h5, h4.
    unfold parent_of at 1. rewrite !lookup_alter_ne by congruence.
    change (match alter f5 p (alter f4 n (alter f3 r h2)) !! x with
            | Some nd1 => Some (_parent nd1)
            | None => None
            end) with (parent_of (alter f5 p (alter f4 n (alter f3 r h2))) x).
    rewrite !parent_of_alter; [apply Hpar2 | | |]; intros []; reflexivity.
  - exact Hnp.
  - exact Hnr.
  - fold h8. unfold h8. rewrite !lookup_alter_ne by assumption. unfold h5.
    rewrite lookup_alter. destruct (decide (p = r)) as [Heq | Hne].
    + rewrite H4p. eexists. split; [reflexivity |].
      assert (H4r : h4 !! r = Some (f3 rd)).
      { unfold h4. rewrite lookup_alter_ne by assumption.
        rewrite lookup_alter_eq, H2r. reflexivity. }
      rewrite Heq in H4p. assert (pd4 = f3 rd) by congruence. subst pd4.
      destruct rd; repeat split; simpl in *; first [reflexivity | assumption].
    + unfold h4. rewrite lookup_alter_ne by assumption.
      rewrite lookup_alter_eq, H2r. eexists. split; [reflexivity |].
      destruct rd; repeat split; simpl in *; first [reflexivity | assumption].
Qed.

(** X16.  [detach] is not [die]: the node keeps its disposers, its subscribers and
    its middlewares, its children and its being alive; none of the disposers
    and subscribers is called, only the [beforeDetach] hook; and a second
    [detach] finds a root and does nothing. *)
Theorem detach_keeps_listeners (fuel : nat) (s : state) (n p : nid)
  (nd pd rd : node) (l : list nid) (cache : IdentifierCache)
  (Hn : heap s !! n = Some nd) (Ha : _isAlive nd = true)
  (Hanc : ancestors (heap s) n (p :: l)) (Hfuel : length (p :: l) < fuel)
  (Hpd : heap s !! p = Some pd)
  (Hrd : heap s !! top_of n (p :: l) = Some rd)
  (Hcache : identifierCache rd = Some cache) :
  exists s' nd',
    detach fuel n s = (Ok tt, s') /\
    heap s' !! n = Some nd' /\
    disposers nd' = disposers nd /\
    patchSubscribers nd' = patchSubscribers nd /\
    snapshotSubscribers nd' = snapshotSubscribers nd /\
    middlewares nd' = middlewares nd /\
    children nd' = children nd /\
    _isAlive nd' = true /\
    trace s' = trace s ++ hook_call n "beforeDetach" nd /\
    detach fuel n s' = (Ok tt, s').
Proof.
  destruct (detach_run fuel s n nd p l pd rd cache Hn Ha Hanc Hfuel Hpd Hrd Hcache)
    as (Hrun & Hlook & _).
  eexists. exists (detached_node fuel (heap s) n nd rd cache).
  split; [exact Hrun |]. split; [exact Hlook |].
  unfold detached_node.
  repeat (split; [destruct nd; simpl in *; first [reflexivity | assumption] |]).
  unfold detach, isRoot.
  erewrite bind_ok by (apply get_node_ok; exact Hlook).
  replace (_isAlive (detached_node fuel (heap s) n nd rd cache)) with true
    by (unfold detached_node; destruct nd; simpl in *; congruence).
  cbn [negb]. erewrite bind_ok by reflexivity.
  erewrite bind_ok by (erewrite bind_ok by (apply get_node_ok; exact Hlook); reflexivity).
  rewrite bool_decide_eq_true_2; [reflexivity |].
  unfold detached_node. destruct nd; reflexivity.
Qed.

Lemma detach_keeps_listeners_witness :
  exists s' nd',
    detach 5 2%positive dyingTree = (Ok tt, s') /\
    heap s' !! 2%positive = Some nd' /\
    disposers nd' = [10; snapshotDisposer] /\
    patchSubscribers nd' = [] /\
    snapshotSubscribers nd' = [] /\
    middlewares nd' = [] /\
    children nd' = [("n", 4%positive); ("b", 3%positive)] /\
    _isAlive nd' = true /\
    trace s' = [HookCalled 2%positive "beforeDetach"] /\
    detach 5 2%positive s' = (Ok tt, s').
Proof.
  apply (detach_keeps_listeners 5 dyingTree 2%positive 1%positive
           (set_disposers [10; snapshotDisposer]
              (sample_node NodeC "A" 2%positive (Some 1%positive) "a"
                 [("n", 4%positive); ("b", 3%positive)]))
           (sample_node NodeC "Store" 1%positive None "" [("a", 2%positive)])
           (sample_node NodeC "Store" 1%positive None "" [("a", 2%positive)])
           [] [] eq_refl eq_refl).
  - eapply ancestors_step; [reflexivity | reflexivity |].
    eapply ancestors_root; reflexivity.
  - simpl. lia.
  - reflexivity.
  - reflexivity.
  - reflexivity.
Defined.

Lemma route_below h top segs nodes :
  route h top segs nodes ->
  forall ltop, ancestors h top ltop ->
    forall c, c ∈ nodes -> exists pre, ancestors h c (pre ++ top :: ltop).
Proof.
  induction 1 as [top | top td c0 cd segs nodes Ht Hc Hcd Hp Hr IH]; intros ltop Hanc c Hin.
  - inversion Hin.
  - assert (Hc0 : ancestors h c0 (top :: ltop)) by (eapply ancestors_step; eassumption).
    apply elem_of_cons in Hin as [-> | Hin].
    + exists []. exact Hc0.
    + destruct (IH _ Hc0 c Hin) as (pre & Hpre).
      exists (pre ++ [c0]). rewrite <- app_assoc. exact Hpre.
Qed.

Lemma route_off_chain h n l segs nodes :
  route h n segs nodes -> ancestors h n l ->
  forall c, c ∈ nodes -> c ∉ n :: l.
Proof.
  intros Hroute Hanc c Hin Hon.
  destruct (route_below _ _ _ _ Hroute l Hanc c Hin) as (pre & Hpre).
  apply elem_of_cons in Hon as [-> | Hon].
  - apply (ancestors_not_self _ _ _ Hpre). apply elem_of_app. right. left.
  - apply list_elem_of_split in Hon as (pre' & post & ->).
    pose proof (ancestors_suffix _ _ _ Hanc pre' c post eq_refl) as Hc.
    pose proof (ancestors_functional _ _ _ Hpre _ Hc) as Heq.
    apply (f_equal length) in Heq. rewrite !length_app in Heq. simpl in Heq.
    rewrite length_app in Heq. simpl in Heq. lia.
Qed.

Lemma route_agree h h' top segs nodes :
  route h top segs nodes ->
  (forall c, c ∈ nodes -> h' !! c = h !! c) ->
  (forall td, h !! top = Some td ->
     exists td', h' !! top = Some td' /\ children td' = children td) ->
  route h' top segs nodes.
Proof.
  induction 1 as [top | top td c cd segs nodes Ht Hc Hcd Hp Hr IH]; intros Hsame Htop.
  - apply route_here.
  - destruct (Htop _ Ht) as (td' & Ht' & Hkids).
    eapply route_step; [exact Ht' | rewrite Hkids; exact Hc | | exact Hp |].
    + rewrite Hsame by left. exact Hcd.
    + apply IH.
      * intros c' Hc'. apply Hsame. right. exact Hc'.
      * intros td0 Htd0. exists td0. split; [| reflexivity].
        rewrite Hsame by left. exact Htd0.
Qed.

(** X17.  After [detach] the paths in the detached subtree start at the detached
    node: a node below it, whose path was the path of the detached node
    followed by the way down, has the way down as its path, and the detached
    node as its root. *)
Theorem detach_rebases_paths (fuel : nat) (s : state) (n p : nid)
  (nd pd rd : node) (l : list nid) (cache : IdentifierCache)
  (segs : list string) (nodes : list nid)
  (Hn : heap s !! n = Some nd) (Ha : _isAlive nd = true)
  (Hanc : ancestors (heap s) n (p :: l))
  (Hpd : heap s !! p = Some pd)
  (Hrd : heap s !! top_of n (p :: l) = Some rd)
  (Hcache : identifierCache rd = Some cache)
  (Hroute : route (heap s) n segs nodes)
  (Hfuel : length (p :: l) + length segs < fuel) :
  let d := end_of n nodes in
  let s' := snd (detach fuel n s) in
  exists before,
    path fuel n s = (Ok before, s) /\
    path fuel d s = (Ok (before +:+ joinJsonPath segs), s) /\
    path fuel d s' = (Ok (joinJsonPath segs), s') /\
    root fuel d s' = (Ok n, s').
Proof.
  intros d s'.
  assert (Hfuel0 : length (p :: l) < fuel) by lia.
  destruct (detach_run fuel s n nd p l pd rd cache Hn Ha Hanc Hfuel0 Hpd Hrd Hcache)
    as (Hrun & Hlook & Hother & _ & Hnp & Hnr & _).
  destruct (route_ancestors _ _ _ _ Hroute _ Hanc) as (Hd & Hsegs & Hlen & _).
  exists (joinJsonPath (segments (heap s) n (p :: l))). split; [| split].
  - apply path_ok; assumption.
  - fold d in Hd, Hsegs. rewrite (path_ok fuel s d _ Hd) by (rewrite Hlen; lia).
    rewrite Hsegs, joinJsonPath_app. reflexivity.
  - subst s'. rewrite Hrun. cbn [snd].
    set (h8 := detached_heap fuel (heap s) n p (top_of n (p :: l)) nd rd cache) in *.
    set (tr := trace s ++ hook_call n "beforeDetach" nd).
    assert (Hroute8 : route h8 n segs nodes).
    { eapply route_agree; [exact Hroute | |].
      - intros c Hc. pose proof (route_off_chain _ _ _ _ _ Hroute Hanc c Hc) as Hoff.
        apply Hother.
        + intros ->. apply Hoff. left.
        + intros ->. apply Hoff. right. left.
        + intros ->. apply Hoff. apply top_of_elem.
      - intros td Htd. rewrite Hn in Htd. injection Htd as <-.
        eexists. split; [exact Hlook |]. unfold detached_node. destruct nd; reflexivity. }
    assert (Hroot8 : _parent (detached_node fuel (heap s) n nd rd cache) = None)
      by (unfold detached_node; destruct nd; reflexivity).
    split.
    + apply (path_of_route fuel (MkState h8 tr) n _ segs nodes Hlook Hroot8 Hroute8). lia.
    + assert (Hn8 : ancestors h8 n []) by (eapply ancestors_root; eassumption).
      destruct (route_ancestors _ _ _ _ Hroute8 _ Hn8) as (Hd8 & _ & Hlen8 & Htop8).
      fold d in Hd8, Htop8.
      rewrite (root_ok fuel (MkState h8 tr) d _ Hd8) by (rewrite Hlen8; simpl; lia).
      rewrite Htop8. reflexivity.
Qed.

Lemma detach_rebases_paths_witness :
  exists before,
    path 5 2%positive abTree = (Ok before, abTree) /\
    path 5 3%positive abTree = (Ok (before +:+ "/b"), abTree) /\
    path 5 3%positive (snd (detach 5 2%positive abTree))
      = (Ok "/b", snd (detach 5 2%positive abTree)) /\
    root 5 3%positive (snd (detach 5 2%positive abTree))
      = (Ok 2%positive, snd (detach 5 2%positive abTree)).
Proof.
  apply (detach_rebases_paths 5 abTree 2%positive 1%positive
           (sample_node NodeC "A" 2%positive (Some 1%positive) "a" [("b", 3%positive)])
           (sample_node NodeC "Store" 1%positive None "" [("a", 2%positive)])
           (sample_node NodeC "Store" 1%positive None "" [("a", 2%positive)])
           [] [] ["b"] [3%positive] eq_refl eq_refl abTree_chain_2 eq_refl eq_refl eq_refl).
  - eapply (route_step _ 2%positive _ 3%positive
              (MkNode ImmutableNodeC "number" (Some 2%positive) "b" false None true None
                 VUndefined true false [] [] [] [] None [] [] (VNum 1) (VNum 1) None None));
      [reflexivity | reflexivity | reflexivity | reflexivity | apply route_here].
  - simpl. lia.
Defined.

Lemma strict_eq_refl v : strict_eq v v = true.
Proof.
  destruct v; simpl; try reflexivity.
  - destruct b; reflexivity.
  - apply Z.eqb_refl.
  - apply String.eqb_refl.
  - apply Pos.eqb_refl.
Qed.

Lemma mergeCache_fresh incoming :
  forall cache, NoDup (map fst (cache ++ incoming)) ->
    IdCache.mergeCache cache incoming = Ok (cache ++ incoming).
Proof.
  induction incoming as [| [key n] rest IH]; intros cache Hnd; simpl.
  - rewrite app_nil_r. reflexivity.
  - destruct (existsb (fun e : string * string * nid => bool_decide (e.1 = key)) cache)
      eqn:Hex.
    + exfalso. apply existsb_exists in Hex as (e & Hin & He).
      apply bool_decide_eq_true_1 in He. apply list_elem_of_In in Hin.
      rewrite map_app in Hnd. apply NoDup_app in Hnd as (_ & Hdisj & _).
      apply (Hdisj key).
      * rewrite <- He. apply list_elem_of_fmap. exists e. split; [reflexivity | exact Hin].
      * simpl. left.
    + rewrite IH; rewrite <- app_assoc; [reflexivity | exact Hnd].
Qed.

(** X18.  Moving a node within its tree.  A live node that is detached and then
    given a parent in the tree it came from, outside its own subtree, ends
    up alive below that parent: [detach] has stored the environment of the
    tree in the node, so the environment check of [setParent] passes, and the
    registrations that [detach] took out of the cache of the root are merged
    back, so the cache of the root holds what it held before.  The hooks
    called are [beforeDetach] and then [afterAttach]. *)
Theorem detached_node_can_return (fuel : nat) (s : state) (n p np : nid)
  (nd pd rd : node) (l lnp : list nid) (cache : IdentifierCache)
  (sub : option string)
  (Hn : heap s !! n = Some nd) (Ha : _isAlive nd = true)
  (Hanc : ancestors (heap s) n (p :: l)) (Hfuel : length (p :: l) < fuel)
  (Hpd : heap s !! p = Some pd)
  (Hrd : heap s !! top_of n (p :: l) = Some rd)
  (Hcache : identifierCache rd = Some cache)
  (Hkeys : NoDup (map fst cache))
  (Hnp : ancestors (heap s) np lnp) (Hlen : length lnp < fuel)
  (Hsame : top_of np lnp = top_of n (p :: l))
  (Houtside : n ∉ np :: lnp) :
  exists s' nd' rd' merged,
    (run detach fuel n; setParent fuel n (Some np) sub) s = (Ok tt, s') /\
    trace s' = trace s ++ hook_call n "beforeDetach" nd ++ hook_call n "afterAttach" nd /\
    heap s' !! n = Some nd' /\
    _parent nd' = Some np /\ subpath nd' = default "" sub /\ _isAlive nd' = true /\
    ancestors (heap s') n (np :: lnp) /\
    heap s' !! top_of n (p :: l) = Some rd' /\
    identifierCache rd' = Some merged /\ merged ≡ₚ cache.
Proof.
  destruct (detach_run fuel s n nd p l pd rd cache Hn Ha Hanc Hfuel Hpd Hrd Hcache)
    as (Hrun & Hlook & Hother & Hpar & Hnp' & Hnr & rd8 & Hr8 & Hcache8 & Henv8 & Hroot8).
  set (r := top_of n (p :: l)) in *.
  set (h8 := detached_heap fuel (heap s) n p r nd rd cache) in *.
  set (tr := trace s ++ hook_call n "beforeDetach" nd) in *.
  set (nd8 := detached_node fuel (heap s) n nd rd cache) in *.
  set (mine := fst (IdCache.splitCache fuel (heap s) cache n)) in *.
  set (others := snd (IdCache.splitCache fuel (heap s) cache n)) in *.
  assert (Hperm : others ++ mine ≡ₚ cache).
  { subst others mine. unfold IdCache.splitCache. cbn [fst snd].
    rewrite Permutation_app_comm. apply filter_app_complement. }
  assert (Hmerge : IdCache.mergeCache others mine = Ok (others ++ mine)).
  { apply mergeCache_fresh. rewrite Hperm. exact Hkeys. }
  assert (Hnp8 : ancestors (heap (MkState h8 tr)) np lnp).
  { cbn [heap]. eapply ancestors_agree; [| exact Hnp].
    intros y Hy. apply Hpar. intros ->. contradiction. }
  assert (Hp8 : _parent nd8 = None) by (subst nd8; unfold detached_node; destruct nd; reflexivity).
  assert (Hmine8 : identifierCache nd8 = Some mine)
    by (subst nd8; unfold detached_node; destruct nd; reflexivity).
  assert (Hother8 : top_of np lnp <> n) by (rewrite Hsame; congruence).
  assert (Hr8' : heap (MkState h8 tr) !! top_of np lnp = Some rd8)
    by (rewrite Hsame; exact Hr8).
  assert (Henv : truthy (_environment nd8) = true ->
                 strict_eq (_environment nd8) (_environment rd8) = true).
  { intros _. rewrite Henv8.
    replace (_environment nd8) with (_environment rd)
      by (subst nd8; unfold detached_node; destruct nd; reflexivity).
    apply strict_eq_refl. }
  destruct (setParent_attach_ok fuel (MkState h8 tr) n np nd8 rd8 lnp sub mine others
              (others ++ mine) Hlook Hp8 Hnp8 Hlen Hother8 Hr8' Henv Hcache8 Hmine8 Hmerge)
    as (Hattach & Hchain & _ & _).
  eexists. exists (set_parent (Some np) (set_subpath (default "" sub) nd8)).
  exists (set_identifierCache (Some (others ++ mine)) rd8), (others ++ mine).
  split; [| repeat split].
  - rewrite (bind_ok _ _ _ _ _ Hrun). exact Hattach.
  - cbn [trace]. subst tr. rewrite <- app_assoc. f_equal. f_equal.
    unfold hook_call. subst nd8. unfold detached_node. destruct nd; reflexivity.
  - cbn [heap]. apply lookup_insert_eq.
  - destruct nd8; reflexivity.
  - destruct nd8; reflexivity.
  - subst nd8. unfold detached_node. destruct nd; simpl in *; assumption.
  - exact Hchain.
  - cbn [heap]. rewrite lookup_insert_ne by congruence.
    rewrite Hsame. apply lookup_insert_eq.
  - destruct rd8; reflexivity.
  - exact Hperm.
Qed.

Lemma detached_node_can_return_witness :
  exists s' nd' rd' merged,
    (run detach 5 3%positive;
     setParent 5 3%positive (Some 1%positive) (Some "c")) watchedTree = (Ok tt, s') /\
    trace s' = [HookCalled 3%positive "beforeDetach"; HookCalled 3%positive "afterAttach"] /\
    heap s' !! 3%positive = Some nd' /\
    _parent nd' = Some 1%positive /\ subpath nd' = "c" /\ _isAlive nd' = true /\
    ancestors (heap s') 3%positive [1%positive] /\
    heap s' !! 1%positive = Some rd' /\
    identifierCache rd' = Some merged /\ merged ≡ₚ [].
Proof.
  apply (detached_node_can_return 5 watchedTree 3%positive 2%positive 1%positive
           (sample_node NodeC "B" 3%positive (Some 2%positive) "b" [])
           (set_patchSubscribers [8; 9]
              (sample_node NodeC "A" 2%positive (Some 1%positive) "a" [("b", 3%positive)]))
           (set_patchSubscribers [7]
              (sample_node NodeC "Store" 1%positive None "" [("a", 2%positive)]))
           [1%positive] [] [] (Some "c") eq_refl eq_refl).
  - eapply ancestors_step; [reflexivity | reflexivity |].
    eapply ancestors_step; [reflexivity | reflexivity |].
    eapply ancestors_root; reflexivity.
  - simpl. lia.
  - reflexivity.
  - reflexivity.
  - reflexivity.
  - constructor.
  - eapply ancestors_root; reflexivity.
  - simpl. lia.
  - reflexivity.
  - intros H. apply list_elem_of_singleton in H. discriminate.
Defined.

(** *** After death *)

(** X21.  A node that [finalizeDeath] has run on notifies nobody: [emitPatch]
    on it calls no subscriber and does not go on to the former ancestors,
    whose reference the node has lost, and [emitSnapshot] calls no
    subscriber. *)
Theorem dead_node_notifies_nobody (fuel : nat) (s : state) (n : nid) (nd rd : node)
  (up : list nid) (c : IdentifierCache)
  (Hn : heap s !! n = Some nd) (Hc : cls nd = NodeC)
  (Hanc : ancestors (heap s) n up) (Hfuel : length up < fuel)
  (Hr : heap s !! top_of n up = Some rd) (Hcache : identifierCache rd = Some c) :
  let s' := snd (finalizeDeath fuel n s) in
  (forall basePatch source, emitPatch fuel n basePatch source s' = (Ok tt, s')) /\
  (forall snap, emitSnapshot n snap s' = (Ok tt, s')).
Proof.
  intros s'.
  destruct (finalizeDeath_ok fuel s n nd up rd c Hn Hc Hanc Hfuel Hr Hcache)
    as (s1 & nd' & Hfin & _ & _ & _ & Hn' & _ & Hp' & _ & Hps & Hss & _).
  pose proof (writes_finalizeDeath false fuel n s) as Hsteps. unfold writes in Hsteps.
  destruct (evolves_steps _ _ _ Hsteps _ _ Hn) as (nd2 & Hn2 & Hcls & _).
  subst s'. rewrite Hfin in *. cbn [snd] in *.
  assert (nd2 = nd') by congruence. subst nd2.
  split.
  - intros basePatch source. unfold emitPatch.
    destruct fuel as [| f]; [simpl in Hfuel; lia |]. cbn [emitPatch_up].
    rewrite (bind_ok _ _ _ _ _ (get_node_ok _ _ _ Hn')).
    rewrite Hcls, Hc, Hps, Hp'. reflexivity.
  - intros snap. unfold emitSnapshot.
    rewrite (bind_ok _ _ _ _ _ (get_node_ok _ _ _ Hn')).
    rewrite Hcls, Hc, Hss. reflexivity.
Qed.

Lemma dead_node_notifies_nobody_witness :
  let s' := snd (finalizeDeath 5 2%positive watchedTree) in
  (forall basePatch source, emitPatch 5 2%positive basePatch source s' = (Ok tt, s')) /\
  (forall snap, emitSnapshot 2%positive snap s' = (Ok tt, s')).
Proof.
  apply (dead_node_notifies_nobody 5 watchedTree 2%positive
           (set_patchSubscribers [8; 9]
              (sample_node NodeC "A" 2%positive (Some 1%positive) "a" [("b", 3%positive)]))
           (set_patchSubscribers [7]
              (sample_node NodeC "Store" 1%positive None "" [("a", 2%positive)]))
           [1%positive] [] eq_refl eq_refl).
  - eapply ancestors_step; [reflexivity | reflexivity |].
    eapply ancestors_root; reflexivity.
  - simpl. lia.
  - reflexivity.
  - reflexivity.
Defined.

Lemma segments_alter h g R n l :
  (forall nd, subpath (g nd) = subpath nd) ->
  segments (alter g R h) n l = segments h n l.
Proof.
  intros Hg. revert n. induction l as [| p l IH]; intros n; [reflexivity |].
  cbn [segments]. rewrite IH. f_equal. f_equal. unfold subpath_of.
  rewrite lookup_alter. destruct (decide (R = n)) as [-> | Hne]; [| reflexivity].
  destruct (h !! n) as [nd |]; [apply Hg | reflexivity].
Qed.

(** What [finalizeDeath] leaves on the stored value of the node: the
    throwing getter, with the type and the path the node had. *)
Lemma finalizeDeath_poisons fuel s x nd up rd c :
  heap s !! x = Some nd -> cls nd = NodeC ->
  ancestors (heap s) x up -> length up < fuel ->
  heap s !! top_of x up = Some rd -> identifierCache rd = Some c ->
  exists nd',
    heap (snd (finalizeDeath fuel x s)) !! x = Some nd' /\
    identifier nd' = identifier nd /\ typeName nd' = typeName nd /\
    _isAlive nd' = false /\ _parent nd' = None /\
    poisoned nd' = Some (typeName nd, joinJsonPath (segments (heap s) x up)).
Proof.
  intros Hx Hc Hanc Hfuel Hr Hcache.
  set (h := heap s) in *. set (R := top_of x up) in *.
  set (g := set_identifierCache (Some (IdCache.notifyDied c x))).
  set (h1 := alter g R h).
  assert (Hpar1 : forall y, parent_of h1 y = parent_of h y).
  { intros y. unfold h1. apply parent_of_alter. intros []; reflexivity. }
  assert (Hanc1 : ancestors h1 x up).
  { eapply ancestors_ext; [| exact Hanc]. intros y. symmetry. apply Hpar1. }
  assert (Hx1 : exists nd1, h1 !! x = Some nd1 /\ snapshot_of nd1 = snapshot_of nd /\
                            identifier nd1 = identifier nd /\ typeName nd1 = typeName nd).
  { unfold h1. rewrite lookup_alter. destruct (decide (R = x)) as [Heq | Hne].
    - rewrite Hr. rewrite Heq in Hr. assert (rd = nd) by congruence. subst rd.
      exists (g nd). split; [reflexivity |]. destruct nd; repeat split; reflexivity.
    - exists nd. repeat split; assumption. }
  destruct Hx1 as (nd1 & Hx1 & Hsnap1 & Hid1 & Hty1).
  assert (Hseg : segments h1 x up = segments h x up).
  { unfold h1. apply segments_alter. intros []; reflexivity. }
  set (oldPath := joinJsonPath (segments h1 x up)).
  set (final :=
         set_poisoned (Some (typeName nd1, oldPath))
           (set_subpath ""
              (set_parent None
                 (set_isAlive false
                    (set_patchSubscribers []
                       (set_snapshotSubscribers []
                          (set_patchSubscribers []
                             (set_frozenSnapshot (Some (snapshot_of nd)) nd1)))))))).
  assert (Hrun : finalizeDeath fuel x s
                 = (Ok tt, MkState (<[x := final]> h1) (trace s))).
  { unfold finalizeDeath, Node_finalizeDeath.
    rewrite (bind_ok _ _ _ _ _ (get_node_ok _ _ _ Hx)), Hc.
    rewrite (bind_ok _ _ _ _ _ (root_ok fuel s _ _ Hanc Hfuel)). fold R.
    rewrite (bind_ok _ _ _ _ _ (get_node_ok _ _ _ Hr)), Hcache. fold g.
    rewrite (bind_ok _ _ _ _ _ (upd_node_alter _ _ g _ Hr)). fold h h1.
    rewrite (bind_ok _ _ _ _ _ (path_ok fuel (MkState h1 (trace s)) _ _ Hanc1 Hfuel)).
    cbn [heap]. fold oldPath.
    assert (Hsnapshot : snapshot x (MkState h1 (trace s))
                        = (Ok (snapshot_of nd), MkState h1 (trace s))).
    { unfold snapshot. rewrite (bind_ok _ _ _ _ _ (get_node_ok (MkState h1 (trace s)) _ _ Hx1)).
      rewrite Hsnap1. reflexivity. }
    rewrite (bind_ok _ _ _ _ _ Hsnapshot).
    rewrite (upd_node_bind (MkState h1 (trace s)) x _ nd1 _ Hx1). cbv beta. cbn [heap trace].
    do 6 upd_here.
    rewrite (upd_node_ok _ _ _ _ (lookup_insert_eq h1 x _)). cbn [heap trace].
    rewrite insert_insert_eq.
    replace (typeName
               (set_subpath ""
                  (set_parent None
                     (set_isAlive false
                        (set_patchSubscribers []
                           (set_snapshotSubscribers []
                              (set_patchSubscribers []
                                 (set_frozenSnapshot (Some (snapshot_of nd)) nd1))))))))
      with (typeName nd1) by (destruct nd1; reflexivity).
    reflexivity. }
  rewrite Hrun. cbn [snd heap]. exists final. split; [apply lookup_insert_eq |].
  unfold final, oldPath. rewrite Hseg, <- Hid1, <- Hty1.
  destruct nd1; repeat split; reflexivity.
Qed.

Lemma get_identifier_ok s n nd :
  heap s !! n = Some nd -> poisoned nd = None \/ identifier nd = None ->
  get_identifier n s = (Ok (identifier nd), s).
Proof.
  intros Hn Hclean. unfold get_identifier.
  rewrite (bind_ok _ _ _ _ _ (get_node_ok _ _ _ Hn)).
  destruct (identifier nd) as [i |]; [| reflexivity].
  destruct Hclean as [-> | Hnone]; [reflexivity | discriminate Hnone].
Qed.

(** [toString] on a node whose parent chain ends in a root and whose
    identifier, if it has one, can still be read. *)
Lemma toString_ok fuel s n nd l :
  heap s !! n = Some nd -> ancestors (heap s) n l -> length l < fuel ->
  poisoned nd = None \/ identifier nd = None ->
  toString fuel n s
  = (Ok (typeName nd +:+ "@"
         +:+ (if bool_decide (joinJsonPath (segments (heap s) n l) = "")
              then "<root>" else joinJsonPath (segments (heap s) n l))
         +:+ match identifier nd with
             | Some i => if bool_decide (i = "") then "" else "(id: " +:+ i +:+ ")"
             | None => ""
             end
         +:+ (if _isAlive nd then "" else "[dead]")), s).
Proof.
  intros Hn Hanc Hfuel Hclean. unfold toString.
  rewrite (bind_ok _ _ _ _ _ (get_identifier_ok _ _ _ Hn Hclean)).
  rewrite (bind_ok _ _ _ _ _ (get_node_ok _ _ _ Hn)).
  rewrite (bind_ok _ _ _ _ _ (path_ok fuel s n l Hanc Hfuel)). reflexivity.
Qed.

(** X27.  [toString] names the type, the path, or <root> for a node without
    parent, the identifier if there is a non-empty one, and whether the node
    is dead.  It reads the identifier first, off the stored value.  On a node
    that [finalizeDeath] has run on, the stored value is poisoned: when the
    type declares no identifier attribute the node prints as a dead root,
    having lost its parent and with it the path it had; when the type
    declares one, reading it raises the error of the poisoned value, which
    names the type and the former path, and [toString] prints nothing. *)
Theorem toString_of_a_dead_node (fuel : nat) (s : state) (n : nid) (nd rd : node)
  (up : list nid) (c : IdentifierCache)
  (Hn : heap s !! n = Some nd) (Hc : cls nd = NodeC)
  (Hanc : ancestors (heap s) n up) (Hfuel : length up < fuel)
  (Hr : heap s !! top_of n up = Some rd) (Hcache : identifierCache rd = Some c) :
  let s' := snd (finalizeDeath fuel n s) in
  (poisoned nd = None ->
   toString fuel n s
   = (Ok (typeName nd +:+ "@"
          +:+ (match up with [] => "<root>" | _ => joinJsonPath (segments (heap s) n up) end)
          +:+ match identifier nd with
              | Some i => if bool_decide (i = "") then "" else "(id: " +:+ i +:+ ")"
              | None => ""
              end
          +:+ (if _isAlive nd then "" else "[dead]")), s)) /\
  (identifier nd = None ->
   toString fuel n s' = (Ok (typeName nd +:+ "@<root>[dead]"), s')) /\
  (forall i, identifier nd = Some i ->
   toString fuel n s'
   = (Throw (ObjectDied (typeName nd) (joinJsonPath (segments (heap s) n up))), s')).
Proof.
  intros s'.
  destruct (finalizeDeath_poisons fuel s n nd up rd c Hn Hc Hanc Hfuel Hr Hcache)
    as (nd' & Hn' & Hid & Hty & Hdead & Hp' & Hpoison).
  fold s' in Hn'.
  split; [| split].
  - intros Hclean.
    rewrite (toString_ok fuel s n nd up Hn Hanc Hfuel (or_introl Hclean)).
    destruct up as [| p up].
    + reflexivity.
    + rewrite bool_decide_eq_false_2; [reflexivity |].
      intros Heq. apply joinJsonPath_empty in Heq.
      simpl in Heq. destruct (segments (heap s) p up); discriminate.
  - intros Hnone.
    assert (Hroot : ancestors (heap s') n []) by (eapply ancestors_root; eassumption).
    rewrite (toString_ok fuel s' n nd' [] Hn' Hroot) by
      (first [simpl; lia | right; congruence]).
    rewrite Hty, Hid, Hnone, Hdead. reflexivity.
  - intros i Hsome. unfold toString.
    erewrite bind_throw; [reflexivity |]. unfold get_identifier.
    rewrite (bind_ok _ _ _ _ _ (get_node_ok _ _ _ Hn')).
    rewrite Hid, Hsome, Hpoison. reflexivity.
Qed.

Lemma toString_of_a_dead_node_witness :
  toString 5 2%positive abTree = (Ok "A@/a", abTree) /\
  toString 5 2%positive (snd (finalizeDeath 5 2%positive abTree))
  = (Ok "A@<root>[dead]", snd (finalizeDeath 5 2%positive abTree)) /\
  toString 5 1%positive idTree = (Ok "Item@<root>(id: i1)", idTree) /\
  toString 5 1%positive (snd (finalizeDeath 5 1%positive idTree))
  = (Throw (ObjectDied "Item" ""), snd (finalizeDeath 5 1%positive idTree)).
Proof.
  destruct (toString_of_a_dead_node 5 abTree 2%positive
              (sample_node NodeC "A" 2%positive (Some 1%positive) "a" [("b", 3%positive)])
              (sample_node NodeC "Store" 1%positive None "" [("a", 2%positive)])
              [1%positive] [] eq_refl eq_refl abTree_chain_2 ltac:(simpl; lia)
              eq_refl eq_refl) as (H1 & H2 & _).
  destruct (toString_of_a_dead_node 5 idTree 1%positive _ _ [] _
              eq_refl eq_refl ltac:(eapply ancestors_root; reflexivity)
              ltac:(simpl; lia) eq_refl eq_refl) as (H3 & _ & H4).
  split; [exact (H1 eq_refl) |]. split; [exact (H2 eq_refl) |].
  split; [exact (H3 eq_refl) | exact (H4 "i1" eq_refl)].
Defined.

(** *** The unboxing switch *)

Lemma lift_ok {A} (c : M A) u r s' :
  c (AutoUnbox.base u) = (r, s') ->
  AutoUnbox.lift c u = (r, AutoUnbox.MkU s' (AutoUnbox.switched_off u)).
Proof. unfold AutoUnbox.lift. intros ->. reflexivity. Qed.

Lemma autoUnbox_on n s (off : gset nid) :
  AutoUnbox._autoUnbox n (AutoUnbox.MkU s ((off ∪ {[n]}) ∖ {[n]})) = true.
Proof.
  unfold AutoUnbox._autoUnbox. apply bool_decide_eq_true_2. simpl.
  intros H. apply elem_of_difference in H as [_ H]. apply H, elem_of_singleton. reflexivity.
Qed.

Lemma autoUnbox_off n s (off : gset nid) :
  AutoUnbox._autoUnbox n (AutoUnbox.MkU s (off ∪ {[n]})) = false.
Proof.
  unfold AutoUnbox._autoUnbox. apply bool_decide_eq_false_2. simpl.
  intros H. apply H, elem_of_union. right. apply elem_of_singleton. reflexivity.
Qed.

Lemma getChildNode_switch_ok (n : nid) (sub : string)
  (u : AutoUnbox.ustate) (nd : node)
  (Hn : heap (AutoUnbox.base u) !! n = Some nd) :
  let r := AutoUnbox.getChildNode n sub u in
  fst r = fst (getChildNode n sub (AutoUnbox.base u)) /\
  AutoUnbox.base (snd r) = AutoUnbox.base u /\
  (_isAlive nd = false -> r = (Throw NodeDied, u)) /\
  (forall c, _isAlive nd = true -> lookup_child sub (children nd) = Some c ->
     fst r = Ok c /\ AutoUnbox._autoUnbox n (snd r) = true) /\
  (_isAlive nd = true -> lookup_child sub (children nd) = None ->
     fst r = Throw (NoSuchChild sub) /\ AutoUnbox._autoUnbox n (snd r) = false).
Proof.
  cbv zeta. destruct u as [s off]. cbn [AutoUnbox.base] in *.
  assert (HA : assertAlive n s = (if _isAlive nd then Ok tt else Throw NodeDied, s)).
  { unfold assertAlive. rewrite (bind_ok _ _ _ _ _ (get_node_ok _ _ _ Hn)).
    destruct (_isAlive nd); reflexivity. }
  assert (HT : (do nd <- get_node n; type_getChildNode nd sub) s
               = (match lookup_child sub (children nd) with
                  | Some c => Ok c
                  | None => Throw (NoSuchChild sub)
                  end, s)).
  { rewrite (bind_ok _ _ _ _ _ (get_node_ok _ _ _ Hn)). unfold type_getChildNode.
    destruct (lookup_child sub (children nd)); reflexivity. }
  assert (HG : getChildNode n sub s
               = (if _isAlive nd
                  then match lookup_child sub (children nd) with
                       | Some c => Ok c
                       | None => Throw (NoSuchChild sub)
                       end
                  else Throw NodeDied, s)).
  { unfold getChildNode. unfold bind at 1. rewrite HA.
    destruct (_isAlive nd); [exact HT | reflexivity]. }
  rewrite HG.
  unfold AutoUnbox.getChildNode, AutoUnbox.ubind, AutoUnbox.lift, AutoUnbox.set_autoUnbox,
    AutoUnbox.uret.
  cbn [AutoUnbox.base AutoUnbox.switched_off]. rewrite HA. cbn [fst snd].
  destruct (_isAlive nd).
  - cbn [AutoUnbox.base AutoUnbox.switched_off]. rewrite HT. cbn [fst snd].
    destruct (lookup_child sub (children nd)) as [c |];
      cbn [fst snd AutoUnbox.base AutoUnbox.switched_off];
      (split; [reflexivity | split; [reflexivity | split; [discriminate | split]]]).
    + intros c' _ Hc'. injection Hc' as <-. split; [reflexivity | apply autoUnbox_on].
    + intros _ Hc'. discriminate.
    + intros c' _ Hc'. discriminate.
    + intros _ _. split; [reflexivity | apply autoUnbox_off].
  - cbn [fst snd AutoUnbox.base AutoUnbox.switched_off].
    split; [reflexivity | split; [reflexivity | split; [reflexivity | split]]].
    + intros c' Hd. discriminate.
    + intros Hd. discriminate.
Qed.

Lemma getChildren_switch_ok (n : nid) (u : AutoUnbox.ustate) (nd : node)
  (Hn : heap (AutoUnbox.base u) !! n = Some nd) :
  fst (AutoUnbox.getChildren n u) = fst (getChildren n (AutoUnbox.base u)) /\
  AutoUnbox.base (snd (AutoUnbox.getChildren n u)) = AutoUnbox.base u /\
  (_isAlive nd = false -> AutoUnbox.getChildren n u = (Throw NodeDied, u)) /\
  (_isAlive nd = true ->
   fst (AutoUnbox.getChildren n u) = Ok (type_getChildren nd) /\
   AutoUnbox._autoUnbox n (snd (AutoUnbox.getChildren n u)) = true).
Proof.
  destruct u as [s off]. cbn [AutoUnbox.base] in *.
  assert (HA : assertAlive n s = (if _isAlive nd then Ok tt else Throw NodeDied, s)).
  { unfold assertAlive. rewrite (bind_ok _ _ _ _ _ (get_node_ok _ _ _ Hn)).
    destruct (_isAlive nd); reflexivity. }
  assert (HT : (do nd <- get_node n; ret (type_getChildren nd)) s
               = (Ok (type_getChildren nd), s)).
  { rewrite (bind_ok _ _ _ _ _ (get_node_ok _ _ _ Hn)). reflexivity. }
  assert (HG : getChildren n s
               = (if _isAlive nd then Ok (type_getChildren nd) else Throw NodeDied, s)).
  { unfold getChildren. unfold bind at 1. rewrite HA.
    destruct (_isAlive nd); [exact HT | reflexivity]. }
  rewrite HG.
  unfold AutoUnbox.getChildren, AutoUnbox.ubind, AutoUnbox.lift, AutoUnbox.set_autoUnbox,
    AutoUnbox.uret.
  cbn [AutoUnbox.base AutoUnbox.switched_off]. rewrite HA. cbn [fst snd].
  destruct (_isAlive nd).
  - cbn [AutoUnbox.base AutoUnbox.switched_off]. rewrite HT.
    cbn [fst snd AutoUnbox.base AutoUnbox.switched_off].
    split; [reflexivity | split; [reflexivity | split; [discriminate |]]].
    intros _. split; [reflexivity | apply autoUnbox_on].
  - cbn [fst snd AutoUnbox.base AutoUnbox.switched_off].
    split; [reflexivity | split; [reflexivity | split; [reflexivity | discriminate]]].
Qed.

(** X28.  [getChildNode], [getChildren] and the unboxing switch.  On the nodes
    they do what they do without the switch.  They switch unboxing off before
    they ask the type descriptor and on again after: when they return, the
    switch of the node is on, whatever it was; when the node is not alive
    they raise before touching the switch; and when the type descriptor
    raises, finding no child at the subpath, the switch stays off, since the
    assignment that follows the call is not reached. *)
Theorem getChildNode_switches_unboxing (n : nid) (sub : string)
  (u : AutoUnbox.ustate) (nd : node)
  (Hn : heap (AutoUnbox.base u) !! n = Some nd) :
  let r := AutoUnbox.getChildNode n sub u in
  let rs := AutoUnbox.getChildren n u in
  (fst r = fst (getChildNode n sub (AutoUnbox.base u)) /\
   AutoUnbox.base (snd r) = AutoUnbox.base u /\
   (_isAlive nd = false -> r = (Throw NodeDied, u)) /\
   (forall c, _isAlive nd = true -> lookup_child sub (children nd) = Some c ->
      fst r = Ok c /\ AutoUnbox._autoUnbox n (snd r) = true) /\
   (_isAlive nd = true -> lookup_child sub (children nd) = None ->
      fst r = Throw (NoSuchChild sub) /\ AutoUnbox._autoUnbox n (snd r) = false)) /\
  (fst rs = fst (getChildren n (AutoUnbox.base u)) /\
   AutoUnbox.base (snd rs) = AutoUnbox.base u /\
   (_isAlive nd = false -> rs = (Throw NodeDied, u)) /\
   (_isAlive nd = true ->
    fst rs = Ok (type_getChildren nd) /\ AutoUnbox._autoUnbox n (snd rs) = true)).
Proof.
  split; [exact (getChildNode_switch_ok n sub u nd Hn) | exact (getChildren_switch_ok n u nd Hn)].
Qed.

Lemma getChildNode_switches_unboxing_witness :
  let r := AutoUnbox.getChildNode 1%positive "zz" (AutoUnbox.MkU abTree ∅) in
  let rs := AutoUnbox.getChildren 1%positive (AutoUnbox.MkU abTree ∅) in
  (fst r = fst (getChildNode 1%positive "zz" abTree) /\
   AutoUnbox.base (snd r) = abTree /\
   (true = false -> r = (Throw NodeDied, AutoUnbox.MkU abTree ∅)) /\
   (forall c, true = true -> None = Some c ->
      fst r = Ok c /\ AutoUnbox._autoUnbox 1%positive (snd r) = true) /\
   (true = true -> @None nid = None ->
      fst r = Throw (NoSuchChild "zz") /\ AutoUnbox._autoUnbox 1%positive (snd r) = false)) /\
  (fst rs = fst (getChildren 1%positive abTree) /\
   AutoUnbox.base (snd rs) = abTree /\
   (true = false -> rs = (Throw NodeDied, AutoUnbox.MkU abTree ∅)) /\
   (true = true ->
    fst rs = Ok [2%positive] /\ AutoUnbox._autoUnbox 1%positive (snd rs) = true)).
Proof.
  apply (getChildNode_switches_unboxing 1%positive "zz" (AutoUnbox.MkU abTree ∅)
           (sample_node NodeC "Store" 1%positive None "" [("a", 2%positive)]) eq_refl).
Defined.

Lemma value_ok s c cd :
  heap s !! c = Some cd ->
  value c s = (Ok (if _isAlive cd then typeValue cd else VUndefined), s).
Proof.
  intros Hc. unfold value. rewrite (bind_ok _ _ _ _ _ (get_node_ok _ _ _ Hc)).
  destruct (_isAlive cd); reflexivity.
Qed.

(** X29.  [unbox] hands out the value of a child while unboxing is on, undefined
    for a child that is not alive, and the child itself, a node, while it is
    off; null stays null.  So after a [getChildNode] that failed in the type
    descriptor, [unbox] on that node hands out nodes, until a later
    [getChildNode] that succeeds switches unboxing on again. *)
Theorem unbox_follows_the_switch (n c : nid) (sub : string)
  (u : AutoUnbox.ustate) (nd cd : node)
  (Hn : heap (AutoUnbox.base u) !! n = Some nd)
  (Hc : heap (AutoUnbox.base u) !! c = Some cd) :
  AutoUnbox.unbox n None u = (Ok (AutoUnbox.Node None), u) /\
  (AutoUnbox._autoUnbox n u = true ->
   AutoUnbox.unbox n (Some c) u
   = (Ok (AutoUnbox.Value (if _isAlive cd then typeValue cd else VUndefined)), u)) /\
  (AutoUnbox._autoUnbox n u = false ->
   AutoUnbox.unbox n (Some c) u = (Ok (AutoUnbox.Node (Some c)), u)) /\
  (_isAlive nd = true -> lookup_child sub (children nd) = None ->
   let u' := snd (AutoUnbox.getChildNode n sub u) in
   AutoUnbox.unbox n (Some c) u' = (Ok (AutoUnbox.Node (Some c)), u') /\
   (forall sub2 c2, lookup_child sub2 (children nd) = Some c2 ->
      let u2 := snd (AutoUnbox.getChildNode n sub2 u') in
      AutoUnbox.unbox n (Some c) u2
      = (Ok (AutoUnbox.Value (if _isAlive cd then typeValue cd else VUndefined)), u2))).
Proof.
  assert (Hval : forall v, AutoUnbox.base v = AutoUnbox.base u ->
            AutoUnbox._autoUnbox n v = true ->
            AutoUnbox.unbox n (Some c) v
            = (Ok (AutoUnbox.Value (if _isAlive cd then typeValue cd else VUndefined)), v)).
  { intros v Hbase Hon. unfold AutoUnbox.unbox. rewrite Hon.
    erewrite lift_ok; cycle 1.
    { rewrite Hbase. erewrite bind_ok by (apply value_ok; exact Hc). reflexivity. }
    rewrite <- Hbase. destruct v; reflexivity. }
  assert (Hnode : forall v, AutoUnbox._autoUnbox n v = false ->
            AutoUnbox.unbox n (Some c) v = (Ok (AutoUnbox.Node (Some c)), v)).
  { intros v Hoff. unfold AutoUnbox.unbox. rewrite Hoff. reflexivity. }
  split; [reflexivity |]. split; [apply Hval; reflexivity |]. split; [apply Hnode |].
  intros Halive Hnone u'.
  destruct (getChildNode_switch_ok n sub u nd Hn)
    as (_ & Hbase & _ & _ & Hfail).
  destruct (Hfail Halive Hnone) as (_ & Hoff).
  fold u' in Hbase, Hoff.
  split; [apply Hnode; exact Hoff |].
  intros sub2 c2 Hchild u2.
  assert (Hn' : heap (AutoUnbox.base u') !! n = Some nd) by (rewrite Hbase; exact Hn).
  destruct (getChildNode_switch_ok n sub2 u' nd Hn')
    as (_ & Hbase2 & _ & Hok & _).
  destruct (Hok c2 Halive Hchild) as (_ & Hon).
  fold u2 in Hbase2, Hon.
  apply Hval; [congruence | exact Hon].
Qed.

(** *** Subscriptions *)

Lemma unbox_follows_the_switch_witness :
  AutoUnbox.unbox 1%positive None (AutoUnbox.MkU abTree ∅)
    = (Ok (AutoUnbox.Node None), AutoUnbox.MkU abTree ∅) /\
  (AutoUnbox._autoUnbox 1%positive (AutoUnbox.MkU abTree ∅) = true ->
   AutoUnbox.unbox 1%positive (Some 3%positive) (AutoUnbox.MkU abTree ∅)
   = (Ok (AutoUnbox.Value (VNum 1)), AutoUnbox.MkU abTree ∅)) /\
  (AutoUnbox._autoUnbox 1%positive (AutoUnbox.MkU abTree ∅) = false ->
   AutoUnbox.unbox 1%positive (Some 3%positive) (AutoUnbox.MkU abTree ∅)
   = (Ok (AutoUnbox.Node (Some 3%positive)), AutoUnbox.MkU abTree ∅)) /\
  (true = true -> @None nid = None ->
   let u' := snd (AutoUnbox.getChildNode 1%positive "zz" (AutoUnbox.MkU abTree ∅)) in
   AutoUnbox.unbox 1%positive (Some 3%positive) u'
     = (Ok (AutoUnbox.Node (Some 3%positive)), u') /\
   (forall sub2 c2, lookup_child sub2 [("a", 2%positive)] = Some c2 ->
      let u2 := snd (AutoUnbox.getChildNode 1%positive sub2 u') in
      AutoUnbox.unbox 1%positive (Some 3%positive) u2
      = (Ok (AutoUnbox.Value (VNum 1)), u2))).
Proof.
  apply (unbox_follows_the_switch 1%positive 3%positive "zz" (AutoUnbox.MkU abTree ∅)
           (sample_node NodeC "Store" 1%positive None "" [("a", 2%positive)])
           (MkNode ImmutableNodeC "number" (Some 2%positive) "b" false None true None
              VUndefined true false [] [] [] [] None [] [] (VNum 1) (VNum 1) None None)
           eq_refl eq_refl).
Defined.

Lemma remove_first_snoc h (l : list handler) : h ∉ l -> remove_first h (l ++ [h]) = l.
Proof.
  induction l as [| x l IH]; intros Hnotin; simpl.
  - rewrite bool_decide_eq_true_2 by reflexivity. reflexivity.
  - rewrite bool_decide_eq_false_2.
    + f_equal. apply IH. intros Hin. apply Hnotin. right. exact Hin.
    + intros ->. apply Hnotin. left.
Qed.

(** X20.  Subscribing to snapshots.  A handler that is not yet among the
    snapshot subscribers of a mutable node and that [onSnapshot] registers
    on it is called by [emitSnapshot] with the snapshot, after the
    handlers registered before it and like them once per registration; the
    node is not changed otherwise.  Once the disposer that [onSnapshot]
    returned has been called, the node is as it was before the registration,
    and [emitSnapshot] calls the earlier handlers only. *)
Theorem snapshot_subscription (s : state) (n : nid) (nd : node) (h : handler)
  (snap : jsval)
  (Hn : heap s !! n = Some nd) (Hc : cls nd = NodeC)
  (Hnew : h ∉ snapshotSubscribers nd) :
  let s1 := MkState (<[n := set_snapshotSubscribers (snapshotSubscribers nd ++ [h]) nd]>
                       (heap s)) (trace s) in
  let d := Unregister SnapshotSubscribers n h in
  onSnapshot n h s = (Ok d, s1) /\
  emitSnapshot n snap s1
  = (Ok tt,
     MkState (heap s1)
       (trace s ++ map (fun f => SnapshotSubscriberCalled n f snap)
                     (snapshotSubscribers nd ++ [h]))) /\
  call_IDisposer d s1 = (Ok tt, s) /\
  emitSnapshot n snap s
  = (Ok tt,
     MkState (heap s)
       (trace s ++ map (fun f => SnapshotSubscriberCalled n f snap)
                     (snapshotSubscribers nd))).
Proof.
  intros s1 d.
  assert (Hemit : forall s0 nd0, heap s0 !! n = Some nd0 -> cls nd0 = NodeC ->
            emitSnapshot n snap s0
            = (Ok tt,
               MkState (heap s0)
                 (trace s0 ++ map (fun f => SnapshotSubscriberCalled n f snap)
                                (snapshotSubscribers nd0)))).
  { intros s0 nd0 Hn0 Hc0. unfold emitSnapshot.
    rewrite (bind_ok _ _ _ _ _ (get_node_ok _ _ _ Hn0)), Hc0.
    rewrite <- (state_eta s0) at 1. apply forEach_emit. }
  split; [| split; [| split]].
  - unfold onSnapshot. rewrite (unsupported_mutable s n nd _ _ Hn Hc).
    unfold registerEventHandler. rewrite (upd_node_bind _ _ _ _ _ Hn). reflexivity.
  - rewrite (Hemit s1 (set_snapshotSubscribers (snapshotSubscribers nd ++ [h]) nd)).
    + destruct nd; reflexivity.
    + apply lookup_insert_eq.
    + destruct nd; exact Hc.
  - unfold call_IDisposer, d, s1.
    erewrite upd_node_ok by (cbn [heap]; apply lookup_insert_eq).
    cbn [heap trace]. rewrite insert_insert_eq.
    replace (set_handlers SnapshotSubscribers
               (remove_first h
                  (handlers_of SnapshotSubscribers
                     (set_snapshotSubscribers (snapshotSubscribers nd ++ [h]) nd)))
               (set_snapshotSubscribers (snapshotSubscribers nd ++ [h]) nd))
      with nd.
    + rewrite insert_id by exact Hn. rewrite state_eta. reflexivity.
    + destruct nd; simpl in *. rewrite remove_first_snoc by exact Hnew. reflexivity.
  - apply Hemit; assumption.
Qed.

Lemma snapshot_subscription_witness :
  onSnapshot 1%positive 5 snapTree
  = (Ok (Unregister SnapshotSubscribers 1%positive 5),
     MkState
       (<[1%positive :=
            set_snapshotSubscribers [5]
              (MkNode NodeC "Store" None "" false (Some []) true None VUndefined true false
                 [] [] [4] [snapshotDisposer] (Some 1%positive) [] []
                 (VObj 9 "{x:1}") (VObj 10 "{x:1}") None None)]> (heap snapTree)) []).
Proof.
  destruct (snapshot_subscription snapTree 1%positive
              (MkNode NodeC "Store" None "" false (Some []) true None VUndefined true false
                 [] [] [4] [snapshotDisposer] (Some 1%positive) [] []
                 (VObj 9 "{x:1}") (VObj 10 "{x:1}") None None)
              5 VNull eq_refl eq_refl ltac:(intros H; inversion H))
    as (H & _).
  exact H.
Defined.
